(** * VRP genetic-algorithm solver: a shallow embedding of [vrp_solver.py]

    The development follows the layout of the Python program:

    - [Py]: the fragments of Python the solver relies on (exceptions,
      list indexing with negative indices, item assignment, [range],
      loops and comprehensions that may raise);
    - the route decoder [get_vehicle_routes] and the fitness evaluator
      [_evaluate_vrp] of class [VRPSolver];
    - the functions that [_setup_ga] registers in the toolbox and that
      [solve] calls: they belong to the libraries the program imports,
      DEAP 1.4 ([deap.base], [deap.tools], [deap.algorithms]) and
      CPython's [random], and are embedded from the sources of these
      libraries, under their own names;
    - [VRPSolver.solve] itself;
    - around the solver: [generate_random_locations] of [locations.py],
      the tuners of [tuning.py] (module [VRPTuner]) and the route figure
      [plot_vrp_routes] of [plotting.py], as far as the program computes
      it before handing it to Plotly.

    Numbers.  Coordinates and distances are Python/numpy floats in the
    program; they are idealised here as real numbers ([R]).  numpy's [nan]
    is kept apart from the reals: a float is an [option R] where it can be
    [nan] ([None]); object identity of [nan] values is not modelled.
    Probabilities and the results of [random.random()] are rationals
    ([Q]): every float is one. *)

From Stdlib Require Import String.
From Stdlib Require Import List ZArith Lia Bool Arith Permutation Finite.
From Stdlib Require Import QArith Reals Lra.
From Stdlib Require Lqa DecimalString.
Import ListNotations.

Local Open Scope Z_scope.

(** ** Python fragments *)

Module Py.

(** The two built-in exceptions the solver can run into. *)
Inductive exc : Type := IndexError | ValueError.

Inductive result (A : Type) : Type :=
| Ok (a : A)
| Raise (e : exc).
Arguments Ok {A} a.
Arguments Raise {A} e.

Definition bind {A B} (r : result A) (k : A -> result B) : result B :=
  match r with
  | Ok a => k a
  | Raise e => Raise e
  end.

Definition is_ok {A} (r : result A) : bool :=
  match r with Ok _ => true | Raise _ => false end.

(** [len(l)] *)
Definition len {A} (l : list A) : Z := Z.of_nat (length l).

(** [l[i]]: indices in [-len(l), len(l)) are accepted, negative ones
    count from the end; anything else is an [IndexError]. *)
Definition getitem {A} (l : list A) (i : Z) : result A :=
  let j := if i <? 0 then i + len l else i in
  if (j <? 0) || (len l <=? j) then Raise IndexError
  else match nth_error l (Z.to_nat j) with
       | Some x => Ok x
       | None => Raise IndexError
       end.

(** Replacement of the element at a position of the list. *)
Fixpoint update {A} (l : list A) (n : nat) (x : A) : list A :=
  match l, n with
  | [], _ => []
  | _ :: t, O => x :: t
  | h :: t, S m => h :: update t m x
  end.

(** [l[i] = x] *)
Definition setitem {A} (l : list A) (i : Z) (x : A) : result (list A) :=
  let j := if i <? 0 then i + len l else i in
  if (j <? 0) || (len l <=? j) then Raise IndexError
  else Ok (update l (Z.to_nat j) x).

(** Number of elements of [range(lo, hi, step)], as CPython computes it. *)
Definition range_len (lo hi step : Z) : Z :=
  if (0 <? step) && (lo <? hi) then 1 + (hi - 1 - lo) / step
  else if (step <? 0) && (hi <? lo) then 1 + (lo - 1 - hi) / (0 - step)
  else 0.

(** [range(start, stop, step)]; a zero step is a [ValueError]. *)
Definition range3 (start stop step : Z) : result (list Z) :=
  if step =? 0 then Raise ValueError
  else Ok (map (fun k => start + Z.of_nat k * step)
               (seq 0 (Z.to_nat (range_len start stop step)))).

(** [range(n)] *)
Definition range (n : Z) : list Z :=
  map Z.of_nat (seq 0 (Z.to_nat n)).

(** A [for] loop over a list with an accumulated state; the first
    exception leaves the loop. *)
Fixpoint for_each {A S} (xs : list A) (body : S -> A -> result S) (s : S)
  : result S :=
  match xs with
  | [] => Ok s
  | x :: xs' => bind (body s x) (for_each xs' body)
  end.

(** A list comprehension [[f x for x in xs]]. *)
Fixpoint comprehension {A B} (f : A -> result B) (xs : list A)
  : result (list B) :=
  match xs with
  | [] => Ok []
  | x :: xs' =>
      bind (f x) (fun y =>
      bind (comprehension f xs') (fun ys => Ok (y :: ys)))
  end.

End Py.

Import Py.

Declare Scope py_scope.
Delimit Scope py_scope with py.
Notation "x <- c ;; k" := (Py.bind c (fun x => k))
  (at level 61, c at next level, right associativity) : py_scope.
Local Open Scope py_scope.

(** ** The instance held by a [VRPSolver] object

    [P] is the type of points: the decoder only moves points around, the
    evaluator needs them to be pairs of reals. *)

Record VRPSolver (P : Type) : Type := mkSolver {
  locations : list P;
  depot : P;
  num_vehicles : Z
}.
Arguments mkSolver {P}.
Arguments locations {P}.
Arguments depot {P}.
Arguments num_vehicles {P}.

Definition num_locations {P} (self : VRPSolver P) : Z := len (locations self).

(** ** Route decoder *)

Section Decoder.

Context {P : Type} (self : VRPSolver P).

(** [[self.depot] + [self.locations[individual[j]]
       for j in range(i, len(individual), self.num_vehicles)] + [self.depot]] *)
Definition vehicle_route (individual : list Z) (i : Z) : result (list P) :=
  js <- range3 i (len individual) (num_vehicles self) ;;
  stops <- comprehension
             (fun j => v <- getitem individual j ;; getitem (locations self) v)
             js ;;
  Ok ([depot self] ++ stops ++ [depot self]).

(** [VRPSolver.get_vehicle_routes] *)
Definition get_vehicle_routes (individual : list Z) : result (list (list P)) :=
  for_each (range (num_vehicles self))
    (fun routes i =>
       route <- vehicle_route individual i ;;
       Ok (routes ++ [route]))
    [].

(** The decoder as the specification words it: route [i] visits the
    locations found at the positions [j] of the permutation with
    [j mod num_vehicles = i], in the order of the permutation. *)
Definition slot_positions (n : nat) (i : Z) : list nat :=
  filter (fun j => Z.of_nat j mod num_vehicles self =? i) (seq 0 n).

Definition location_at (individual : list Z) (j : nat) : P :=
  nth (Z.to_nat (nth j individual 0)) (locations self) (depot self).

Definition route_by_modulo (individual : list Z) (i : Z) : list P :=
  [depot self]
    ++ map (location_at individual) (slot_positions (length individual) i)
    ++ [depot self].

(** Every entry of the individual is an index into [locations]. *)
Definition indices_in_range (individual : list Z) : Prop :=
  Forall (fun v => 0 <= v < num_locations self) individual.

End Decoder.

(** ** Floats, numpy reductions and the fitness evaluator *)

(** A Python float: a real number, or [nan] ([None]). *)
Definition float : Type := option R.

Definition Rltb (x y : R) : bool := if Rlt_dec x y then true else false.
Definition Rleb (x y : R) : bool := if Rle_dec x y then true else false.
Definition Reqb (x y : R) : bool := if Req_dec_T x y then true else false.

(** Comparisons of floats: every comparison with [nan] is false. *)
Definition float_eq (a b : float) : bool :=
  match a, b with Some x, Some y => Reqb x y | _, _ => false end.
Definition float_lt (a b : float) : bool :=
  match a, b with Some x, Some y => Rltb x y | _, _ => false end.
Definition float_le (a b : float) : bool :=
  match a, b with Some x, Some y => Rleb x y | _, _ => false end.

Definition float_add (a b : float) : float :=
  match a, b with Some x, Some y => Some (x + y)%R | _, _ => None end.
Definition float_min (a b : float) : float :=
  match a, b with Some x, Some y => Some (Rmin x y) | _, _ => None end.
Definition float_max (a b : float) : float :=
  match a, b with Some x, Some y => Some (Rmax x y) | _, _ => None end.

(** A location, as numpy sees the [(x, y)] tuple. *)
Definition Point : Type := (R * R)%type.

(** [np.array(b) - np.array(a)] *)
Definition np_sub (b a : Point) : Point :=
  (fst b - fst a, snd b - snd a)%R.

(** [np.linalg.norm(v)]: the 2-norm of a vector, [sqrt(v . v)]. *)
Definition np_linalg_norm (v : Point) : R :=
  sqrt (fst v * fst v + snd v * snd v).

(** [sum(xs)]: Python adds from the left, starting at [0]. *)
Definition py_sum (xs : list R) : R := fold_left Rplus xs 0%R.

(** [np.std(xs)] with the default [ddof=0]: the mean of the squared
    deviations from the mean, under a square root; [nan] on no data. *)
Definition np_std (xs : list R) : float :=
  match xs with
  | [] => None
  | _ =>
      let n := INR (length xs) in
      let arrmean := (py_sum xs / n)%R in
      let x := map (fun v => (v - arrmean) * (v - arrmean))%R xs in
      Some (sqrt (py_sum x / n))
  end.

Section Evaluator.

Variable self : VRPSolver Point.

(** [sum(np.linalg.norm(np.array(vehicle_route[k+1]) - np.array(vehicle_route[k]))
        for k in range(len(vehicle_route)-1))] *)
Definition route_distance (vehicle_route : list Point) : result R :=
  legs <- comprehension
            (fun k =>
               b <- getitem vehicle_route (k + 1) ;;
               a <- getitem vehicle_route k ;;
               Ok (np_linalg_norm (np_sub b a)))
            (range (len vehicle_route - 1)) ;;
  Ok (py_sum legs).

(** [VRPSolver._evaluate_vrp]: the loop state is
    [(total_distance, distances)]. *)
Definition _evaluate_vrp (individual : list Z) : result (float * float) :=
  st <- for_each (range (num_vehicles self))
          (fun st i =>
             route <- vehicle_route self individual i ;;
             vehicle_distance <- route_distance route ;;
             Ok ((fst st + vehicle_distance)%R, snd st ++ [vehicle_distance]))
          (0%R, []) ;;
  Ok (Some (fst st), np_std (snd st)).

(** The quantities of the contract, computed on decoded routes: the
    length of a route is the sum of the distances between consecutive
    points. *)
Definition euclidean (a b : Point) : R :=
  sqrt ((fst b - fst a) * (fst b - fst a) + (snd b - snd a) * (snd b - snd a)).

Fixpoint path_length (route : list Point) : R :=
  match route with
  | a :: (b :: _) as rest => (euclidean a b + path_length rest)%R
  | _ => 0%R
  end.

(** The legs of a route, one per pair of consecutive points. *)
Fixpoint legs (route : list Point) : list R :=
match route with
| a :: (b :: _) as rest => euclidean a b :: legs rest
| _ => []
end.

Fixpoint Rsum (xs : list R) : R :=
  match xs with
  | [] => 0%R
  | x :: r => (x + Rsum r)%R
  end.

(** Population standard deviation: the squared deviations are divided by
    the number of values. *)
Definition population_std (xs : list R) : R :=
  let n := INR (length xs) in
  let mu := (Rsum xs / n)%R in
  sqrt (Rsum (map (fun v => (v - mu) ^ 2)%R xs) / n).

End Evaluator.

(** ** The random source

    Python's [random] module keeps one hidden generator state.  Its state
    is threaded explicitly here.  Nothing is assumed of the generator but
    the contract of [_randbelow]: [_randbelow(n)] lies in [[0, n)]. *)

Record RandomSource : Type := mkRandomSource {
  rng : Type;
  (** the state [random.seed(a)] installs *)
  seed_state : Z -> rng;
  (** [random._randbelow(n)], for [n > 0] *)
  randbelow : Z -> rng -> Z * rng;
  (** [random.random()] *)
  random_float : rng -> Q * rng;
  randbelow_range : forall n g, 0 < n -> 0 <= fst (randbelow n g) < n
}.

(** Computations that draw random numbers and may raise: the generator
    state survives an exception, as the module state does in Python. *)
Definition Rand (RS : RandomSource) (A : Type) : Type :=
  rng RS -> result A * rng RS.

Section RandomModule.

Context {RS : RandomSource}.

Definition ret {A} (a : A) : Rand RS A := fun g => (Ok a, g).

Definition raise {A} (e : exc) : Rand RS A := fun g => (Raise e, g).

Definition rbind {A B} (c : Rand RS A) (k : A -> Rand RS B) : Rand RS B :=
  fun g =>
    match c g with
    | (Ok a, g') => k a g'
    | (Raise e, g') => (Raise e, g')
    end.

(** A computation without random draws. *)
Definition lift {A} (r : result A) : Rand RS A := fun g => (r, g).

(** [random.seed(a)] *)
Definition random_seed (a : Z) : Rand RS unit :=
  fun _ => (Ok tt, seed_state RS a).

(** [random.random()] *)
Definition random_random : Rand RS Q :=
  fun g => let (x, g') := random_float RS g in (Ok x, g').

Definition py_randbelow (n : Z) : Rand RS Z :=
  fun g => let (x, g') := randbelow RS n g in (Ok x, g').

(** [random.randint(a, b)], that is [randrange(a, b+1)]: an empty range
    is a [ValueError]. *)
Definition random_randint (a b : Z) : Rand RS Z :=
  let width := b + 1 - a in
  if 0 <? width
  then rbind (py_randbelow width) (fun r => ret (a + r))
  else raise ValueError.

(** [random.choice(seq)] *)
Definition random_choice {A} (seq : list A) : Rand RS A :=
  if len seq =? 0 then raise IndexError
  else rbind (py_randbelow (len seq)) (fun i => lift (getitem seq i)).

(** A [for] loop whose body draws random numbers. *)
Fixpoint for_each_rand {A S} (xs : list A) (body : S -> A -> Rand RS S)
  (s : S) : Rand RS S :=
  match xs with
  | [] => ret s
  | x :: xs' => rbind (body s x) (for_each_rand xs' body)
  end.

(** [[f() for _ in xs]] with a body that draws random numbers. *)
Fixpoint comprehension_rand {A B} (f : A -> Rand RS B) (xs : list A)
  : Rand RS (list B) :=
  match xs with
  | [] => ret []
  | x :: xs' =>
      rbind (f x) (fun y =>
      rbind (comprehension_rand f xs') (fun ys => ret (y :: ys)))
  end.

End RandomModule.

Declare Scope rand_scope.
Delimit Scope rand_scope with rand.
Notation "x <~ c ;; k" := (rbind c (fun x => k))
  (at level 61, c at next level, right associativity) : rand_scope.
Local Open Scope rand_scope.

Section RandomSample.

Context {RS : RandomSource}.

(** The selection loop of [random.sample(population, k)] on a pool:
    [[for i in range(k): j = randbelow(n-i); result[i] = pool[j];
      pool[j] = pool[n-i-1]]].  [todo] lists the remaining values of [i]. *)
Fixpoint sample_loop {A} (n : Z) (todo : list Z) (pool : list A)
  : Rand RS (list A) :=
  match todo with
  | [] => ret []
  | i :: todo' =>
      j <~ py_randbelow (n - i) ;;
      x <~ lift (getitem pool j) ;;
      y <~ lift (getitem pool (n - i - 1)) ;;
      pool' <~ lift (setitem pool j y) ;;
      rest <~ sample_loop n todo' pool' ;;
      ret (x :: rest)
  end.

(** [random.sample(population, len(population))].  With [k = n] the
    test [0 <= k <= n] passes and CPython takes the pool branch
    ([n <= setsize], as [setsize >= 21 + 3k] when [k > 5]). *)
Definition random_sample_all {A} (population : list A) : Rand RS (list A) :=
  let n := len population in
  sample_loop n (range n) population.

End RandomSample.

(** ** Fitness values and individuals (the classes made by [creator.create]) *)

(** Comparison of two tuples of floats, as Python compares tuples: the
    first position where the items are not equal decides; without one, the
    lengths decide. *)
Fixpoint tuple_le (v w : list float) : bool :=
  match v, w with
  | [], _ => true
  | _ :: _, [] => false
  | x :: v', y :: w' => if float_eq x y then tuple_le v' w' else float_le x y
  end.

Fixpoint tuple_lt (v w : list float) : bool :=
  match v, w with
  | [], [] => false
  | [], _ :: _ => true
  | _ :: _, [] => false
  | x :: v', y :: w' => if float_eq x y then tuple_lt v' w' else float_lt x y
  end.

(** [weights=(-1.0, -1.0)] of [FitnessMin]. *)
Definition weights : list R := [(-1)%R; (-1)%R].

(** An [Individual] is a list with a [fitness] attribute; the fitness
    stores the weighted values [wvalues], the empty tuple when invalid. *)
Record Individual : Type := mkIndividual {
  genes : list Z;
  wvalues : list float
}.

(** [Fitness.valid] *)
Definition fitness_valid (ind : Individual) : bool :=
  negb (len (wvalues ind) =? 0).

Fixpoint map2 {A B C} (f : A -> B -> C) (xs : list A) (ys : list B) : list C :=
  match xs, ys with
  | x :: xs', y :: ys' => f x y :: map2 f xs' ys'
  | _, _ => []
  end.

Definition float_mul (a : float) (w : R) : float := option_map (fun x => x * w)%R a.
Definition float_truediv (a : float) (w : R) : float := option_map (fun x => x / w)%R a.

(** [ind.fitness.values = fit]: [wvalues = tuple(map(mul, values, weights))] *)
Definition set_fitness (ind : Individual) (fit : float * float) : Individual :=
  mkIndividual (genes ind) (map2 float_mul [fst fit; snd fit] weights).

(** [del ind.fitness.values] *)
Definition del_fitness (ind : Individual) : Individual :=
  mkIndividual (genes ind) [].

(** [ind.fitness.values]: [tuple(map(truediv, wvalues, weights))] *)
Definition fitness_values (ind : Individual) : list float :=
  map2 float_truediv (wvalues ind) weights.

(** [Fitness.__gt__]: [not self.__le__(other)], on the weighted values. *)
Definition fitness_gt (a b : Individual) : bool :=
  negb (tuple_le (wvalues a) (wvalues b)).

(** [Fitness.__lt__] *)
Definition fitness_lt (a b : list float) : bool := tuple_lt a b.

(** [max(aspirants, key=attrgetter("fitness"))]: the first item that no
    later item exceeds; [ValueError] on an empty sequence. *)
Definition max_by_fitness (aspirants : list Individual) : result Individual :=
  match aspirants with
  | [] => Raise ValueError
  | first :: others =>
      Ok (fold_left (fun best item => if fitness_gt item best then item else best)
                    others first)
  end.

(** ** The hall of fame ([tools.HallOfFame]) *)

Record HallOfFame : Type := mkHallOfFame {
  maxsize : Z;
  (** the fitnesses of the members, worst first *)
  keys : list (list float);
  (** the members, best first *)
  items : list Individual
}.

(** [bisect_right(a, x)] between [lo] and [hi]; the recursion is on the
    width of the interval. *)
Fixpoint bisect_loop (fuel : nat) (a : list (list float)) (x : list float)
  (lo hi : Z) : result Z :=
  match fuel with
  | O => Ok lo
  | S fuel' =>
      if lo <? hi then
        let mid := (lo + hi) / 2 in
        amid <- getitem a mid ;;
        if fitness_lt x amid then bisect_loop fuel' a x lo mid
        else bisect_loop fuel' a x (mid + 1) hi
      else Ok lo
  end.

Definition bisect_right (a : list (list float)) (x : list float) : result Z :=
  bisect_loop (length a) a x 0 (len a).

(** [list.insert(i, x)]: the position is clipped to the list. *)
Definition list_insert {A} (l : list A) (i : Z) (x : A) : list A :=
  let j := if i <? 0 then Z.max 0 (i + len l) else Z.min i (len l) in
  firstn (Z.to_nat j) l ++ x :: skipn (Z.to_nat j) l.

(** [del l[i]] *)
Definition list_del {A} (l : list A) (i : Z) : result (list A) :=
  let j := if i <? 0 then i + len l else i in
  if (j <? 0) || (len l <=? j) then Raise IndexError
  else Ok (firstn (Z.to_nat j) l ++ skipn (S (Z.to_nat j)) l).

(** [HallOfFame.insert]: the member is a deep copy, placed by its fitness. *)
Definition hof_insert (hof : HallOfFame) (item : Individual) : result HallOfFame :=
  i <- bisect_right (keys hof) (wvalues item) ;;
  Ok (mkHallOfFame (maxsize hof)
        (list_insert (keys hof) i (wvalues item))
        (list_insert (items hof) (len (items hof) - i) item)).

(** [HallOfFame.remove(index)] *)
Definition hof_remove (hof : HallOfFame) (index : Z) : result HallOfFame :=
  let n := len (items hof) in
  (* [index % len(self)] is never computed on an empty hall: [update], the
     only caller, has read [self[-1]] before. *)
  keys' <- list_del (keys hof) (n - (index mod n + 1)) ;;
  items' <- list_del (items hof) index ;;
  Ok (mkHallOfFame (maxsize hof) keys' items').

(** [similar]: [operator.eq] on two individuals compares the lists. *)
Definition similar (a b : Individual) : bool :=
  if list_eq_dec Z.eq_dec (genes a) (genes b) then true else false.

(** One iteration of the loop of [HallOfFame.update]. *)
Definition hof_update_one (population : list Individual) (hof : HallOfFame)
  (ind : Individual) : result HallOfFame :=
  if (len (items hof) =? 0) && negb (maxsize hof =? 0) then
    first <- getitem population 0 ;;
    hof_insert hof first
  else
    worst <- getitem (items hof) (-1) ;;
    if fitness_gt ind worst || (len (items hof) <? maxsize hof) then
      if existsb (similar ind) (items hof) then Ok hof
      else
        hof' <- (if maxsize hof <=? len (items hof) then hof_remove hof (-1)
                 else Ok hof) ;;
        hof_insert hof' ind
    else Ok hof.

(** [HallOfFame.update(population)] *)
Definition hof_update (hof : HallOfFame) (population : list Individual)
  : result HallOfFame :=
  for_each population (hof_update_one population) hof.

(** ** Genetic operators ([deap.tools]) *)

Section Operators.

Context {RS : RandomSource}.

(** The loop of [cxPartialyMatched] that records, for each individual,
    the position of every value: [p1[ind1[i]] = i; p2[ind2[i]] = i]. *)
Definition pmx_positions (ind1 ind2 : list Z) (size : Z)
  : result (list Z * list Z) :=
  for_each (range size)
    (fun p i =>
       v1 <- getitem ind1 i ;;
       p1 <- setitem (fst p) v1 i ;;
       v2 <- getitem ind2 i ;;
       p2 <- setitem (snd p) v2 i ;;
       Ok (p1, p2))
    (repeat 0 (Z.to_nat size), repeat 0 (Z.to_nat size)).

(** The state of the matching loop: [ind1], [ind2], [p1], [p2]. *)
Record pmx_state : Type := mkPmx {
  pmx_ind1 : list Z;
  pmx_ind2 : list Z;
  pmx_p1 : list Z;
  pmx_p2 : list Z
}.

(** One pass of the matching loop at position [i]. *)
Definition pmx_step (s : pmx_state) (i : Z) : result pmx_state :=
  temp1 <- getitem (pmx_ind1 s) i ;;
  temp2 <- getitem (pmx_ind2 s) i ;;
  (* ind1[i], ind1[p1[temp2]] = temp2, temp1 *)
  ind1 <- setitem (pmx_ind1 s) i temp2 ;;
  q1 <- getitem (pmx_p1 s) temp2 ;;
  ind1 <- setitem ind1 q1 temp1 ;;
  (* ind2[i], ind2[p2[temp1]] = temp1, temp2 *)
  ind2 <- setitem (pmx_ind2 s) i temp1 ;;
  q2 <- getitem (pmx_p2 s) temp1 ;;
  ind2 <- setitem ind2 q2 temp2 ;;
  (* p1[temp1], p1[temp2] = p1[temp2], p1[temp1] *)
  a1 <- getitem (pmx_p1 s) temp2 ;;
  b1 <- getitem (pmx_p1 s) temp1 ;;
  p1 <- setitem (pmx_p1 s) temp1 a1 ;;
  p1 <- setitem p1 temp2 b1 ;;
  (* p2[temp1], p2[temp2] = p2[temp2], p2[temp1] *)
  a2 <- getitem (pmx_p2 s) temp2 ;;
  b2 <- getitem (pmx_p2 s) temp1 ;;
  p2 <- setitem (pmx_p2 s) temp1 a2 ;;
  p2 <- setitem p2 temp2 b2 ;;
  Ok (mkPmx ind1 ind2 p1 p2).

(** [tools.cxPartialyMatched(ind1, ind2)] on the two lists. *)
Definition cxPartialyMatched (ind1 ind2 : list Z) : Rand RS (list Z * list Z) :=
  let size := Z.min (len ind1) (len ind2) in
  p <~ lift (pmx_positions ind1 ind2 size) ;;
  cxpoint1 <~ random_randint 0 size ;;
  cxpoint2 <~ random_randint 0 (size - 1) ;;
  let cuts := if cxpoint1 <=? cxpoint2 then (cxpoint1, cxpoint2 + 1)
              else (cxpoint2, cxpoint1) in
  js <~ lift (range3 (fst cuts) (snd cuts) 1) ;;
  s <~ lift (for_each js pmx_step (mkPmx ind1 ind2 (fst p) (snd p))) ;;
  ret (pmx_ind1 s, pmx_ind2 s).

(** One pass of the loop of [mutShuffleIndexes] at position [i]. *)
Definition shuffle_step (indpb : Q) (size : Z) (individual : list Z) (i : Z)
  : Rand RS (list Z) :=
  u <~ random_random ;;
  if Qlt_le_dec u indpb then
    r <~ random_randint 0 (size - 2) ;;
    let swap_indx := if i <=? r then r + 1 else r in
    (* individual[i], individual[swap_indx] = individual[swap_indx], individual[i] *)
    a <~ lift (getitem individual swap_indx) ;;
    b <~ lift (getitem individual i) ;;
    l <~ lift (setitem individual i a) ;;
    lift (setitem l swap_indx b)
  else ret individual.

(** [tools.mutShuffleIndexes(individual, indpb)] *)
Definition mutShuffleIndexes (indpb : Q) (individual : list Z) : Rand RS (list Z) :=
  let size := len individual in
  for_each_rand (range size) (shuffle_step indpb size) individual.

(** [tools.selRandom(individuals, k)] *)
Definition selRandom (individuals : list Individual) (k : Z)
  : Rand RS (list Individual) :=
  comprehension_rand (fun _ => random_choice individuals) (range k).

(** [tools.selTournament(individuals, k, tournsize)] *)
Definition selTournament (tournsize : Z) (individuals : list Individual) (k : Z)
  : Rand RS (list Individual) :=
  for_each_rand (range k)
    (fun chosen _ =>
       aspirants <~ selRandom individuals tournsize ;;
       winner <~ lift (max_by_fitness aspirants) ;;
       ret (chosen ++ [winner]))
    [].

End Operators.

(** ** Statistics and logbook ([tools.Statistics], [tools.Logbook]) *)

(** [np.mean(values)] over all the entries of a tuple of tuples; [nan] on
    no data. *)
Definition np_mean (values : list (list float)) : result float :=
  let flat := concat values in
  match flat with
  | [] => Ok None
  | _ => Ok (float_truediv (fold_left float_add flat (Some 0%R)) (INR (length flat)))
  end.

(** [np.min(values)]: a reduction without identity, [ValueError] on no data. *)
Definition np_min (values : list (list float)) : result float :=
  match concat values with
  | [] => Raise ValueError
  | x :: r => Ok (fold_left float_min r x)
  end.

Definition np_max (values : list (list float)) : result float :=
  match concat values with
  | [] => Raise ValueError
  | x :: r => Ok (fold_left float_max r x)
  end.

(** A [Statistics] object: the registered functions, in registration
    order; its key is [lambda ind: ind.fitness.values]. *)
Record Statistics : Type := mkStatistics {
  functions : list (string * (list (list float) -> result float))
}.

(** [Statistics.compile(data)] *)
Definition stats_compile (stats : Statistics) (data : list Individual)
  : result (list (string * float)) :=
  let values := map fitness_values data in
  comprehension (fun f => v <- snd f values ;; Ok (fst f, v)) (functions stats).

(** One entry of the logbook: [logbook.record(gen=, nevals=, **record)]. *)
Record LogRecord : Type := mkLogRecord {
  gen : Z;
  nevals : Z;
  fields : list (string * float)
}.

(** ** The generational loop ([deap.algorithms]) *)

Section Algorithms.

Context {RS : RandomSource}.

(** The functions a toolbox provides to the algorithm. *)
Record Toolbox : Type := mkToolbox {
  evaluate : list Z -> result (float * float);
  mate : list Z -> list Z -> Rand RS (list Z * list Z);
  mutate : list Z -> Rand RS (list Z);
  select : list Individual -> Z -> Rand RS (list Individual)
}.

(** The crossover loop of [varAnd], over [offspring[i-1], offspring[i]]
    for [i] in [range(1, len(offspring), 2)]; a mated pair loses its
    fitness values. *)
Fixpoint mate_pairs (toolbox : Toolbox) (cxpb : Q) (offspring : list Individual)
  : Rand RS (list Individual) :=
  match offspring with
  | a :: b :: rest =>
      u <~ random_random ;;
      pair <~ (if Qlt_le_dec u cxpb then
                 c <~ mate toolbox (genes a) (genes b) ;;
                 ret (mkIndividual (fst c) [], mkIndividual (snd c) [])
               else ret (a, b)) ;;
      rest' <~ mate_pairs toolbox cxpb rest ;;
      ret (fst pair :: snd pair :: rest')
  | _ => ret offspring
  end.

(** The mutation loop of [varAnd]. *)
Definition mutate_each (toolbox : Toolbox) (mutpb : Q) (offspring : list Individual)
  : Rand RS (list Individual) :=
  comprehension_rand
    (fun ind =>
       u <~ random_random ;;
       if Qlt_le_dec u mutpb then
         g <~ mutate toolbox (genes ind) ;;
         ret (mkIndividual g [])
       else ret ind)
    offspring.

(** [algorithms.varAnd(population, toolbox, cxpb, mutpb)]; the clones
    are the values themselves. *)
Definition varAnd (population : list Individual) (toolbox : Toolbox)
  (cxpb mutpb : Q) : Rand RS (list Individual) :=
  offspring <~ mate_pairs toolbox cxpb population ;;
  mutate_each toolbox mutpb offspring.

(** Evaluation of the individuals with an invalid fitness; the others
    keep theirs. *)
Definition evaluate_invalid (toolbox : Toolbox) (population : list Individual)
  : result (list Individual) :=
  comprehension
    (fun ind =>
       if fitness_valid ind then Ok ind
       else fit <- evaluate toolbox (genes ind) ;; Ok (set_fitness ind fit))
    population.

Definition count_invalid (population : list Individual) : Z :=
  len (filter (fun ind => negb (fitness_valid ind)) population).

(** What [eaSimple] holds between two generations: the population and
    the hall of fame (both updated in place) and the logbook. *)
Record ea_state : Type := mkEa {
  ea_population : list Individual;
  ea_halloffame : HallOfFame;
  ea_logbook : list LogRecord
}.

(** Evaluate, update the hall of fame, replace the population and log:
    the part shared by generation 0 and the body of the loop. *)
Definition ea_record (toolbox : Toolbox) (stats : Statistics) (s : ea_state)
  (g : Z) (offspring : list Individual) : result ea_state :=
  evaluated <- evaluate_invalid toolbox offspring ;;
  hof <- hof_update (ea_halloffame s) evaluated ;;
  record <- stats_compile stats evaluated ;;
  Ok (mkEa evaluated hof
        (ea_logbook s ++ [mkLogRecord g (count_invalid offspring) record])).

(** The body of the loop [for gen in range(1, ngen + 1)]. *)
Definition ea_generation (toolbox : Toolbox) (cxpb mutpb : Q) (stats : Statistics)
  (s : ea_state) (g : Z) : Rand RS ea_state :=
  offspring <~ select toolbox (ea_population s) (len (ea_population s)) ;;
  offspring <~ varAnd offspring toolbox cxpb mutpb ;;
  lift (ea_record toolbox stats s g offspring).

(** [algorithms.eaSimple(population, toolbox, cxpb, mutpb, ngen, stats,
    halloffame)] *)
Definition eaSimple (population : list Individual) (toolbox : Toolbox)
  (cxpb mutpb : Q) (ngen : Z) (stats : Statistics) (halloffame : HallOfFame)
  : Rand RS ea_state :=
  s0 <~ lift (ea_record toolbox stats (mkEa population halloffame []) 0 population) ;;
  gens <~ lift (range3 1 (ngen + 1) 1) ;;
  for_each_rand gens (ea_generation toolbox cxpb mutpb stats) s0.

End Algorithms.

Arguments Toolbox RS : clear implicits.

(** ** The solver facade *)

(** The keyword arguments of [VRPSolver.solve] ([verbose] only prints). *)
Record SolveArgs : Type := mkArgs {
  pop_size : Z;
  cxpb : Q;
  mutpb : Q;
  ngen : Z;
  tournsize : Z;
  seed : Z
}.

(** The float [0.05], exactly. *)
Definition indpb_default : Q := 3602879701896397 # 72057594037927936.

Section Solver.

Context {RS : RandomSource}.
Variable self : VRPSolver Point.

(** [toolbox.indices]: [random.sample(range(num_locations), num_locations)] *)
Definition indices : Rand RS (list Z) :=
  random_sample_all (range (num_locations self)).

(** [toolbox.individual]: [initIterate(creator.Individual, toolbox.indices)] *)
Definition individual : Rand RS Individual :=
  g <~ indices ;; ret (mkIndividual g []).

(** [toolbox.population(n)]: [initRepeat(list, toolbox.individual, n)] *)
Definition population (n : Z) : Rand RS (list Individual) :=
  comprehension_rand (fun _ => individual) (range n).

(** The toolbox of [_setup_ga], with [select] as [solve] registers it. *)
Definition toolbox (tournsize : Z) : Toolbox RS :=
  mkToolbox (_evaluate_vrp self)
            cxPartialyMatched
            (mutShuffleIndexes indpb_default)
            (selTournament tournsize).

(** The [tools.Statistics] object of [solve]. *)
Definition solve_stats : Statistics :=
  mkStatistics [("avg"%string, np_mean); ("min"%string, np_min);
                ("max"%string, np_max)].

(** The tuple [solve] returns. *)
Record SolveResult : Type := mkResult {
  best_individual : Individual;
  final_population : list Individual;
  stats : Statistics;
  hall_of_fame : HallOfFame
}.

(** [VRPSolver.solve]: the value [eaSimple] returns is dropped; [pop] and
    [hof] are read after the call, as the loop left them. *)
Definition solve (args : SolveArgs) : Rand RS SolveResult :=
  _ <~ random_seed (seed args) ;;
  let tb := toolbox (tournsize args) in
  pop <~ population (pop_size args) ;;
  let hof := mkHallOfFame 1 [] [] in
  let stats := solve_stats in
  s <~ eaSimple pop tb (cxpb args) (mutpb args) (ngen args) stats hof ;;
  best <~ lift (getitem (items (ea_halloffame s)) 0) ;;
  ret (mkResult best (ea_population s) stats (ea_halloffame s)).

End Solver.

(** ** The order of the specification

    The lexicographic order on pairs [(total_distance, balance_penalty)]:
    smaller is better. *)

Definition lex_lt (a b : R * R) : Prop :=
  (fst a < fst b)%R \/ (fst a = fst b /\ (snd a < snd b)%R).

(** The individual was evaluated, and its fitness values are the pair [f]
    of reals. *)
Definition has_fitness (ind : Individual) (f : R * R) : Prop :=
  wvalues ind = wvalues (set_fitness ind (Some (fst f), Some (snd f))).

(** The individual carries the fitness values of an evaluation. *)
Definition evaluated (ind : Individual) : Prop :=
  exists f, has_fitness ind f.

(** A hall of fame of size 1 holding the member [h]. *)
Definition hall_of (h : Individual) : HallOfFame :=
  mkHallOfFame 1 [wvalues h] [h].

(** The permutation property: the entries are [0, ..., n-1], each once. *)
Definition is_permutation (n : Z) (l : list Z) : Prop :=
  Permutation l (range n).

(** [l[v]] for an index known to be in range. *)
Definition item (l : list Z) (v : Z) : Z := nth (Z.to_nat v) l 0.

(** [p] records where each value sits in [ind]: [ind[p[v]] = v]. *)
Definition positions_of (n : Z) (ind p : list Z) : Prop :=
  len p = n /\
  forall v, 0 <= v < n -> 0 <= item p v < n /\ item ind (item p v) = v.

(** What the matching loop of the crossover maintains. *)
Definition pmx_invariant (n : Z) (s : pmx_state) : Prop :=
  is_permutation n (pmx_ind1 s) /\ is_permutation n (pmx_ind2 s) /\
  positions_of n (pmx_ind1 s) (pmx_p1 s) /\
  positions_of n (pmx_ind2 s) (pmx_p2 s).

(** The individual is a valid candidate for an instance of [n] locations. *)
Definition valid_individual (n : Z) (ind : Individual) : Prop :=
  is_permutation n (genes ind).

(** A property of the list an individual carries. *)
Definition on_genes (V : list Z -> Prop) (ind : Individual) : Prop :=
  V (genes ind).

(** The property holds of the population and of the hall of fame. *)
Definition genes_invariant (V : list Z -> Prop) (s : ea_state) : Prop :=
  Forall (on_genes V) (ea_population s) /\
  Forall (on_genes V) (items (ea_halloffame s)).

(** A logbook with one record per generation of [gens], each holding the
    statistics registered in [st]. *)
Definition well_logged (st : Statistics) (gens : list Z)
  (logbook : list LogRecord) : Prop :=
  map gen logbook = gens /\
  Forall (fun r => map fst (fields r) = map fst (functions st)) logbook.

(** The fitness an individual carries is the one its list evaluates to,
    a pair of reals. *)
Definition consistent (ev : list Z -> result (float * float))
  (ind : Individual) : Prop :=
  exists f, ev (genes ind) = Ok (Some (fst f), Some (snd f)) /\
            has_fitness ind f.

(** An offspring before evaluation: its fitness was deleted, or it is the
    unchanged copy of an evaluated individual. *)
Definition fresh_or_consistent (ev : list Z -> result (float * float))
  (ind : Individual) : Prop :=
  wvalues ind = [] \/ consistent ev ind.

(** Between two generations the hall of fame holds one member, and no
    individual of the population beats it. *)
Definition hall_invariant (ev : list Z -> result (float * float))
  (s : ea_state) (h : Individual) : Prop :=
  ea_halloffame s = hall_of h /\ consistent ev h /\
  Forall (consistent ev) (ea_population s) /\
  forall x, In x (ea_population s) -> fitness_gt x h = false.

(** The same arguments with another number of generations. *)
Definition with_ngen (args : SolveArgs) (k : Z) : SolveArgs :=
  mkArgs (pop_size args) (cxpb args) (mutpb args) k (tournsize args) (seed args).

(** ** A worked instance

    Three customers on a line east of the depot, two vehicles. *)

Definition line_instance : VRPSolver Point :=
  mkSolver [(1, 0); (2, 0); (3, 0)]%R (0, 0)%R 2.

(** One individual, one generation, every offspring mutated; the seed
    spells the draws of [digit_source]. *)
Definition line_args : SolveArgs :=
  mkArgs 1 (1 # 2) 1 1 1 999900000000000001.

(** ** A transparent random source for worked runs

    The seed spells out the draws: the state is a natural number read in
    base 100, least significant digit first.  A digit [d] answers
    [_randbelow(n)] with [d mod n] and [random()] with [d / 100]. *)

Definition digit_source : RandomSource :=
  mkRandomSource Z
    (fun a => Z.abs a)
    (fun n s => ((s mod 100) mod n, s / 100))
    (fun s => (Qmake (s mod 100) 100, s / 100))
    (fun n s H => Z.mod_pos_bound (s mod 100) n H).

(** * The rest of the program

    The decoder and the evaluator on inputs the run never produces, the
    instance generator of [locations.py], the tuners of [tuning.py] and
    the route figure of [plotting.py]. *)

(** ** Routes and indices *)

(** The stops of a route: what lies between its two depot entries. *)
Definition stops_of_route {P} (route : list P) : list P :=
  removelast (tl route).

(** The position Python reads for an index [v] of a list of [n] items. *)
Definition wrap_index (n v : Z) : Z := if v <? 0 then v + n else v.

(** ** Moving an instance *)

(** The point [p] moved by the vector [v]. *)
Definition translate (v p : Point) : Point :=
  (fst p + fst v, snd p + snd v)%R.

(** The instance with the depot and every location moved by [v]. *)
Definition translate_instance (v : Point) (self : VRPSolver Point)
  : VRPSolver Point :=
  mkSolver (map (translate v) (locations self)) (translate v (depot self))
           (num_vehicles self).

(** ** Individuals along a generation *)

(** An evaluated permutation: its fitness holds two weighted values. *)
Definition scored (n : Z) (ind : Individual) : Prop :=
  valid_individual n ind /\ length (wvalues ind) = 2%nat.

(** A permutation whose fitness was deleted or is still there. *)
Definition ready (n : Z) (ind : Individual) : Prop :=
  valid_individual n ind /\
  (wvalues ind = [] \/ length (wvalues ind) = 2%nat).

(** ** The instance generator ([locations.py]) *)

Section Locations.

Context {RS : RandomSource}.

(** One location: the abscissa is drawn before the ordinate. *)
Definition random_location (x_range y_range : Z * Z) : Rand RS (Z * Z) :=
  x <~ random_randint (fst x_range) (snd x_range) ;;
  y <~ random_randint (fst y_range) (snd y_range) ;;
  ret (x, y).

(** [generate_random_locations(num_locations, x_range, y_range, seed)];
    [seed=None] is [None] here, and leaves the generator as it is. *)
Definition generate_random_locations (num_locations : Z)
  (x_range y_range : Z * Z) (seed : option Z) : Rand RS (list (Z * Z)) :=
  _ <~ match seed with
       | Some a => random_seed a
       | None => ret tt
       end ;;
  comprehension_rand (fun _ : Z => random_location x_range y_range)
                     (range num_locations).

(** [create_depot(x, y)] *)
Definition create_depot (x y : Z) : Z * Z := (x, y).

End Locations.

(** The box of two coordinate ranges, bounds included. *)
Definition in_box (x_range y_range : Z * Z) (p : Z * Z) : Prop :=
  fst x_range <= fst p <= snd x_range /\ fst y_range <= snd p <= snd y_range.

(** ** The tuners ([tuning.py])

    The parameters are sampled from the module generator, which every
    call of [solve] reseeds.  The floats [cxpb] and [mutpb] are
    rationals, as in [solve]; [random.uniform] is computed exactly. *)

(** [best_distance]: [float("inf")] until a trial improves on it. *)
Inductive Bound : Type :=
| Inf
| Dist (d : float).

(** [distance < best_distance] *)
Definition below (distance : float) (best_distance : Bound) : bool :=
  match best_distance with
  | Inf => match distance with Some _ => true | None => false end
  | Dist b => float_lt distance b
  end.

(** [random.uniform(a, b)]: [a + (b - a) * random()] *)
Definition random_uniform {RS : RandomSource} (a b : Q) : Rand RS Q :=
  u <~ random_random ;;
  ret (a + (b - a) * u)%Q.

Module VRPTuner.

(** The tuned parameters: the keys of [best_params]. *)
Record Params : Type := mkParams {
  pop_size : Z;
  cxpb : Q;
  mutpb : Q;
  tournsize : Z
}.

(** [param_ranges]: a pair of bounds for each parameter. *)
Record ParamRanges : Type := mkRanges {
  pop_size_range : Z * Z;
  cxpb_range : Q * Q;
  mutpb_range : Q * Q;
  tournsize_range : Z * Z
}.

(** [param_grid]: the values to try for each parameter, the keys in the
    order [pop_size], [cxpb], [mutpb], [tournsize] in which
    [compare_tuning_methods] and [config.py] write them. *)
Record ParamGrid : Type := mkGrid {
  pop_size_values : list Z;
  cxpb_values : list Q;
  mutpb_values : list Q;
  tournsize_values : list Z
}.

(** An entry of [all_results]; [params] stands for its four keys
    [pop_size], [cxpb], [mutpb] and [tournsize]. *)
Record TrialResult : Type := mkTrial {
  trial : Z;
  params : Params;
  distance : float;
  individual : Individual
}.

(** [(best_params, best_individual, best_distance, all_results)];
    [None] is Python's. *)
Definition Outcome : Type :=
  (option Params * option Individual * Bound * list TrialResult)%type.

(** The default of [param_ranges]; the floats 0.9 and 0.05 exactly. *)
Definition default_ranges : ParamRanges :=
  mkRanges (200, 800)
           (1 # 2, 8106479329266893 # 9007199254740992)
           (indpb_default, 1 # 4)
           (2, 4).

(** The grid of [compare_tuning_methods]; the floats 0.6, 0.8, 0.1 and
    0.2 exactly. *)
Definition comparison_grid : ParamGrid :=
  mkGrid [200; 400; 600]
         [5404319552844595 # 9007199254740992;
          3602879701896397 # 4503599627370496]
         [3602879701896397 # 36028797018963968;
          3602879701896397 # 18014398509481984]
         [2; 3; 4].

(** [if param_ranges is None: param_ranges = {...}] *)
Definition ranges_or_default (param_ranges : option ParamRanges)
  : ParamRanges :=
  match param_ranges with
  | None => default_ranges
  | Some ranges => ranges
  end.

(** The keyword arguments of the call of [solve] in trial [i]. *)
Definition solve_args (p : Params) (ngen seed_base i : Z) : SolveArgs :=
  mkArgs (pop_size p) (cxpb p) (mutpb p) ngen (tournsize p) (seed_base + i).

(** [itertools.product] of the four lists: the last one runs fastest. *)
Definition combinations (param_grid : ParamGrid) : list Params :=
  flat_map (fun a =>
    flat_map (fun b =>
      flat_map (fun c =>
        map (fun d => mkParams a b c d) (tournsize_values param_grid))
      (mutpb_values param_grid))
    (cxpb_values param_grid))
  (pop_size_values param_grid).

(** [enumerate(l)] *)
Definition enumerate {A} (l : list A) : list (Z * A) :=
  combine (range (len l)) l.

Section Tuner.

Context {RS : RandomSource}.

(** [self.solver] *)
Variable solver : VRPSolver Point.

(** The body both tuners share: run the GA with the parameters [p] and
    the seed [seed_base + i], record the result, keep it if it is
    strictly better. *)
Definition run_trial (ngen seed_base : Z) (state : Outcome) (i : Z)
  (p : Params) : Rand RS Outcome :=
  let '(best_params, best_individual, best_distance, all_results) := state in
  r <~ solve solver (solve_args p ngen seed_base i) ;;
  let '(mkResult individual _ _ _) := r in
  distance <~ lift (getitem (fitness_values individual) 0) ;;
  let result := mkTrial (i + 1) p distance individual in
  let all_results := all_results ++ [result] in
  if below distance best_distance
  then ret (Some p, Some individual, Dist distance, all_results)
  else ret (best_params, best_individual, best_distance, all_results).

(** The four draws that open a trial of the random search. *)
Definition sample_params (param_ranges : ParamRanges) : Rand RS Params :=
  pop_size <~ random_randint (fst (pop_size_range param_ranges))
                             (snd (pop_size_range param_ranges)) ;;
  cxpb <~ random_uniform (fst (cxpb_range param_ranges))
                         (snd (cxpb_range param_ranges)) ;;
  mutpb <~ random_uniform (fst (mutpb_range param_ranges))
                          (snd (mutpb_range param_ranges)) ;;
  tournsize <~ random_randint (fst (tournsize_range param_ranges))
                              (snd (tournsize_range param_ranges)) ;;
  ret (mkParams pop_size cxpb mutpb tournsize).

Definition random_search_tuning (n_trials : Z)
  (param_ranges : option ParamRanges) (ngen seed_base : Z) : Rand RS Outcome :=
  let param_ranges := ranges_or_default param_ranges in
  for_each_rand (range n_trials)
    (fun state trial =>
       p <~ sample_params param_ranges ;;
       run_trial ngen seed_base state trial p)
    (None, None, Inf, []).

Definition grid_search_tuning (param_grid : ParamGrid) (ngen seed_base : Z)
  : Rand RS Outcome :=
  for_each_rand (enumerate (combinations param_grid))
    (fun state '(i, combo) => run_trial ngen seed_base state i combo)
    (None, None, Inf, []).

(** A recorded result can be replayed: [solve], called with the recorded
    parameters and the seed of the trial, returns the recorded individual
    from any state of the generator, and the recorded distance is the
    first fitness value of that individual. *)
Definition replays (ngen seed_base : Z) (r : TrialResult) : Prop :=
  forall g : rng RS,
  exists sr g',
    solve solver (solve_args (params r) ngen seed_base (trial r - 1)) g
    = (Ok sr, g') /\
    best_individual sr = individual r /\
    getitem (fitness_values (individual r)) 0 = Ok (distance r).

End Tuner.

Arguments replays RS solver ngen seed_base r : clear implicits.

(** The components of the tuple a tuner returns. *)
Definition best_params (o : Outcome) : option Params := fst (fst (fst o)).
Definition best_individual (o : Outcome) : option Individual :=
  snd (fst (fst o)).
Definition best_distance (o : Outcome) : Bound := snd (fst o).
Definition all_results (o : Outcome) : list TrialResult := snd o.

(** The best of an outcome is the first of its results with the least
    distance: the results before it are strictly worse, those after it
    are not better. *)
Definition first_minimum (o : Outcome) : Prop :=
  match best_distance o with
  | Inf =>
      all_results o = [] /\ best_params o = None /\ best_individual o = None
  | Dist d =>
      exists before r after x,
        all_results o = before ++ r :: after /\
        d = Some x /\ distance r = Some x /\
        best_params o = Some (params r) /\
        best_individual o = Some (individual r) /\
        Forall (fun r' => exists y, distance r' = Some y /\ (x < y)%R) before /\
        Forall (fun r' => exists y, distance r' = Some y /\ (x <= y)%R) after
  end.

(** The parameters lie in their ranges, bounds included. *)
Definition in_ranges (param_ranges : ParamRanges) (p : Params) : Prop :=
  fst (pop_size_range param_ranges) <= pop_size p
    <= snd (pop_size_range param_ranges) /\
  (fst (cxpb_range param_ranges) <= cxpb p
   /\ cxpb p <= snd (cxpb_range param_ranges))%Q /\
  (fst (mutpb_range param_ranges) <= mutpb p
   /\ mutpb p <= snd (mutpb_range param_ranges))%Q /\
  fst (tournsize_range param_ranges) <= tournsize p
    <= snd (tournsize_range param_ranges).

(** [compare_tuning_methods]: the outcome of the random search, then that
    of the grid search. *)
Definition compare_tuning_methods {RS : RandomSource}
  (locations : list Point) (depot : Point) (num_vehicles n_trials : Z)
  : Rand RS (Outcome * Outcome) :=
  let tuner := mkSolver locations depot num_vehicles in
  random_search <~ random_search_tuning tuner n_trials None 20 0 ;;
  grid_search <~ grid_search_tuning tuner comparison_grid 20 0 ;;
  ret (random_search, grid_search).

End VRPTuner.

(** ** The route figure ([plotting.py])

    A figure is the list of its traces, in the order [add_trace]
    receives them; a trace is what the call of [go.Scatter] is given
    beyond constants (marker sizes, line width, symbol).  The layout is a
    constant but for the title, which is passed through. *)

(** [xs, ys = zip(...)] on the unpacked list of points: the assignment
    needs the two tuples that [zip] yields on one point or more, and
    gets none on no point. *)
Definition zip_star (points : list Point) : result (list R * list R) :=
  match points with
  | [] => Raise ValueError
  | _ :: _ => Ok (map fst points, map snd points)
  end.

(** [str(n)] *)
Definition str (n : Z) : string :=
  DecimalString.NilZero.string_of_int (Z.to_int n).

Record Scatter : Type := mkScatter {
  trace_x : list R;
  trace_y : list R;
  trace_mode : string;
  trace_color : string;
  trace_name : string
}.

(** [plot_vrp_routes(locations, depot, individual, num_vehicles)] *)
Definition plot_vrp_routes (locations : list Point) (depot : Point)
  (individual : list Z) (num_vehicles : Z) : result (list Scatter) :=
  let colors := ["red"; "green"; "blue"; "orange"; "purple"; "brown"; "pink";
                 "gray"; "cyan"; "magenta"]%string in
  let fig := [] in
  let fig := fig ++ [mkScatter [fst depot] [snd depot] "markers" "black"
                               "Depot"] in
  locs <- zip_star locations ;;
  let fig := fig ++ [mkScatter (fst locs) (snd locs) "markers" "lightblue"
                               "Customers"] in
  for_each (range num_vehicles)
    (fun fig i =>
       vehicle_route <-
         vehicle_route (mkSolver locations depot num_vehicles) individual i ;;
       route <- zip_star vehicle_route ;;
       color <- getitem colors (i mod len colors) ;;
       Ok (fig ++ [mkScatter (fst route) (snd route) "lines+markers" color
                             ("Vehicle " ++ str (i + 1))]))
    fig.

(** The points a trace joins. *)
Definition trace_points (t : Scatter) : list Point :=
  combine (trace_x t) (trace_y t).

(** * Properties *)

(** ** Python fragments *)

Lemma bind_ok {A B} (r : result A) (k : A -> result B) (b : B) :
  Py.bind r k = Ok b -> exists a, r = Ok a /\ k a = Ok b.
Proof.
  destruct r as [a|e]; simpl; intros H; [eauto | discriminate].
Qed.

Lemma len_nonneg {A} (l : list A) : 0 <= len l.
Proof. unfold len; lia. Qed.

Lemma getitem_nth {A} (l : list A) (i : Z) (d : A) :
  0 <= i < len l -> getitem l i = Ok (nth (Z.to_nat i) l d).
Proof.
  intros Hi. unfold getitem.
  destruct (i <? 0) eqn:E1; [lia|].
  destruct ((i <? 0) || (len l <=? i)) eqn:E2.
  - apply orb_true_iff in E2. destruct E2; lia.
  - destruct (nth_error l (Z.to_nat i)) eqn:E3.
    + f_equal. symmetry. now apply nth_error_nth.
    + apply nth_error_None in E3. unfold len in Hi. lia.
Qed.

Lemma getitem_ok_inv {A} (l : list A) (i : Z) (x : A) :
  getitem l i = Ok x ->
  -len l <= i < len l /\
  nth_error l (Z.to_nat (if i <? 0 then i + len l else i)) = Some x.
Proof.
  unfold getitem. set (j := if i <? 0 then i + len l else i).
  destruct ((j <? 0) || (len l <=? j)) eqn:E; [discriminate|].
  apply orb_false_iff in E. destruct E as [E1 E2].
  destruct (nth_error l (Z.to_nat j)) eqn:E3; [|discriminate].
  intros H; inversion H; subst. split; [|reflexivity].
  subst j. destruct (i <? 0) eqn:E4; lia.
Qed.

Lemma comprehension_map {A B} (f : A -> result B) (g : A -> B) (xs : list A) :
  (forall x, In x xs -> f x = Ok (g x)) ->
  comprehension f xs = Ok (map g xs).
Proof.
  induction xs as [|x xs IH]; intros H; simpl; [reflexivity|].
  rewrite (H x (or_introl eq_refl)). simpl.
  rewrite IH by (intros; apply H; now right). reflexivity.
Qed.

Lemma comprehension_length {A B} (f : A -> result B) (xs : list A) (ys : list B) :
  comprehension f xs = Ok ys -> length ys = length xs.
Proof.
  revert ys. induction xs as [|x xs IH]; simpl; intros ys H.
  - now inversion H.
  - destruct (f x); simpl in H; [|discriminate].
    destruct (comprehension f xs); simpl in H; [|discriminate].
    inversion H; subst. simpl. f_equal. now apply IH.
Qed.

(** A loop that appends one computed item per pass is a comprehension. *)
Lemma for_each_append {A B} (f : A -> result B) (xs : list A) (acc : list B) :
  for_each xs (fun routes i => r <- f i ;; Ok (routes ++ [r])) acc
  = (rs <- comprehension f xs ;; Ok (acc ++ rs)).
Proof.
  revert acc. induction xs as [|x xs IH]; intros acc; simpl.
  - now rewrite app_nil_r.
  - destruct (f x) as [r|e]; simpl; [|reflexivity].
    rewrite IH. destruct (comprehension f xs); simpl; [|reflexivity].
    now rewrite <- app_assoc.
Qed.

Lemma range_length (n : Z) : length (range n) = Z.to_nat n.
Proof. unfold range. now rewrite length_map, length_seq. Qed.

Lemma in_range (n i : Z) : In i (range n) <-> 0 <= i < n.
Proof.
  unfold range. rewrite in_map_iff. split.
  - intros (k & <- & Hk). apply in_seq in Hk. lia.
  - intros Hi. exists (Z.to_nat i). split; [lia|]. apply in_seq. lia.
Qed.

Lemma nth_range (n i : Z) :
  0 <= i < n -> nth_error (range n) (Z.to_nat i) = Some i.
Proof.
  intros Hi. unfold range.
  rewrite nth_error_map, nth_error_seq.
  destruct (Nat.ltb_spec (Z.to_nat i) (Z.to_nat n)); simpl; [f_equal; lia | lia].
Qed.

(** ** The step of [range]: counting by multiples *)

Lemma range_len_step (nv i n : Z) :
  0 <= i < nv -> 0 <= n ->
  0 <= range_len i n nv /\
  range_len i (n + 1) nv
  = range_len i n nv + (if n mod nv =? i then 1 else 0) /\
  (n mod nv = i -> i + range_len i n nv * nv = n).
Proof.
  intros Hi Hn. unfold range_len.
  assert (Hnv : (0 <? nv) = true) by lia. rewrite Hnv. cbn [andb].
  destruct (Z.ltb_spec i n) as [Hlt|Hge].
  - assert (E : (i <? n + 1) = true) by lia. rewrite E.
    pose proof (Z.div_mod (n - 1 - i) nv ltac:(lia)) as Hdm.
    pose proof (Z.mod_pos_bound (n - 1 - i) nv ltac:(lia)) as Hb.
    set (q := (n - 1 - i) / nv) in *. set (r := (n - 1 - i) mod nv) in *.
    assert (Hq : 0 <= q) by (subst q; apply Z.div_pos; lia).
    destruct (Z.eq_dec (r + 1) nv) as [Hr|Hr].
    + assert (Hn' : n = i + (q + 1) * nv) by nia.
      assert (Hm : n mod nv = i).
      { rewrite Hn'. rewrite Z.mod_add by lia. apply Z.mod_small; lia. }
      rewrite Hm, Z.eqb_refl.
      replace (n + 1 - 1 - i) with ((q + 1) * nv) by lia.
      rewrite Z.div_mul by lia. split; [lia|]. split; [lia|]. intros _. nia.
    + assert (Hm : n mod nv <> i).
      { intros Hm.
        assert (Hn' : n = (q * nv) + (i + r + 1)) by lia.
        destruct (Z.ltb_spec (i + r + 1) nv).
        - rewrite Hn' in Hm. rewrite Z.add_comm, Z.mod_add in Hm by lia.
          rewrite Z.mod_small in Hm by lia. lia.
        - replace n with ((i + r + 1 - nv) + (q + 1) * nv) in Hm by lia.
          rewrite Z.mod_add in Hm by lia.
          rewrite Z.mod_small in Hm by lia. lia. }
      apply Z.eqb_neq in Hm. rewrite Hm.
      replace (n + 1 - 1 - i) with (r + 1 + q * nv) by lia.
      rewrite Z.div_add by lia. rewrite Z.div_small by lia.
      split; [lia|]. split; [lia|]. intros C. apply Z.eqb_neq in Hm. lia.
  - assert (E1 : (nv <? 0) = false) by lia. rewrite E1. cbn [andb].
    destruct (Z.ltb_spec i (n + 1)) as [Hlt|Hge'].
    + assert (n = i) by lia. subst n.
      rewrite Z.mod_small by lia. rewrite Z.eqb_refl.
      replace (i + 1 - 1 - i) with 0 by lia. rewrite Z.div_0_l by lia.
      split; [lia|]. split; [lia|]. intros _. lia.
    + assert (Hm : n mod nv <> i) by (rewrite Z.mod_small by lia; lia).
      apply Z.eqb_neq in Hm. rewrite Hm.
      split; [lia|]. split; [lia|]. intros C. apply Z.eqb_neq in Hm. lia.
Qed.

(** [range(i, n, nv)] enumerates the positions below [n] that are
    congruent to [i] modulo [nv], in increasing order. *)
Lemma range3_positions (nv i : Z) (n : nat) :
  0 <= i < nv ->
  map (fun k => i + Z.of_nat k * nv)
      (seq 0 (Z.to_nat (range_len i (Z.of_nat n) nv)))
  = map Z.of_nat (filter (fun j => Z.of_nat j mod nv =? i) (seq 0 n)).
Proof.
  intros Hi. induction n as [|n IH].
  - unfold range_len. change (Z.of_nat 0) with 0.
    destruct (Z.ltb_spec i 0); [lia|].
    destruct (Z.ltb_spec nv 0); [lia|].
    rewrite andb_false_r. reflexivity.
  - destruct (range_len_step nv i (Z.of_nat n) Hi ltac:(lia)) as (H0 & Hs & Hm).
    rewrite seq_S, filter_app, map_app, <- IH. cbn [filter Nat.add].
    replace (Z.of_nat (S n)) with (Z.of_nat n + 1) by lia. rewrite Hs.
    destruct (Z.of_nat n mod nv =? i) eqn:E.
    + apply Z.eqb_eq in E. specialize (Hm E).
      replace (Z.to_nat (range_len i (Z.of_nat n) nv + 1))
        with (S (Z.to_nat (range_len i (Z.of_nat n) nv))) by lia.
      rewrite seq_S, map_app. cbn [map Nat.add]. do 2 f_equal.
      rewrite Z2Nat.id by lia. lia.
    + rewrite Z.add_0_r. cbn [map]. now rewrite app_nil_r.
Qed.

(** ** Route decoder *)

Section DecoderFacts.

Context {P : Type} (self : VRPSolver P).

Lemma vehicle_route_by_modulo (individual : list Z) (i : Z) :
  indices_in_range self individual ->
  0 <= i < num_vehicles self ->
  vehicle_route self individual i = Ok (route_by_modulo self individual i).
Proof.
  intros Hin Hi. unfold vehicle_route, range3.
  replace (num_vehicles self =? 0) with false by lia.
  cbn [Py.bind]. unfold len at 1. rewrite range3_positions by exact Hi.
  rewrite (comprehension_map _ (fun j => location_at self individual (Z.to_nat j))).
  - cbn [Py.bind]. unfold route_by_modulo, slot_positions.
    rewrite map_map. do 3 f_equal.
    apply map_ext. intros j. now rewrite Nat2Z.id.
  - intros j Hj. apply in_map_iff in Hj. destruct Hj as (k & <- & Hk).
    apply filter_In in Hk. destruct Hk as [Hk _]. apply in_seq in Hk.
    rewrite (getitem_nth individual (Z.of_nat k) 0) by (unfold len; lia).
    cbn [Py.bind]. rewrite Nat2Z.id.
    assert (Hv : 0 <= nth k individual 0 < num_locations self).
    { unfold indices_in_range in Hin. rewrite Forall_forall in Hin.
      apply Hin. apply nth_In. lia. }
    rewrite (getitem_nth (locations self) _ (depot self)) by exact Hv.
    unfold location_at. now rewrite ?Nat2Z.id.
Qed.

Lemma get_vehicle_routes_comprehension (individual : list Z) :
  get_vehicle_routes self individual
  = comprehension (vehicle_route self individual) (range (num_vehicles self)).
Proof.
  unfold get_vehicle_routes. rewrite for_each_append.
  destruct (comprehension _ _); reflexivity.
Qed.

Lemma get_vehicle_routes_by_modulo (individual : list Z) :
  indices_in_range self individual ->
  get_vehicle_routes self individual
  = Ok (map (route_by_modulo self individual) (range (num_vehicles self))).
Proof.
  intros Hin. rewrite get_vehicle_routes_comprehension.
  apply comprehension_map. intros i Hi. apply in_range in Hi.
  now apply vehicle_route_by_modulo.
Qed.

End DecoderFacts.

(** C4.  For every individual whose entries are indices into [locations]
    (as those of a permutation are) and every [num_vehicles >= 1], the
    decoder returns exactly [num_vehicles] routes, and route [i] is the
    depot, the locations found at the positions [j] of the individual with
    [j mod num_vehicles = i] in the order of the individual, and the depot
    again.  With two vehicles and the individual [[0,1,2,3]], vehicle 0
    gets the locations at positions 0 and 2 and vehicle 1 those at
    positions 1 and 3; with [[3,1,2,0]] vehicle 0 gets locations 3 and 2:
    the assignment goes by position, not by value. *)
Theorem decoder_round_robin :
  (forall (P : Type) (self : VRPSolver P) (individual : list Z),
      1 <= num_vehicles self ->
      indices_in_range self individual ->
      exists routes,
        get_vehicle_routes self individual = Ok routes /\
        len routes = num_vehicles self /\
        forall i, 0 <= i < num_vehicles self ->
          nth_error routes (Z.to_nat i)
          = Some (route_by_modulo self individual i)) /\
  (forall (P : Type) (d l0 l1 l2 l3 : P),
      get_vehicle_routes (mkSolver [l0; l1; l2; l3] d 2) [0; 1; 2; 3]
      = Ok [[d; l0; l2; d]; [d; l1; l3; d]] /\
      get_vehicle_routes (mkSolver [l0; l1; l2; l3] d 2) [3; 1; 2; 0]
      = Ok [[d; l3; l2; d]; [d; l1; l0; d]]).
Proof.
  split.
  - intros P self individual Hnv Hin.
    exists (map (route_by_modulo self individual) (range (num_vehicles self))).
    split; [now apply get_vehicle_routes_by_modulo|]. split.
    + unfold len. rewrite length_map, range_length. lia.
    + intros i Hi. rewrite nth_error_map, nth_range by exact Hi. reflexivity.
  - intros P d l0 l1 l2 l3. split; reflexivity.
Qed.

Lemma decoder_round_robin_witness :
  exists routes,
    get_vehicle_routes (mkSolver [10; 11; 12; 13; 14] 99 3) [4; 0; 3; 1; 2]
    = Ok routes /\
    len routes = 3 /\
    nth_error routes 0 = Some [99; 14; 11; 99] /\
    nth_error routes 1 = Some [99; 10; 12; 99] /\
    nth_error routes 2 = Some [99; 13; 99].
Proof.
  destruct (proj1 decoder_round_robin Z
              (mkSolver [10; 11; 12; 13; 14] 99 3) [4; 0; 3; 1; 2])
    as (routes & Hr & Hl & Hn).
  - simpl. lia.
  - unfold indices_in_range, num_locations, len. simpl.
    repeat constructor; lia.
  - exists routes. split; [exact Hr|]. split; [exact Hl|].
    split; [|split].
    + apply (Hn 0). simpl. lia.
    + apply (Hn 1). simpl. lia.
    + apply (Hn 2). simpl. lia.
Defined.

(** ** Fitness evaluator *)

Lemma fold_left_Rplus (xs : list R) (a : R) :
  fold_left Rplus xs a = (a + Rsum xs)%R.
Proof.
  revert a. induction xs as [|x xs IH]; intros a; simpl.
  - lra.
  - rewrite IH. lra.
Qed.

Lemma py_sum_Rsum (xs : list R) : py_sum xs = Rsum xs.
Proof. unfold py_sum. rewrite fold_left_Rplus. lra. Qed.

Lemma Rsum_app (xs ys : list R) : Rsum (xs ++ ys) = (Rsum xs + Rsum ys)%R.
Proof.
  induction xs as [|x xs IH]; simpl; [lra | rewrite IH; lra].
Qed.

Lemma path_length_legs (route : list Point) :
  path_length route = Rsum (legs route).
Proof.
  induction route as [|a [|b rest] IH]; try reflexivity.
  change (path_length (a :: b :: rest))
    with (euclidean a b + path_length (b :: rest))%R.
  now rewrite IH.
Qed.

Lemma norm_sub_euclidean (a b : Point) :
  np_linalg_norm (np_sub b a) = euclidean a b.
Proof. reflexivity. Qed.

(** The legs read by index are the legs of consecutive points. *)
Lemma legs_by_index (route : list Point) (d : Point) :
  map (fun k => euclidean (nth k route d) (nth (S k) route d))
      (seq 0 (pred (length route)))
  = legs route.
Proof.
  induction route as [|a [|b rest] IH]; try reflexivity.
  change (pred (length (a :: b :: rest))) with (S (pred (length (b :: rest)))).
  cbn [seq map]. rewrite <- seq_shift, map_map.
  change (legs (a :: b :: rest)) with (euclidean a b :: legs (b :: rest)).
  f_equal. rewrite <- IH. reflexivity.
Qed.

Lemma route_distance_path_length (route : list Point) :
  route_distance route = Ok (path_length route).
Proof.
  unfold route_distance.
  rewrite (comprehension_map _
             (fun k => euclidean (nth (Z.to_nat k) route (0, 0)%R)
                                 (nth (S (Z.to_nat k)) route (0, 0)%R))).
  - cbn [Py.bind]. rewrite py_sum_Rsum, path_length_legs. do 2 f_equal.
    unfold range. rewrite map_map.
    replace (Z.to_nat (len route - 1)) with (pred (length route))
      by (unfold len; lia).
    rewrite <- (legs_by_index route (0, 0)%R).
    apply map_ext. intros k. now rewrite Nat2Z.id.
  - intros k Hk. apply in_range in Hk.
    rewrite (getitem_nth route (k + 1) (0, 0)%R) by lia.
    rewrite (getitem_nth route k (0, 0)%R) by lia.
    cbn [Py.bind]. rewrite norm_sub_euclidean.
    replace (Z.to_nat (k + 1)) with (S (Z.to_nat k)) by lia. reflexivity.
Qed.

Lemma comprehension_compose {A B C} (f : A -> result B) (g : B -> C)
  (h : B -> result C) (xs : list A) :
  (forall b, h b = Ok (g b)) ->
  comprehension (fun x => b <- f x ;; h b) xs
  = (bs <- comprehension f xs ;; Ok (map g bs)).
Proof.
  intros Hh. induction xs as [|x xs IH]; simpl; [reflexivity|].
  destruct (f x) as [b|e]; simpl; [|reflexivity].
  rewrite Hh, IH. simpl.
  destruct (comprehension f xs); reflexivity.
Qed.

(** The loop of the evaluator, with its accumulators made explicit. *)
Lemma evaluate_loop (self : VRPSolver Point) (individual : list Z)
  (vehicles : list Z) (total : R) (distances : list R) :
  for_each vehicles
    (fun st i =>
       route <- vehicle_route self individual i ;;
       vehicle_distance <- route_distance route ;;
       Ok ((fst st + vehicle_distance)%R, snd st ++ [vehicle_distance]))
    (total, distances)
  = (routes <- comprehension (vehicle_route self individual) vehicles ;;
     Ok ((total + Rsum (map path_length routes))%R,
         distances ++ map path_length routes)).
Proof.
  revert total distances.
  induction vehicles as [|i vehicles IH]; intros total distances; simpl.
  - rewrite app_nil_r. do 2 f_equal. lra.
  - destruct (vehicle_route self individual i) as [route|e]; simpl; [|reflexivity].
    rewrite route_distance_path_length. simpl. rewrite IH.
    destruct (comprehension _ vehicles) as [routes|e]; simpl; [|reflexivity].
    rewrite <- app_assoc. simpl. do 2 f_equal. lra.
Qed.

(** C10.  The routes the evaluator builds inline are those of the public
    decoder: whenever [get_vehicle_routes] returns routes, the
    total-distance component of [_evaluate_vrp] is the sum over these
    routes of the distances between consecutive points; when the decoder
    raises, the evaluator raises the same exception. *)
Theorem evaluator_total_agrees_with_decoder :
  forall (self : VRPSolver Point) (individual : list Z),
    match get_vehicle_routes self individual with
    | Ok routes =>
        exists balance_penalty,
          _evaluate_vrp self individual
          = Ok (Some (Rsum (map path_length routes)), balance_penalty)
    | Raise e => _evaluate_vrp self individual = Raise e
    end.
Proof.
  intros self individual.
  rewrite get_vehicle_routes_comprehension.
  unfold _evaluate_vrp. rewrite evaluate_loop.
  destruct (comprehension _ _) as [routes|e]; simpl; [|reflexivity].
  eexists. do 3 f_equal. lra.
Qed.

Lemma np_std_population (xs : list R) :
  xs <> [] -> np_std xs = Some (population_std xs).
Proof.
  intros Hne. destruct xs as [|x xs]; [congruence|].
  unfold np_std, population_std. rewrite !py_sum_Rsum.
  do 4 f_equal. apply map_ext. intros v. ring.
Qed.

Lemma evaluate_vrp_by_modulo (self : VRPSolver Point) (individual : list Z) :
  1 <= num_vehicles self ->
  indices_in_range self individual ->
  _evaluate_vrp self individual
  = Ok (Some (Rsum (map path_length
                      (map (route_by_modulo self individual)
                           (range (num_vehicles self))))),
        Some (population_std
                (map path_length
                   (map (route_by_modulo self individual)
                        (range (num_vehicles self)))))).
Proof.
  intros Hnv Hin. unfold _evaluate_vrp. rewrite evaluate_loop.
  rewrite <- get_vehicle_routes_comprehension.
  rewrite get_vehicle_routes_by_modulo by exact Hin.
  cbn [Py.bind fst snd app]. rewrite np_std_population.
  - do 3 f_equal. lra.
  - intros C. apply (f_equal (@length R)) in C.
    rewrite !length_map, range_length in C. simpl in C. lia.
Qed.

Lemma euclidean_horizontal (x1 x2 y : R) :
  euclidean (x1, y) (x2, y) = Rabs (x2 - x1).
Proof.
  unfold euclidean. cbn [fst snd].
  replace ((x2 - x1) * (x2 - x1) + (y - y) * (y - y))%R
    with (Rsqr (x2 - x1)) by (unfold Rsqr; ring).
  apply sqrt_Rsqr_abs.
Qed.

Lemma euclidean_vertical (x y1 y2 : R) :
  euclidean (x, y1) (x, y2) = Rabs (y2 - y1).
Proof.
  unfold euclidean. cbn [fst snd].
  replace ((x - x) * (x - x) + (y2 - y1) * (y2 - y1))%R
    with (Rsqr (y2 - y1)) by (unfold Rsqr; ring).
  apply sqrt_Rsqr_abs.
Qed.

Lemma population_std_single (x : R) : population_std [x] = 0%R.
Proof.
  unfold population_std. cbn [length map Rsum INR].
  replace ((x - (x + 0) / 1) ^ 2 + 0)%R with 0%R by field.
  replace (0 / 1)%R with 0%R by field. apply sqrt_0.
Qed.

Ltac Rabs_value :=
  repeat match goal with
         | |- context [Rabs ?x] =>
             first [ rewrite (Rabs_pos_eq x) by lra
                   | rewrite (Rabs_left1 x) by lra ]
         end.

(** C5.  For every individual whose entries are indices into [locations]
    and every [num_vehicles >= 1], the evaluator returns the pair made of
    the sum over the decoded routes of the distances between consecutive
    points (depot legs included) and of the population standard deviation
    of the per-route distances.  For the four corners of a square of side
    10, the depot on the first corner, one vehicle and the individual
    [[0,1,2,3]], it returns [(40, 0)]. *)
Theorem evaluate_vrp_contract :
  (forall (self : VRPSolver Point) (individual : list Z),
      1 <= num_vehicles self ->
      indices_in_range self individual ->
      exists routes,
        get_vehicle_routes self individual = Ok routes /\
        _evaluate_vrp self individual
        = Ok (Some (Rsum (map path_length routes)),
              Some (population_std (map path_length routes)))) /\
  _evaluate_vrp
    (mkSolver [(0, 0); (10, 0); (10, 10); (0, 10)]%R (0, 0)%R 1) [0; 1; 2; 3]
  = Ok (Some 40%R, Some 0%R).
Proof.
  split.
  - intros self individual Hnv Hin. eexists. split.
    + now apply get_vehicle_routes_by_modulo.
    + now apply evaluate_vrp_by_modulo.
  - rewrite evaluate_vrp_by_modulo.
    + change (map (route_by_modulo _ _) _)
        with [[(0, 0); (0, 0); (10, 0); (10, 10); (0, 10); (0, 0)]]%R.
      cbn [map path_length Rsum].
      rewrite population_std_single.
      rewrite !euclidean_horizontal, !euclidean_vertical.
      Rabs_value. do 3 f_equal. lra.
    + simpl. lia.
    + unfold indices_in_range, num_locations, len. simpl.
      repeat constructor; lia.
Qed.

(** Two vehicles, one stop each at distances 5 and 0 from the depot: the
    routes measure 10 and 0, and the penalty is the population deviation. *)
Lemma evaluate_vrp_contract_witness :
  exists routes,
    get_vehicle_routes (mkSolver [(3, 4); (0, 0)]%R (0, 0)%R 2) [0; 1]
    = Ok routes /\
    _evaluate_vrp (mkSolver [(3, 4); (0, 0)]%R (0, 0)%R 2) [0; 1]
    = Ok (Some (Rsum (map path_length routes)),
          Some (population_std (map path_length routes))).
Proof.
  apply (proj1 evaluate_vrp_contract).
  - simpl. lia.
  - unfold indices_in_range, num_locations, len. simpl.
    repeat constructor; lia.
Defined.

Lemma filter_none {A} (f : A -> bool) (l : list A) :
  (forall x, In x l -> f x = false) -> filter f l = [].
Proof.
  induction l as [|x l IH]; intros H; simpl; [reflexivity|].
  rewrite (H x (or_introl eq_refl)). apply IH. intros; apply H; now right.
Qed.

(** A vehicle whose number is not below the length of the individual is
    given no stop. *)
Lemma route_by_modulo_empty {P} (self : VRPSolver P) (individual : list Z) (i : Z) :
  len individual <= i < num_vehicles self ->
  route_by_modulo self individual i = [depot self; depot self].
Proof.
  intros Hi. unfold route_by_modulo, slot_positions.
  rewrite filter_none; [reflexivity|].
  intros j Hj. apply in_seq in Hj. apply Z.eqb_neq.
  unfold len in Hi. rewrite Z.mod_small by lia. lia.
Qed.

Lemma euclidean_same (a : Point) : euclidean a a = 0%R.
Proof.
  unfold euclidean.
  replace ((fst a - fst a) * (fst a - fst a) + (snd a - snd a) * (snd a - snd a))%R
    with 0%R by ring.
  apply sqrt_0.
Qed.

(** C9.  With fewer locations than vehicles, decoding and evaluation do
    not raise: every vehicle whose number is at least the number of
    locations gets the route depot, depot; the distance of that route is
    exactly 0; and the evaluator returns a pair of reals (no [nan]), the
    first being the sum of the route distances. *)
Theorem fewer_locations_than_vehicles :
  forall (self : VRPSolver Point) (individual : list Z),
    len individual = num_locations self ->
    indices_in_range self individual ->
    num_locations self < num_vehicles self ->
    exists routes total_distance balance_penalty,
      get_vehicle_routes self individual = Ok routes /\
      len routes = num_vehicles self /\
      (forall i, num_locations self <= i < num_vehicles self ->
         nth_error routes (Z.to_nat i) = Some [depot self; depot self]) /\
      route_distance [depot self; depot self] = Ok 0%R /\
      _evaluate_vrp self individual
      = Ok (Some total_distance, Some balance_penalty) /\
      total_distance = Rsum (map path_length routes).
Proof.
  intros self individual Hlen Hin Hlt.
  assert (Hnv : 1 <= num_vehicles self).
  { pose proof (len_nonneg (locations self)). unfold num_locations in Hlt. lia. }
  exists (map (route_by_modulo self individual) (range (num_vehicles self))).
  do 2 eexists. split; [now apply get_vehicle_routes_by_modulo|].
  split; [unfold len; rewrite length_map, range_length; lia|].
  split.
  { intros i Hi.
    assert (Hi' : 0 <= i < num_vehicles self).
    { pose proof (len_nonneg (locations self)). unfold num_locations in Hi. lia. }
    rewrite nth_error_map, nth_range by exact Hi'. cbn [option_map].
    rewrite route_by_modulo_empty by lia. reflexivity. }
  split.
  { rewrite route_distance_path_length. cbn [path_length].
    rewrite euclidean_same. f_equal. lra. }
  split; [now apply evaluate_vrp_by_modulo | reflexivity].
Qed.

Lemma fewer_locations_than_vehicles_witness :
  exists routes total_distance balance_penalty,
    get_vehicle_routes (mkSolver [(3, 4)]%R (0, 0)%R 3) [0] = Ok routes /\
    len routes = 3 /\
    (forall i, 1 <= i < 3 ->
       nth_error routes (Z.to_nat i) = Some [(0, 0)%R; (0, 0)%R]) /\
    route_distance [(0, 0)%R; (0, 0)%R] = Ok 0%R /\
    _evaluate_vrp (mkSolver [(3, 4)]%R (0, 0)%R 3) [0]
    = Ok (Some total_distance, Some balance_penalty) /\
    total_distance = Rsum (map path_length routes).
Proof.
  apply (fewer_locations_than_vehicles (mkSolver [(3, 4)]%R (0, 0)%R 3) [0]).
  - reflexivity.
  - unfold indices_in_range, num_locations, len. simpl.
    repeat constructor; lia.
  - unfold num_locations, len. simpl. lia.
Defined.

(** ** The order on fitness values *)

Lemma Reqb_true (x y : R) : Reqb x y = true <-> x = y.
Proof. unfold Reqb. destruct (Req_dec_T x y); split; congruence. Qed.

Lemma Rleb_true (x y : R) : Rleb x y = true <-> (x <= y)%R.
Proof. unfold Rleb. destruct (Rle_dec x y); split; intros; congruence. Qed.

Lemma Rltb_true (x y : R) : Rltb x y = true <-> (x < y)%R.
Proof. unfold Rltb. destruct (Rlt_dec x y); split; intros; congruence. Qed.

Lemma has_fitness_wvalues (ind : Individual) (f : R * R) :
  has_fitness ind f <->
  wvalues ind = [Some (fst f * -1)%R; Some (snd f * -1)%R].
Proof. reflexivity. Qed.

(** Reading the values back undoes the weights. *)
Lemma has_fitness_values (ind : Individual) (f : R * R) :
  has_fitness ind f -> fitness_values ind = [Some (fst f); Some (snd f)].
Proof.
  intros H. unfold has_fitness in H. cbn in H.
  unfold fitness_values. rewrite H. cbn.
  repeat f_equal; field.
Qed.

Lemma set_fitness_has_fitness (ind : Individual) (d p : R) :
  has_fitness (set_fitness ind (Some d, Some p)) (d, p).
Proof. reflexivity. Qed.

Lemma fitness_gt_lex (a b : Individual) (fa fb : R * R) :
  has_fitness a fa -> has_fitness b fb ->
  fitness_gt a b = true <-> lex_lt fa fb.
Proof.
  intros Ha Hb. unfold has_fitness in Ha, Hb. cbn in Ha, Hb.
  unfold fitness_gt, lex_lt. rewrite Ha, Hb. cbn [tuple_le float_eq float_le].
  unfold Reqb, Rleb.
  destruct (Req_dec_T (fst fa * -1) (fst fb * -1)) as [E1|E1].
  - destruct (Req_dec_T (snd fa * -1) (snd fb * -1)) as [E2|E2].
    + cbn. split; [intros C; discriminate C|]. intros [H|[_ H]]; lra.
    + destruct (Rle_dec (snd fa * -1) (snd fb * -1)) as [L|L]; cbn.
      * split; [intros C; discriminate C|]. intros [H|[_ H]]; lra.
      * split; [|reflexivity]. intros _. right. split; lra.
  - destruct (Rle_dec (fst fa * -1) (fst fb * -1)) as [L|L]; cbn.
    + split; [intros C; discriminate C|]. intros [H|[H _]]; lra.
    + split; [|reflexivity]. intros _. left. lra.
Qed.

Lemma lex_lt_irrefl (a : R * R) : ~ lex_lt a a.
Proof. unfold lex_lt. intros [H|[_ H]]; lra. Qed.

Lemma lex_lt_trans (a b c : R * R) : lex_lt a b -> lex_lt b c -> lex_lt a c.
Proof.
  unfold lex_lt. intros [H1|[H1 H1']] [H2|[H2 H2']].
  - left; lra.
  - left; lra.
  - left; lra.
  - right; split; [congruence | lra].
Qed.

(** Not being beaten is the large order; it composes with the strict one. *)
Lemma lex_not_lt_trans (a b c : R * R) :
  ~ lex_lt a b -> ~ lex_lt b c -> ~ lex_lt a c.
Proof.
  unfold lex_lt. intros H1 H2 [H|[H H']].
  - destruct (Rtotal_order (fst a) (fst b)) as [L|[E|G]].
    + apply H1. now left.
    + apply H2. left. lra.
    + apply H2. left. lra.
  - destruct (Rtotal_order (fst a) (fst b)) as [L|[E|G]].
    + apply H1. now left.
    + destruct (Rtotal_order (snd a) (snd b)) as [L'|[E'|G']].
      * apply H1. right. split; assumption.
      * apply H2. right. split; lra.
      * apply H2. right. split; lra.
    + apply H2. left. lra.
Qed.

Lemma lex_lt_not_lt_trans (a b c : R * R) :
  lex_lt a b -> ~ lex_lt c b -> ~ lex_lt c a.
Proof.
  intros H1 H2 H3. apply H2. eapply lex_lt_trans; eassumption.
Qed.

Lemma fitness_gt_irrefl (a : Individual) :
  evaluated a -> fitness_gt a a = false.
Proof.
  intros [f Hf]. destruct (fitness_gt a a) eqn:E; [|reflexivity].
  apply (fitness_gt_lex a a f f Hf Hf) in E. now apply lex_lt_irrefl in E.
Qed.

(** If [b] beats [a] and [x] does not beat [a], then [x] does not beat [b]. *)
Lemma fitness_gt_false_trans (a b x : Individual) :
  evaluated a -> evaluated b -> evaluated x ->
  fitness_gt b a = true -> fitness_gt x a = false -> fitness_gt x b = false.
Proof.
  intros [fa Ha] [fb Hb] [fx Hx] Hba Hxa.
  destruct (fitness_gt x b) eqn:E; [|reflexivity].
  apply (fitness_gt_lex b a fb fa Hb Ha) in Hba.
  apply (fitness_gt_lex x b fx fb Hx Hb) in E.
  assert (H : lex_lt fx fa) by (eapply lex_lt_trans; eassumption).
  apply (fitness_gt_lex x a fx fa Hx Ha) in H. congruence.
Qed.

(** If [x] does not beat [a] and [a] does not beat [b], then [x] does not
    beat [b]. *)
Lemma fitness_gt_false_chain (a b x : Individual) :
  evaluated a -> evaluated b -> evaluated x ->
  fitness_gt x a = false -> fitness_gt a b = false -> fitness_gt x b = false.
Proof.
  intros [fa Ha] [fb Hb] [fx Hx] Hxa Hab.
  destruct (fitness_gt x b) eqn:E; [|reflexivity].
  apply (fitness_gt_lex x b fx fb Hx Hb) in E.
  exfalso. revert E. apply (lex_not_lt_trans fx fa fb).
  - intros C. apply (fitness_gt_lex x a fx fa Hx Ha) in C. congruence.
  - intros C. apply (fitness_gt_lex a b fa fb Ha Hb) in C. congruence.
Qed.

(** The scan of [max]: the item kept is not beaten by any item seen. *)
Lemma max_scan_best (others : list Individual) (first : Individual)
  (seen : list Individual) :
  evaluated first -> Forall evaluated others -> Forall evaluated seen ->
  (forall x, In x seen -> fitness_gt x first = false) ->
  let w := fold_left (fun best item => if fitness_gt item best then item else best)
                     others first in
  In w (first :: others) /\ evaluated w /\
  forall x, In x seen \/ In x (first :: others) -> fitness_gt x w = false.
Proof.
  revert first seen.
  induction others as [|item others IH]; intros first seen Hf Ho Hs Hseen; cbn.
  - split; [now left|]. split; [assumption|].
    intros x [Hx|[<-|[]]]; [now apply Hseen | now apply fitness_gt_irrefl].
  - inversion Ho as [|? ? Hitem Ho']; subst.
    destruct (fitness_gt item first) eqn:E.
    + destruct (IH item (first :: seen) Hitem Ho') as (Hin & Hev & Hbest).
      * now constructor.
      * intros x [<-|Hx].
        -- destruct (fitness_gt first item) eqn:E'; [|reflexivity].
           destruct Hf as [ff Hff]. destruct Hitem as [fi Hfi].
           apply (fitness_gt_lex _ _ _ _ Hfi Hff) in E.
           apply (fitness_gt_lex _ _ _ _ Hff Hfi) in E'.
           exfalso. apply (lex_lt_irrefl fi). eapply lex_lt_trans; eassumption.
        -- apply (fitness_gt_false_trans first item x); auto.
           rewrite Forall_forall in Hs. now apply Hs.
      * split; [cbn in Hin; tauto|]. split; [assumption|].
        intros x Hx. apply Hbest. cbn. cbn in Hx. tauto.
    + destruct (IH first (item :: seen) Hf Ho') as (Hin & Hev & Hbest).
      * now constructor.
      * intros x [<-|Hx]; [assumption | now apply Hseen].
      * split; [cbn in Hin; tauto|]. split; [assumption|].
        intros x Hx. apply Hbest. cbn. cbn in Hx. tauto.
Qed.

Lemma max_by_fitness_best (aspirants : list Individual) :
  aspirants <> [] -> Forall evaluated aspirants ->
  exists w, max_by_fitness aspirants = Ok w /\ In w aspirants /\
            forall x, In x aspirants -> fitness_gt x w = false.
Proof.
  intros Hne Hev. destruct aspirants as [|first others]; [congruence|].
  inversion Hev as [|? ? Hf Ho]; subst.
  destruct (max_scan_best others first [] Hf Ho (Forall_nil _)
              ltac:(intros x [])) as (Hin & _ & Hbest).
  eexists. split; [reflexivity|]. split; [exact Hin|].
  intros x Hx. apply Hbest. now right.
Qed.

(** ** The hall of fame of size 1 *)

Lemma hof_update_one_empty (population : list Individual) (ind : Individual) :
  hof_update_one population (mkHallOfFame 1 [] []) ind
  = (first <- getitem population 0 ;; Ok (hall_of first)).
Proof.
  unfold hof_update_one. cbn.
  destruct (getitem population 0); reflexivity.
Qed.

Lemma hof_update_one_member (population : list Individual) (h ind : Individual) :
  hof_update_one population (hall_of h) ind
  = Ok (if fitness_gt ind h && negb (similar ind h) then hall_of ind
        else hall_of h).
Proof.
  unfold hof_update_one, hall_of. cbn.
  destruct (fitness_gt ind h); cbn; [|reflexivity].
  destruct (similar ind h); reflexivity.
Qed.

(** C3.  The order on fitness is lexicographic on
    [(total_distance, balance_penalty)]: of two evaluated individuals, one
    beats the other ([Fitness.__gt__], computed on the weighted values)
    exactly when its total distance is strictly smaller, or the total
    distances are equal and its balance penalty is strictly smaller.
    Tournament selection applies this order (the winner that [max] returns
    is an aspirant that no aspirant beats), and so does the hall of fame
    (a member is replaced only by an individual that beats it). *)
Theorem fitness_order_is_lexicographic :
  (forall (a b : Individual) (fa fb : R * R),
      has_fitness a fa -> has_fitness b fb ->
      (fitness_gt a b = true <-> lex_lt fa fb)) /\
  (forall aspirants : list Individual,
      aspirants <> [] -> Forall evaluated aspirants ->
      exists w,
        max_by_fitness aspirants = Ok w /\ In w aspirants /\
        forall x fx fw,
          In x aspirants -> has_fitness x fx -> has_fitness w fw ->
          ~ lex_lt fx fw) /\
  (forall (population : list Individual) (h ind : Individual) (fh fi : R * R),
      has_fitness h fh -> has_fitness ind fi ->
      (lex_lt fi fh -> genes ind <> genes h ->
       hof_update_one population (hall_of h) ind = Ok (hall_of ind)) /\
      (~ lex_lt fi fh ->
       hof_update_one population (hall_of h) ind = Ok (hall_of h))).
Proof.
  split; [exact fitness_gt_lex|]. split.
  - intros aspirants Hne Hev.
    destruct (max_by_fitness_best aspirants Hne Hev) as (w & Hw & Hin & Hbest).
    exists w. split; [exact Hw|]. split; [exact Hin|].
    intros x fx fw Hx Hfx Hfw C.
    apply (fitness_gt_lex x w fx fw Hfx Hfw) in C.
    rewrite (Hbest x Hx) in C. discriminate C.
  - intros population h ind fh fi Hh Hi. rewrite hof_update_one_member. split.
    + intros Hlt Hne.
      apply (fitness_gt_lex ind h fi fh Hi Hh) in Hlt. rewrite Hlt.
      unfold similar. destruct (list_eq_dec Z.eq_dec (genes ind) (genes h));
        [contradiction | reflexivity].
    + intros Hn. destruct (fitness_gt ind h) eqn:E; [|reflexivity].
      apply (fitness_gt_lex ind h fi fh Hi Hh) in E. contradiction.
Qed.

Lemma fitness_order_is_lexicographic_witness :
  fitness_gt (set_fitness (mkIndividual [0; 1] []) (Some 1%R, Some 5%R))
             (set_fitness (mkIndividual [1; 0] []) (Some 2%R, Some 0%R)) = true
  <-> lex_lt (1%R, 5%R) (2%R, 0%R).
Proof.
  apply (proj1 fitness_order_is_lexicographic); reflexivity.
Defined.

(** ** Lists updated in place *)

Lemma length_update {A} (l : list A) (i : nat) (x : A) :
  length (update l i x) = length l.
Proof.
  revert i. induction l as [|h t IH]; intros [|i]; simpl; auto.
Qed.

Lemma nth_update_eq {A} (l : list A) (i : nat) (x d : A) :
  (i < length l)%nat -> nth i (update l i x) d = x.
Proof.
  revert i. induction l as [|h t IH]; intros [|i] H; simpl in *; try lia; auto.
  apply IH. lia.
Qed.

Lemma nth_update_neq {A} (l : list A) (i j : nat) (x d : A) :
  i <> j -> nth j (update l i x) d = nth j l d.
Proof.
  revert i j. induction l as [|h t IH]; intros [|i] [|j] H; simpl; auto.
  congruence.
Qed.

Lemma update_perm {A} (l : list A) (i : nat) (y d : A) :
  (i < length l)%nat ->
  Permutation (nth i l d :: update l i y) (y :: l).
Proof.
  revert i. induction l as [|h t IH]; intros [|i] H; simpl in *; try lia.
  - apply perm_swap.
  - rewrite perm_swap. rewrite (IH i) by lia. apply perm_swap.
Qed.

(** Exchanging the items at two positions permutes the list. *)
Lemma swap_perm {A} (l : list A) (i j : nat) (d : A) :
  (i < length l)%nat -> (j < length l)%nat ->
  Permutation (update (update l i (nth j l d)) j (nth i l d)) l.
Proof.
  intros Hi Hj.
  apply (Permutation_cons_inv (a := nth j l d)).
  assert (E : nth j (update l i (nth j l d)) d = nth j l d).
  { destruct (Nat.eq_dec i j) as [->|Hne].
    - now apply nth_update_eq.
    - now apply nth_update_neq. }
  rewrite <- E at 1.
  rewrite (update_perm (update l i (nth j l d)) j (nth i l d) d)
    by (rewrite length_update; exact Hj).
  now rewrite update_perm.
Qed.

Lemma setitem_update {A} (l : list A) (i : Z) (x : A) :
  0 <= i < len l -> setitem l i x = Ok (update l (Z.to_nat i) x).
Proof.
  intros Hi. unfold setitem.
  destruct (Z.ltb_spec i 0); [lia|].
  destruct (Z.ltb_spec i 0); [lia|].
  destruct (Z.leb_spec (len l) i); [lia|]. reflexivity.
Qed.

Lemma len_update {A} (l : list A) (i : nat) (x : A) :
  len (update l i x) = len l.
Proof. unfold len. now rewrite length_update. Qed.

(** ** Permutations of [range(n)] *)

Lemma is_permutation_length (n : Z) (l : list Z) :
  is_permutation n l -> length l = Z.to_nat n.
Proof.
  intros H. apply Permutation_length in H. now rewrite range_length in H.
Qed.

Lemma is_permutation_in (n : Z) (l : list Z) (v : Z) :
  is_permutation n l -> (In v l <-> 0 <= v < n).
Proof.
  intros H. rewrite <- in_range. split; apply Permutation_in;
    [exact H | now apply Permutation_sym].
Qed.

Lemma NoDup_range (n : Z) : NoDup (range n).
Proof.
  unfold range. apply Finite.Injective_map_NoDup_in.
  - intros a b _ _. lia.
  - apply seq_NoDup.
Qed.

Lemma is_permutation_NoDup (n : Z) (l : list Z) :
  is_permutation n l -> NoDup l.
Proof.
  intros H. apply (Permutation_NoDup (Permutation_sym H)). apply NoDup_range.
Qed.

Lemma is_permutation_nth (n : Z) (l : list Z) (k : nat) :
  is_permutation n l -> (k < length l)%nat -> 0 <= nth k l 0 < n.
Proof.
  intros H Hk. apply (is_permutation_in n l); [exact H|]. now apply nth_In.
Qed.

(** ** Population initialisation: [random.sample] *)

Lemma firstn_update {A} (l : list A) (m j : nat) (y : A) :
  firstn m (update l j y) = update (firstn m l) j y.
Proof.
  revert m j. induction l as [|h t IH]; intros [|m] [|j]; simpl; auto.
  now rewrite IH.
Qed.

Lemma update_out_of_range {A} (l : list A) (j : nat) (y : A) :
  (length l <= j)%nat -> update l j y = l.
Proof.
  revert j. induction l as [|h t IH]; intros [|j] H; simpl in *; auto; try lia.
  rewrite IH by lia. reflexivity.
Qed.

Lemma firstn_snoc {A} (l : list A) (m : nat) (d : A) :
  (m < length l)%nat -> firstn (S m) l = firstn m l ++ [nth m l d].
Proof.
  revert m. induction l as [|h t IH]; intros [|m] H; simpl in *; try lia; auto.
  rewrite <- IH by lia. reflexivity.
Qed.

Lemma nth_firstn_lt {A} (l : list A) (m j : nat) (d : A) :
  (j < m)%nat -> nth j (firstn m l) d = nth j l d.
Proof.
  revert m j. induction l as [|h t IH]; intros [|m] [|j] H; simpl; auto; try lia.
  apply IH. lia.
Qed.

Section SampleFacts.

Context {RS : RandomSource}.

(** The selection loop returns a rearrangement of the part of the pool
    that is still to be drawn. *)
Lemma sample_loop_perm (k i : nat) (pool : list Z) (g : rng RS) :
  length pool = (i + k)%nat ->
  exists res g',
    sample_loop (Z.of_nat (i + k)) (map Z.of_nat (seq i k)) pool g = (Ok res, g')
    /\ Permutation res (firstn k pool).
Proof.
  revert i pool g. induction k as [|k IH]; intros i pool g Hlen.
  - exists [], g. split; [reflexivity | constructor].
  - cbn [seq map sample_loop]. unfold rbind at 1. unfold py_randbelow.
    pose proof (randbelow_range RS (Z.of_nat (i + S k) - Z.of_nat i) g
                  ltac:(lia)) as Hj.
    destruct (randbelow RS (Z.of_nat (i + S k) - Z.of_nat i) g) as [j g1].
    cbn [fst] in Hj. unfold rbind at 1, lift at 1.
    rewrite (getitem_nth pool j 0) by (unfold len; lia).
    unfold rbind at 1, lift at 1.
    rewrite (getitem_nth pool _ 0) by (unfold len; lia).
    unfold rbind at 1, lift at 1.
    rewrite setitem_update by (unfold len; lia).
    replace (Z.to_nat (Z.of_nat (i + S k) - Z.of_nat i - 1)) with k by lia.
    set (y := nth k pool 0). set (pool' := update pool (Z.to_nat j) y).
    destruct (IH (S i) pool' g1) as (res & g' & Hres & Hperm).
    { subst pool'. rewrite length_update. lia. }
    replace (Z.of_nat (i + S k)) with (Z.of_nat (S i + k)) by lia.
    unfold rbind at 1. rewrite Hres. unfold ret.
    exists (nth (Z.to_nat j) pool 0 :: res), g'. split; [reflexivity|].
    rewrite Hperm. subst pool'. rewrite firstn_update.
    rewrite (firstn_snoc pool k 0) by lia. fold y.
    rewrite <- Permutation_cons_append.
    destruct (Nat.eq_dec (Z.to_nat j) k) as [E|E].
    + rewrite update_out_of_range by (rewrite length_firstn; lia).
      rewrite E. fold y. reflexivity.
    + rewrite <- (nth_firstn_lt pool k (Z.to_nat j) 0) by lia.
      apply update_perm. rewrite length_firstn. lia.
Qed.

Lemma random_sample_all_perm (population : list Z) (g : rng RS) :
  exists res g',
    random_sample_all population g = (Ok res, g') /\ Permutation res population.
Proof.
  unfold random_sample_all, range, len.
  destruct (sample_loop_perm (length population) 0 population g eq_refl)
    as (res & g' & Hres & Hperm).
  exists res, g'. rewrite Nat2Z.id. cbn [Nat.add] in Hres. split; [exact Hres|].
  now rewrite firstn_all in Hperm.
Qed.

End SampleFacts.

(** ** Partially matched crossover *)

Lemma getitem_item (l : list Z) (v : Z) :
  0 <= v < len l -> getitem l v = Ok (item l v).
Proof. intros H. now apply getitem_nth. Qed.

Lemma is_permutation_len (n : Z) (l : list Z) :
  0 <= n -> is_permutation n l -> len l = n.
Proof.
  intros Hn H. unfold len. rewrite (is_permutation_length n l H). lia.
Qed.

Lemma is_permutation_item (n : Z) (l : list Z) (k : Z) :
  is_permutation n l -> 0 <= k < n -> 0 <= item l k < n.
Proof.
  intros H Hk. apply is_permutation_nth; [exact H|].
  rewrite (is_permutation_length n l H). lia.
Qed.

Lemma is_permutation_item_inj (n : Z) (l : list Z) (i j : Z) :
  is_permutation n l -> 0 <= i < n -> 0 <= j < n ->
  item l i = item l j -> i = j.
Proof.
  intros H Hi Hj E.
  pose proof (is_permutation_length n l H) as Hlen.
  pose proof (is_permutation_NoDup n l H) as Hnd.
  rewrite (NoDup_nth l 0) in Hnd.
  assert (Z.to_nat i = Z.to_nat j) by (apply Hnd; [lia | lia | exact E]).
  lia.
Qed.

Lemma item_update_eq (l : list Z) (i x : Z) :
  0 <= i < len l -> item (update l (Z.to_nat i) x) i = x.
Proof. intros H. apply nth_update_eq. unfold len in H. lia. Qed.

Lemma item_update_neq (l : list Z) (i j x : Z) :
  0 <= i -> 0 <= j -> i <> j -> item (update l (Z.to_nat i) x) j = item l j.
Proof. intros Hi Hj H. apply nth_update_neq. lia. Qed.

(** One half of a pass of the matching loop: [w] is brought to position
    [i] of [ind], and the value that was there goes where [w] was. *)
Lemma pmx_half_step (n : Z) (ind p : list Z) (i w : Z) :
  is_permutation n ind -> positions_of n ind p ->
  0 <= i < n -> 0 <= w < n ->
  let own := item ind i in
  let ind' := update (update ind (Z.to_nat i) w) (Z.to_nat (item p w)) own in
  let p' := update (update p (Z.to_nat own) (item p w)) (Z.to_nat w) (item p own) in
  is_permutation n ind' /\ positions_of n ind' p'.
Proof.
  intros Hperm [Hlp Hpos] Hi Hw own ind' p'.
  assert (Hn : 0 <= n) by lia.
  pose proof (is_permutation_len n ind Hn Hperm) as Hlen.
  assert (Hown : 0 <= own < n) by (now apply is_permutation_item).
  destruct (Hpos w Hw) as [Hq Hqw]. set (q := item p w) in *.
  destruct (Hpos own Hown) as [Hpo Hpo'].
  assert (Hpi : item p own = i).
  { apply (is_permutation_item_inj n ind); auto. }
  split.
  - unfold is_permutation. rewrite <- Hperm. subst ind'.
    replace w with (nth (Z.to_nat q) ind 0) at 1 by exact Hqw.
    apply swap_perm; unfold len in Hlen; lia.
  - split; [subst p'; now rewrite !len_update|].
    intros v Hv. subst p'. rewrite Hpi.
    destruct (Z.eq_dec v w) as [->|Hvw].
    + rewrite item_update_eq by (rewrite len_update; lia).
      split; [lia|]. subst ind'.
      destruct (Z.eq_dec q i) as [E|E].
      * rewrite E. rewrite item_update_eq by (rewrite len_update; lia).
        subst own. rewrite <- E. exact Hqw.
      * rewrite item_update_neq by lia.
        apply item_update_eq. lia.
    + rewrite item_update_neq by lia.
      destruct (Z.eq_dec v own) as [->|Hvo].
      * rewrite item_update_eq by lia.
        split; [lia|]. subst ind'. apply item_update_eq.
        rewrite len_update. lia.
      * rewrite item_update_neq by lia.
        destruct (Hpos v Hv) as [Hpv Hpv']. split; [lia|]. subst ind'.
        rewrite item_update_neq; [| lia | lia |].
        -- rewrite item_update_neq; [exact Hpv' | lia | lia |].
           intros C. rewrite <- C in Hpv'. fold own in Hpv'. congruence.
        -- intros C. rewrite <- C in Hpv'. congruence.
Qed.

Lemma update_comm {A} (l : list A) (i j : nat) (x y : A) :
  i <> j -> update (update l i x) j y = update (update l j y) i x.
Proof.
  revert i j. induction l as [|h t IH]; intros [|i] [|j] H; simpl; auto.
  - congruence.
  - rewrite IH by congruence. reflexivity.
Qed.

Lemma pmx_step_invariant (n : Z) (s : pmx_state) (i : Z) :
  pmx_invariant n s -> 0 <= i < n ->
  exists s', pmx_step s i = Ok s' /\ pmx_invariant n s'.
Proof.
  intros (H1 & H2 & Hp1 & Hp2) Hi.
  assert (Hn : 0 <= n) by lia.
  pose proof (is_permutation_len n _ Hn H1) as Hl1.
  pose proof (is_permutation_len n _ Hn H2) as Hl2.
  pose proof (proj1 Hp1) as Hlp1. pose proof (proj1 Hp2) as Hlp2.
  pose proof (is_permutation_item n _ i H1 Hi) as Ht1.
  pose proof (is_permutation_item n _ i H2 Hi) as Ht2.
  set (temp1 := item (pmx_ind1 s) i) in *.
  set (temp2 := item (pmx_ind2 s) i) in *.
  destruct (proj2 Hp1 temp2 Ht2) as [Hq1 _].
  destruct (proj2 Hp2 temp1 Ht1) as [Hq2 _].
  destruct (proj2 Hp1 temp1 Ht1) as [Hb1 _].
  destruct (proj2 Hp2 temp2 Ht2) as [Ha2 _].
  destruct (pmx_half_step n _ _ i temp2 H1 Hp1 Hi Ht2) as [A1 B1].
  destruct (pmx_half_step n _ _ i temp1 H2 Hp2 Hi Ht1) as [A2 B2].
  fold temp1 in A1, B1. fold temp2 in A2, B2.
  unfold pmx_step.
  rewrite (getitem_item (pmx_ind1 s) i) by lia. cbn [Py.bind]. fold temp1.
  rewrite (getitem_item (pmx_ind2 s) i) by lia. cbn [Py.bind]. fold temp2.
  rewrite (setitem_update (pmx_ind1 s) i) by lia. cbn [Py.bind].
  rewrite (getitem_item (pmx_p1 s) temp2) by lia. cbn [Py.bind].
  rewrite setitem_update by (rewrite len_update; lia). cbn [Py.bind].
  rewrite (setitem_update (pmx_ind2 s) i) by lia. cbn [Py.bind].
  rewrite (getitem_item (pmx_p2 s) temp1) by lia. cbn [Py.bind].
  rewrite setitem_update by (rewrite len_update; lia). cbn [Py.bind].
  rewrite (getitem_item (pmx_p1 s) temp1) by lia. cbn [Py.bind].
  rewrite (setitem_update (pmx_p1 s) temp1) by lia. cbn [Py.bind].
  rewrite setitem_update by (rewrite len_update; lia). cbn [Py.bind].
  rewrite (getitem_item (pmx_p2 s) temp2) by lia. cbn [Py.bind].
  rewrite (setitem_update (pmx_p2 s) temp1) by lia. cbn [Py.bind].
  rewrite setitem_update by (rewrite len_update; lia). cbn [Py.bind].
  eexists. split; [reflexivity|].
  unfold pmx_invariant. cbn [pmx_ind1 pmx_ind2 pmx_p1 pmx_p2].
  split; [exact A1|]. split; [exact A2|]. split; [exact B1|].
  destruct (Z.eq_dec temp1 temp2) as [E|E].
  - rewrite E in *. exact B2.
  - rewrite (update_comm (pmx_p2 s) (Z.to_nat temp1) (Z.to_nat temp2)) by lia.
    exact B2.
Qed.

Lemma for_each_invariant {A S} (I : S -> Prop) (body : S -> A -> result S)
  (xs : list A) (s : S) :
  (forall s x, In x xs -> I s -> exists s', body s x = Ok s' /\ I s') ->
  I s -> exists s', for_each xs body s = Ok s' /\ I s'.
Proof.
  revert s. induction xs as [|x xs IH]; intros s Hbody Hs; cbn.
  - now exists s.
  - destruct (Hbody s x (or_introl eq_refl) Hs) as (s1 & E & Hs1).
    rewrite E. cbn. apply IH; [|exact Hs1].
    intros s2 y Hy. apply Hbody. now right.
Qed.

Lemma range3_unit_step (lo hi : Z) :
  exists l, range3 lo hi 1 = Ok l /\ forall i, In i l -> lo <= i < hi.
Proof.
  unfold range3. cbn [Z.eqb]. eexists. split; [reflexivity|].
  intros i Hi. apply in_map_iff in Hi. destruct Hi as (k & <- & Hk).
  apply in_seq in Hk. unfold range_len in Hk. cbn [Z.ltb Z.compare andb] in Hk.
  destruct (Z.ltb_spec lo hi).
  - rewrite Z.div_1_r in Hk. lia.
  - cbn in Hk. lia.
Qed.

Lemma positions_of_forward (n : Z) (ind p : list Z) :
  is_permutation n ind -> len p = n ->
  (forall i, 0 <= i < n -> item p (item ind i) = i) ->
  positions_of n ind p.
Proof.
  intros Hperm Hlen Hfw. split; [exact Hlen|]. intros v Hv.
  assert (Hin : In v ind) by (now apply (is_permutation_in n ind v Hperm)).
  destruct (In_nth ind v 0 Hin) as (k & Hk & Ek).
  pose proof (is_permutation_length n ind Hperm) as Hl.
  assert (Hi : 0 <= Z.of_nat k < n) by lia.
  specialize (Hfw (Z.of_nat k) Hi). unfold item in Hfw at 2.
  rewrite Nat2Z.id, Ek in Hfw. rewrite Hfw. split; [exact Hi|].
  unfold item. now rewrite Nat2Z.id.
Qed.

Lemma pmx_positions_loop (n : Z) (ind1 ind2 : list Z) (m k : nat)
  (p1 p2 : list Z) :
  is_permutation n ind1 -> is_permutation n ind2 ->
  (k + m = Z.to_nat n)%nat -> len p1 = n -> len p2 = n ->
  (forall i, 0 <= i < Z.of_nat k -> item p1 (item ind1 i) = i) ->
  (forall i, 0 <= i < Z.of_nat k -> item p2 (item ind2 i) = i) ->
  exists p1' p2',
    for_each (map Z.of_nat (seq k m))
      (fun p i =>
         v1 <- getitem ind1 i ;;
         p1 <- setitem (fst p) v1 i ;;
         v2 <- getitem ind2 i ;;
         p2 <- setitem (snd p) v2 i ;;
         Ok (p1, p2))
      (p1, p2) = Ok (p1', p2') /\
    len p1' = n /\ len p2' = n /\
    (forall i, 0 <= i < n -> item p1' (item ind1 i) = i) /\
    (forall i, 0 <= i < n -> item p2' (item ind2 i) = i).
Proof.
  intros H1 H2. revert k p1 p2.
  induction m as [|m IH]; intros k p1 p2 Hkm Hl1 Hl2 Hf1 Hf2.
  - exists p1, p2. split; [reflexivity|]. repeat split; auto.
    + intros i Hi. apply Hf1. lia.
    + intros i Hi. apply Hf2. lia.
  - assert (Hn : 0 <= n) by lia.
    assert (Hk : 0 <= Z.of_nat k < n) by lia.
    pose proof (is_permutation_len n _ Hn H1) as Hlen1.
    pose proof (is_permutation_len n _ Hn H2) as Hlen2.
    pose proof (is_permutation_item n _ _ H1 Hk) as Hv1.
    pose proof (is_permutation_item n _ _ H2 Hk) as Hv2.
    cbn [seq map for_each fst snd].
    rewrite (getitem_item ind1) by lia. cbn [Py.bind].
    rewrite (setitem_update p1) by lia. cbn [Py.bind].
    rewrite (getitem_item ind2) by lia. cbn [Py.bind].
    rewrite (setitem_update p2) by lia. cbn [Py.bind].
    apply IH.
    + lia.
    + now rewrite len_update.
    + now rewrite len_update.
    + intros i Hi. destruct (Z.eq_dec i (Z.of_nat k)) as [->|Hne].
      * apply item_update_eq. lia.
      * rewrite item_update_neq.
        -- apply Hf1. lia.
        -- lia.
        -- apply (is_permutation_item n ind1 i H1). lia.
        -- intros C. apply Hne. symmetry.
           apply (is_permutation_item_inj n ind1); auto. lia.
    + intros i Hi. destruct (Z.eq_dec i (Z.of_nat k)) as [->|Hne].
      * apply item_update_eq. lia.
      * rewrite item_update_neq.
        -- apply Hf2. lia.
        -- lia.
        -- apply (is_permutation_item n ind2 i H2). lia.
        -- intros C. apply Hne. symmetry.
           apply (is_permutation_item_inj n ind2); auto. lia.
Qed.

Lemma pmx_positions_ok (n : Z) (ind1 ind2 : list Z) :
  0 <= n -> is_permutation n ind1 -> is_permutation n ind2 ->
  exists p1 p2,
    pmx_positions ind1 ind2 n = Ok (p1, p2) /\
    positions_of n ind1 p1 /\ positions_of n ind2 p2.
Proof.
  intros Hn H1 H2. unfold pmx_positions, range.
  destruct (pmx_positions_loop n ind1 ind2 (Z.to_nat n) 0
              (repeat 0 (Z.to_nat n)) (repeat 0 (Z.to_nat n)) H1 H2)
    as (p1 & p2 & E & L1 & L2 & F1 & F2).
  - reflexivity.
  - unfold len. rewrite repeat_length. lia.
  - unfold len. rewrite repeat_length. lia.
  - intros i Hi. lia.
  - intros i Hi. lia.
  - exists p1, p2. split; [exact E|].
    split; now apply positions_of_forward.
Qed.

Section OperatorFacts.

Context {RS : RandomSource}.

Lemma random_randint_ok (a b : Z) (g : rng RS) :
  a <= b ->
  exists r g', random_randint a b g = (Ok r, g') /\ a <= r <= b.
Proof.
  intros Hab. unfold random_randint.
  destruct (Z.ltb_spec 0 (b + 1 - a)); [|lia].
  unfold rbind, py_randbelow, ret.
  pose proof (randbelow_range RS (b + 1 - a) g ltac:(lia)) as Hr.
  destruct (randbelow RS (b + 1 - a) g) as [r g']. cbn [fst] in Hr.
  exists (a + r), g'. split; [reflexivity | lia].
Qed.

Lemma random_randint_empty (a b : Z) (g : rng RS) :
  b < a -> random_randint a b g = (Raise ValueError, g).
Proof.
  intros Hab. unfold random_randint.
  destruct (Z.ltb_spec 0 (b + 1 - a)); [lia | reflexivity].
Qed.

(** Crossover closure: on two permutations of [range(n)], [n >= 1], the
    crossover returns two permutations of [range(n)]. *)
Lemma cxPartialyMatched_closure (n : Z) (ind1 ind2 : list Z) (g : rng RS) :
  1 <= n -> is_permutation n ind1 -> is_permutation n ind2 ->
  exists c1 c2 g',
    cxPartialyMatched ind1 ind2 g = (Ok (c1, c2), g') /\
    is_permutation n c1 /\ is_permutation n c2.
Proof.
  intros Hn H1 H2.
  pose proof (is_permutation_len n _ ltac:(lia) H1) as Hl1.
  pose proof (is_permutation_len n _ ltac:(lia) H2) as Hl2.
  unfold cxPartialyMatched. rewrite Hl1, Hl2, Z.min_id.
  destruct (pmx_positions_ok n ind1 ind2 ltac:(lia) H1 H2)
    as (p1 & p2 & Ep & P1 & P2).
  unfold rbind at 1, lift at 1. rewrite Ep.
  destruct (random_randint_ok 0 n g ltac:(lia)) as (c1 & g1 & E1 & Hc1).
  unfold rbind at 1. rewrite E1.
  destruct (random_randint_ok 0 (n - 1) g1 ltac:(lia)) as (c2 & g2 & E2 & Hc2).
  unfold rbind at 1. rewrite E2.
  set (cuts := if c1 <=? c2 then (c1, c2 + 1) else (c2, c1)).
  assert (Hcuts : 0 <= fst cuts /\ snd cuts <= n).
  { subst cuts. destruct (Z.leb_spec c1 c2); cbn [fst snd]; lia. }
  destruct (range3_unit_step (fst cuts) (snd cuts)) as (js & Ejs & Hjs).
  unfold rbind at 1, lift at 1. rewrite Ejs.
  destruct (for_each_invariant (pmx_invariant n) pmx_step js
              (mkPmx ind1 ind2 p1 p2)) as (s & Es & Hs).
  - intros s i Hi Hinv. apply pmx_step_invariant; [exact Hinv|].
    specialize (Hjs i Hi). lia.
  - unfold pmx_invariant. cbn [pmx_ind1 pmx_ind2 pmx_p1 pmx_p2]. tauto.
  - unfold rbind at 1, lift at 1. cbn [fst snd]. rewrite Es. unfold ret.
    exists (pmx_ind1 s), (pmx_ind2 s), g2. split; [reflexivity|].
    destruct Hs as (A & B & _). now split.
Qed.

(** On an empty instance the second cut point cannot be drawn. *)
Lemma cxPartialyMatched_empty (g : rng RS) :
  fst (cxPartialyMatched [] [] g) = Raise ValueError.
Proof.
  unfold cxPartialyMatched.
  change (Z.min (len (@nil Z)) (len (@nil Z))) with 0.
  change (pmx_positions [] [] 0) with (Ok (@nil Z, @nil Z)).
  unfold rbind at 1, lift at 1.
  destruct (random_randint_ok 0 0 g ltac:(lia)) as (c1 & g1 & E1 & _).
  unfold rbind at 1. rewrite E1.
  unfold rbind at 1. now rewrite random_randint_empty by lia.
Qed.

(** One pass of the shuffle keeps the items: it exchanges two of them, or
    nothing; it raises only on a list of one item. *)
Lemma shuffle_step_perm (indpb : Q) (l : list Z) (i : Z) (g : rng RS) :
  0 <= i < len l ->
  (exists l' g', shuffle_step indpb (len l) l i g = (Ok l', g') /\
                 Permutation l' l) \/
  (len l = 1 /\ exists g', shuffle_step indpb (len l) l i g = (Raise ValueError, g')).
Proof.
  intros Hi.
  remember (shuffle_step indpb (len l) l i g) as out eqn:Eout.
  unfold shuffle_step in Eout. unfold rbind at 1 in Eout.
  unfold random_random in Eout.
  destruct (random_float RS g) as [u g1]. cbv beta iota in Eout.
  destruct (Qlt_le_dec u indpb) as [Hu|Hu].
  - destruct (Z.eq_dec (len l) 1) as [E|E].
    + right. split; [exact E|]. exists g1.
      unfold rbind in Eout. rewrite random_randint_empty in Eout by lia.
      exact Eout.
    + left.
      destruct (random_randint_ok 0 (len l - 2) g1 ltac:(lia))
        as (r & g2 & Er & Hr).
      unfold rbind at 1 in Eout. rewrite Er in Eout.
      set (swap_indx := if i <=? r then r + 1 else r) in *.
      assert (Hs : 0 <= swap_indx < len l).
      { subst swap_indx. destruct (Z.leb_spec i r); lia. }
      unfold rbind, lift in Eout.
      rewrite (getitem_item l swap_indx) in Eout by exact Hs.
      rewrite (getitem_item l i) in Eout by exact Hi.
      rewrite (setitem_update l i) in Eout by exact Hi.
      rewrite setitem_update in Eout by (rewrite len_update; exact Hs).
      eexists _, g2. split; [exact Eout|].
      apply swap_perm; unfold len in *; lia.
  - left. exists l, g1. split; [exact Eout | reflexivity].
Qed.

Lemma mutShuffleIndexes_loop (indpb : Q) (n : Z) (js : list Z) (l : list Z)
  (g : rng RS) :
  len l = n -> (forall i, In i js -> 0 <= i < n) ->
  (exists l' g', for_each_rand js (shuffle_step indpb n) l g = (Ok l', g') /\
                 Permutation l' l) \/
  (n = 1 /\ exists g', for_each_rand js (shuffle_step indpb n) l g
                       = (Raise ValueError, g')).
Proof.
  revert l g. induction js as [|i js IH]; intros l g Hl Hjs.
  - left. exists l, g. split; reflexivity.
  - cbn [for_each_rand]. unfold rbind.
    destruct (shuffle_step_perm indpb l i g) as [(l1 & g1 & E & P)|(E1 & g1 & E)].
    + rewrite Hl. apply Hjs. now left.
    + rewrite Hl in E. rewrite E.
      destruct (IH l1 g1) as [(l2 & g2 & E2 & P2)|(E1 & g2 & E2)].
      * unfold len. rewrite (Permutation_length P). exact Hl.
      * intros j Hj. apply Hjs. now right.
      * left. exists l2, g2. split; [exact E2|]. now rewrite P2.
      * right. split; [exact E1|]. now exists g2.
    + right. rewrite Hl in E, E1. split; [exact E1|]. rewrite E. now exists g1.
Qed.

(** Mutation closure: the shuffle returns a rearrangement of the
    individual; it can raise only on a single location. *)
Lemma mutShuffleIndexes_closure (indpb : Q) (l : list Z) (g : rng RS) :
  (exists l' g', mutShuffleIndexes indpb l g = (Ok l', g') /\ Permutation l' l) \/
  (len l = 1 /\ exists g', mutShuffleIndexes indpb l g = (Raise ValueError, g')).
Proof.
  unfold mutShuffleIndexes. apply mutShuffleIndexes_loop; [reflexivity|].
  intros i Hi. now apply in_range.
Qed.

End OperatorFacts.

(** ** Reasoning on computations that draw random numbers *)

Section RandFacts.

Context {RS : RandomSource}.

Lemma rbind_ok_inv {A B} (c : Rand RS A) (k : A -> Rand RS B) (g g' : rng RS)
  (b : B) :
  rbind c k g = (Ok b, g') ->
  exists a g1, c g = (Ok a, g1) /\ k a g1 = (Ok b, g').
Proof.
  unfold rbind. destruct (c g) as [[a|e] g1]; intros H.
  - now exists a, g1.
  - discriminate H.
Qed.

Lemma lift_ok_inv {A} (r : result A) (g g' : rng RS) (a : A) :
  lift r g = (Ok a, g') -> r = Ok a /\ g' = g.
Proof. unfold lift. intros H. inversion H. now split. Qed.

Lemma ret_ok_inv {A} (x a : A) (g g' : rng RS) :
  ret x g = (Ok a, g') -> a = x /\ g' = g.
Proof. unfold ret. intros H. inversion H. now split. Qed.

(** A property kept by every pass that returns is kept by the loop. *)
Lemma for_each_rand_invariant {A S} (I : S -> Prop) (body : S -> A -> Rand RS S)
  (xs : list A) :
  (forall s x g s' g', In x xs -> I s -> body s x g = (Ok s', g') -> I s') ->
  forall s g s' g',
    I s -> for_each_rand xs body s g = (Ok s', g') -> I s'.
Proof.
  induction xs as [|x xs IH]; intros Hbody s g s' g' Hs H; cbn in H.
  - apply ret_ok_inv in H. destruct H as [-> _]. exact Hs.
  - apply rbind_ok_inv in H. destruct H as (s1 & g1 & H1 & H2).
    apply (IH (fun s x g s' g' Hx => Hbody s x g s' g' (or_intror Hx))
             s1 g1 s' g'); [|exact H2].
    now apply (Hbody s x g s1 g1 (or_introl eq_refl)).
Qed.

Lemma comprehension_rand_forall {A B} (Q : B -> Prop) (f : A -> Rand RS B)
  (xs : list A) :
  (forall x g y g', In x xs -> f x g = (Ok y, g') -> Q y) ->
  forall g ys g', comprehension_rand f xs g = (Ok ys, g') -> Forall Q ys.
Proof.
  induction xs as [|x xs IH]; intros Hf g ys g' H; cbn in H.
  - apply ret_ok_inv in H. destruct H as [-> _]. constructor.
  - apply rbind_ok_inv in H. destruct H as (y & g1 & H1 & H2).
    apply rbind_ok_inv in H2. destruct H2 as (ys' & g2 & H2 & H3).
    apply ret_ok_inv in H3. destruct H3 as [-> _]. constructor.
    + now apply (Hf x g y g1 (or_introl eq_refl)).
    + apply (IH (fun x g y g' Hx => Hf x g y g' (or_intror Hx)) g1 ys' g2 H2).
Qed.

Lemma comprehension_rand_total {A B} (Q : B -> Prop) (f : A -> Rand RS B)
  (xs : list A) :
  (forall x g, In x xs -> exists y g', f x g = (Ok y, g') /\ Q y) ->
  forall g, exists ys g',
    comprehension_rand f xs g = (Ok ys, g') /\ Forall Q ys /\
    length ys = length xs.
Proof.
  induction xs as [|x xs IH]; intros Hf g; cbn.
  - exists [], g. repeat split. constructor.
  - destruct (Hf x g (or_introl eq_refl)) as (y & g1 & E1 & Hy).
    destruct (IH (fun x g Hx => Hf x g (or_intror Hx)) g1)
      as (ys & g2 & E2 & Hys & Hl).
    exists (y :: ys), g2. unfold rbind. rewrite E1, E2. unfold ret.
    split; [reflexivity|]. split; [now constructor | cbn; now rewrite Hl].
Qed.

Lemma comprehension_rand_length {A B} (f : A -> Rand RS B) (xs : list A) :
  forall g ys g', comprehension_rand f xs g = (Ok ys, g') ->
                  length ys = length xs.
Proof.
  induction xs as [|x xs IH]; intros g ys g' H; cbn in H.
  - apply ret_ok_inv in H. destruct H as [-> _]. reflexivity.
  - apply rbind_ok_inv in H. destruct H as (y & g1 & H1 & H2).
    apply rbind_ok_inv in H2. destruct H2 as (ys' & g2 & H2 & H3).
    apply ret_ok_inv in H3. destruct H3 as [-> _]. cbn. f_equal.
    exact (IH g1 ys' g2 H2).
Qed.

End RandFacts.

Lemma comprehension_forall2 {A B} (Q : A -> B -> Prop) (f : A -> result B)
  (xs : list A) (ys : list B) :
  (forall x y, In x xs -> f x = Ok y -> Q x y) ->
  comprehension f xs = Ok ys -> Forall2 Q xs ys.
Proof.
  revert ys. induction xs as [|x xs IH]; intros ys Hf H; cbn in H.
  - inversion H. constructor.
  - destruct (f x) as [y|e] eqn:E; cbn in H; [|discriminate H].
    destruct (comprehension f xs) as [ys'|e]; cbn in H; [|discriminate H].
    inversion H; subst. constructor.
    + apply Hf; [now left | exact E].
    + apply IH; [|reflexivity]. intros x' y' Hx'. apply Hf. now right.
Qed.

Lemma for_each_invariant_partial {A S} (I : S -> Prop)
  (body : S -> A -> result S) (xs : list A) :
  (forall s x s', In x xs -> I s -> body s x = Ok s' -> I s') ->
  forall s s', I s -> for_each xs body s = Ok s' -> I s'.
Proof.
  induction xs as [|x xs IH]; intros Hbody s s' Hs H; cbn in H.
  - inversion H; subst. exact Hs.
  - destruct (body s x) as [s1|e] eqn:E; cbn in H; [|discriminate H].
    apply (IH (fun s x s' Hx => Hbody s x s' (or_intror Hx)) s1 s'); [|exact H].
    now apply (Hbody s x s1 (or_introl eq_refl)).
Qed.

(** ** The permutation property along a run *)

Lemma getitem_in {A} (l : list A) (i : Z) (x : A) :
  getitem l i = Ok x -> In x l.
Proof.
  intros H. apply getitem_ok_inv in H. destruct H as [_ H].
  now apply nth_error_In in H.
Qed.

Lemma max_by_fitness_in (aspirants : list Individual) (w : Individual) :
  max_by_fitness aspirants = Ok w -> In w aspirants.
Proof.
  destruct aspirants as [|first others]; cbn; intros H; [discriminate H|].
  inversion H as [E]. clear H E.
  revert first. induction others as [|item others IH]; intros first; cbn.
  - now left.
  - destruct (fitness_gt item first).
    + destruct (IH item) as [<-|Hin]; [right; now left | right; now right].
    + destruct (IH first) as [<-|Hin]; [now left | right; now right].
Qed.

Lemma in_firstn_or_skipn {A} (l : list A) (n : nat) (y : A) :
  In y (firstn n l) \/ In y (skipn n l) -> In y l.
Proof.
  intros H. rewrite <- (firstn_skipn n l). apply in_or_app. exact H.
Qed.

Lemma in_skipn_succ {A} (l : list A) (n : nat) (y : A) :
  In y (skipn (S n) l) -> In y (skipn n l).
Proof.
  revert n. induction l as [|h t IH]; intros [|n] H; cbn in *; auto.
Qed.

Lemma in_list_insert {A} (l : list A) (i : Z) (x y : A) :
  In y (list_insert l i x) -> y = x \/ In y l.
Proof.
  unfold list_insert. intros H. apply in_app_or in H.
  destruct H as [H|[H|H]].
  - right. eapply in_firstn_or_skipn. left. exact H.
  - left. now symmetry.
  - right. eapply in_firstn_or_skipn. right. exact H.
Qed.

Lemma in_list_del {A} (l l' : list A) (i : Z) (y : A) :
  list_del l i = Ok l' -> In y l' -> In y l.
Proof.
  unfold list_del. destruct (_ || _); intros H; [discriminate H|].
  inversion H; subst. intros Hy. apply in_app_or in Hy.
  destruct Hy as [Hy|Hy].
  - eapply in_firstn_or_skipn. left. exact Hy.
  - eapply in_firstn_or_skipn. right. apply in_skipn_succ. exact Hy.
Qed.

Lemma hof_insert_items (hof hof' : HallOfFame) (item y : Individual) :
  hof_insert hof item = Ok hof' -> In y (items hof') ->
  y = item \/ In y (items hof).
Proof.
  unfold hof_insert. destruct (bisect_right _ _); cbn; intros H; [|discriminate H].
  inversion H; subst. cbn. apply in_list_insert.
Qed.

Lemma hof_remove_items (hof hof' : HallOfFame) (index : Z) (y : Individual) :
  hof_remove hof index = Ok hof' -> In y (items hof') -> In y (items hof).
Proof.
  unfold hof_remove. destruct (list_del (keys hof) _); cbn; [|discriminate].
  destruct (list_del (items hof) index) eqn:E; cbn; intros H; [|discriminate H].
  inversion H; subst. cbn. now apply in_list_del with (i := index).
Qed.

(** The members of the hall come from the populations it was shown. *)
Lemma hof_update_one_items (population : list Individual) (hof hof' : HallOfFame)
  (ind y : Individual) :
  In ind population ->
  hof_update_one population hof ind = Ok hof' -> In y (items hof') ->
  In y (items hof) \/ In y population.
Proof.
  intros Hind. unfold hof_update_one.
  destruct (_ && _).
  - destruct (getitem population 0) as [first|e] eqn:E; cbn; [|discriminate].
    intros H Hy. destruct (hof_insert_items _ _ _ _ H Hy) as [->|Hy'].
    + right. now apply getitem_in in E.
    + now left.
  - destruct (getitem (items hof) (-1)) as [worst|e]; cbn; [|discriminate].
    destruct (_ || _).
    + destruct (existsb _ _).
      * intros H Hy. inversion H; subst. now left.
      * destruct (maxsize hof <=? len (items hof)).
        -- destruct (hof_remove hof (-1)) as [hof1|e] eqn:E; cbn; [|discriminate].
           intros H Hy. destruct (hof_insert_items _ _ _ _ H Hy) as [->|Hy'].
           ++ now right.
           ++ left. now apply (hof_remove_items hof hof1 (-1)).
        -- cbn. intros H Hy.
           destruct (hof_insert_items _ _ _ _ H Hy) as [->|Hy'];
             [now right | now left].
    + intros H Hy. inversion H; subst. now left.
Qed.

Lemma hof_update_items (hof hof' : HallOfFame) (population : list Individual)
  (y : Individual) :
  hof_update hof population = Ok hof' -> In y (items hof') ->
  In y (items hof) \/ In y population.
Proof.
  unfold hof_update. intros H.
  apply (for_each_invariant_partial
           (fun h => In y (items h) -> In y (items hof) \/ In y population)
           (hof_update_one population) population) with (s := hof);
    [| tauto | exact H].
  intros s x s' Hx Hs Hstep Hy.
  destruct (hof_update_one_items population s s' x y Hx Hstep Hy) as [H1|H1];
    [now apply Hs | now right].
Qed.

Section SelectionFacts.

Context {RS : RandomSource}.

Lemma random_choice_in {A} (seq : list A) (g g' : rng RS) (x : A) :
  random_choice seq g = (Ok x, g') -> In x seq.
Proof.
  unfold random_choice. destruct (len seq =? 0); [discriminate|].
  intros H. apply rbind_ok_inv in H. destruct H as (i & g1 & _ & H).
  apply lift_ok_inv in H. destruct H as [H _]. now apply getitem_in in H.
Qed.

Lemma selRandom_in (individuals : list Individual) (k : Z) (g g' : rng RS)
  (xs : list Individual) :
  selRandom individuals k g = (Ok xs, g') ->
  Forall (fun x => In x individuals) xs.
Proof.
  apply comprehension_rand_forall.
  intros _ g0 y g1 _ H. now apply random_choice_in in H.
Qed.

(** Tournament selection returns members of the population, as many as
    asked for. *)
Lemma selTournament_in (tournsize : Z) (individuals : list Individual) (k : Z)
  (g g' : rng RS) (chosen : list Individual) :
  selTournament tournsize individuals k g = (Ok chosen, g') ->
  Forall (fun x => In x individuals) chosen.
Proof.
  unfold selTournament.
  apply (for_each_rand_invariant (Forall (fun x => In x individuals)));
    [|constructor].
  intros s _ g0 s' g1 _ Hs H.
  apply rbind_ok_inv in H. destruct H as (aspirants & g2 & Ha & H).
  apply rbind_ok_inv in H. destruct H as (winner & g3 & Hw & H).
  apply ret_ok_inv in H. destruct H as [-> _].
  apply lift_ok_inv in Hw. destruct Hw as [Hw _].
  apply max_by_fitness_in in Hw. apply selRandom_in in Ha.
  apply Forall_app. split; [exact Hs|]. constructor; [|constructor].
  rewrite Forall_forall in Ha. now apply Ha.
Qed.

End SelectionFacts.

(** A property of the lists carried by individuals, kept by the variation
    operators of a toolbox, holds along the whole run. *)
Section GenesInvariant.

Context {RS : RandomSource}.
Variable V : list Z -> Prop.
Variable tb : Toolbox RS.

Hypothesis mate_keeps : forall a b g c g',
  V a -> V b -> mate tb a b g = (Ok c, g') -> V (fst c) /\ V (snd c).
Hypothesis mutate_keeps : forall a g c g',
  V a -> mutate tb a g = (Ok c, g') -> V c.
Hypothesis select_members : forall pop k g chosen g',
  select tb pop k g = (Ok chosen, g') -> Forall (fun x => In x pop) chosen.

Lemma mate_pairs_keeps (cxpb : Q) (offspring : list Individual) :
  forall g off g',
    Forall (on_genes V) offspring ->
    mate_pairs tb cxpb offspring g = (Ok off, g') -> Forall (on_genes V) off.
Proof.
  remember (length offspring) as n eqn:En. revert offspring En.
  induction n as [n IH] using lt_wf_ind. intros offspring En g off g' Hv H.
  destruct offspring as [|a [|b rest]]; cbn in H.
  - apply ret_ok_inv in H. destruct H as [-> _]. constructor.
  - apply ret_ok_inv in H. destruct H as [-> _]. exact Hv.
  - inversion Hv as [|? ? Ha Hv']; subst. inversion Hv' as [|? ? Hb Hr]; subst.
    apply rbind_ok_inv in H. destruct H as (u & g1 & _ & H).
    apply rbind_ok_inv in H. destruct H as (pair & g2 & Hp & H).
    apply rbind_ok_inv in H. destruct H as (rest' & g3 & Hrest & H).
    apply ret_ok_inv in H. destruct H as [-> _].
    assert (Hpair : (on_genes V) (fst pair) /\ (on_genes V) (snd pair)).
    { destruct (Qlt_le_dec u cxpb).
      - apply rbind_ok_inv in Hp. destruct Hp as (c & g4 & Hc & Hp).
        apply ret_ok_inv in Hp. destruct Hp as [-> _]. cbn.
        exact (mate_keeps _ _ _ _ _ Ha Hb Hc).
      - apply ret_ok_inv in Hp. destruct Hp as [-> _]. now split. }
    constructor; [apply Hpair|]. constructor; [apply Hpair|].
    apply (IH (length rest)) with (offspring := rest) (g := g2) (g' := g3);
      [cbn; lia | reflexivity | exact Hr | exact Hrest].
Qed.

Lemma mutate_each_keeps (mutpb : Q) (offspring : list Individual) :
  forall g off g',
    Forall (on_genes V) offspring ->
    mutate_each tb mutpb offspring g = (Ok off, g') -> Forall (on_genes V) off.
Proof.
  intros g off g' Hv. unfold mutate_each.
  apply comprehension_rand_forall.
  intros ind g0 y g1 Hin H. rewrite Forall_forall in Hv. specialize (Hv ind Hin).
  apply rbind_ok_inv in H. destruct H as (u & g2 & _ & H).
  destruct (Qlt_le_dec u mutpb).
  - apply rbind_ok_inv in H. destruct H as (c & g3 & Hc & H).
    apply ret_ok_inv in H. destruct H as [-> _].
    exact (mutate_keeps _ _ _ _ Hv Hc).
  - apply ret_ok_inv in H. destruct H as [-> _]. exact Hv.
Qed.

Lemma evaluate_invalid_keeps (population evaluated : list Individual) :
  Forall (on_genes V) population ->
  evaluate_invalid tb population = Ok evaluated -> Forall (on_genes V) evaluated.
Proof.
  intros Hv H.
  apply (comprehension_forall2 (fun a b => genes b = genes a)) in H.
  - induction H as [|a b l l' E _ IH]; [constructor|].
    inversion Hv; subst. constructor; [|now apply IH].
    unfold on_genes. now rewrite E.
  - intros x y _. destruct (fitness_valid x).
    + intros E. now inversion E.
    + destruct (evaluate tb (genes x)); cbn; intros E; [|discriminate E].
      now inversion E.
Qed.

Lemma ea_record_keeps (stats : Statistics) (s s' : ea_state) (g : Z)
  (offspring : list Individual) :
  Forall (on_genes V) (items (ea_halloffame s)) -> Forall (on_genes V) offspring ->
  ea_record tb stats s g offspring = Ok s' -> genes_invariant V s'.
Proof.
  intros Hh Ho H. unfold ea_record in H.
  destruct (evaluate_invalid tb offspring) as [ev|e] eqn:Ee; cbn in H;
    [|discriminate H].
  destruct (hof_update (ea_halloffame s) ev) as [hof|e] eqn:Eh; cbn in H;
    [|discriminate H].
  destruct (stats_compile stats ev); cbn in H; [|discriminate H].
  inversion H; subst. unfold genes_invariant. cbn.
  pose proof (evaluate_invalid_keeps _ _ Ho Ee) as Hev.
  split; [exact Hev|]. apply Forall_forall. intros y Hy.
  destruct (hof_update_items _ _ _ y Eh Hy) as [H1|H1].
  - rewrite Forall_forall in Hh. now apply Hh.
  - rewrite Forall_forall in Hev. now apply Hev.
Qed.

Lemma ea_generation_keeps (cxpb mutpb : Q) (stats : Statistics)
  (s s' : ea_state) (i : Z) (g g' : rng RS) :
  genes_invariant V s ->
  ea_generation tb cxpb mutpb stats s i g = (Ok s', g') -> genes_invariant V s'.
Proof.
  intros [Hp Hh] H. unfold ea_generation in H.
  apply rbind_ok_inv in H. destruct H as (sel & g1 & Hsel & H).
  apply rbind_ok_inv in H. destruct H as (off & g2 & Hvar & H).
  apply lift_ok_inv in H. destruct H as [H _].
  apply (ea_record_keeps stats s s' i off Hh); [|exact H].
  apply select_members in Hsel.
  assert (Hs : Forall (on_genes V) sel).
  { apply Forall_forall. intros x Hx. rewrite Forall_forall in Hsel, Hp.
    apply Hp. now apply Hsel. }
  unfold varAnd in Hvar.
  apply rbind_ok_inv in Hvar. destruct Hvar as (off1 & g3 & Hm & Hmu).
  apply (mutate_each_keeps mutpb off1 g3 off g2); [|exact Hmu].
  exact (mate_pairs_keeps cxpb sel g1 off1 g3 Hs Hm).
Qed.

Lemma eaSimple_keeps (population : list Individual) (cxpb mutpb : Q) (ngen : Z)
  (stats : Statistics) (hof : HallOfFame) (g g' : rng RS) (s : ea_state) :
  Forall (on_genes V) population -> Forall (on_genes V) (items hof) ->
  eaSimple population tb cxpb mutpb ngen stats hof g = (Ok s, g') ->
  genes_invariant V s.
Proof.
  intros Hp Hh H. unfold eaSimple in H.
  apply rbind_ok_inv in H. destruct H as (s0 & g1 & H0 & H).
  apply rbind_ok_inv in H. destruct H as (gens & g2 & _ & H).
  apply lift_ok_inv in H0. destruct H0 as [H0 _].
  apply (for_each_rand_invariant (genes_invariant V)
           (ea_generation tb cxpb mutpb stats) gens) with (s := s0)
    (g := g2) (g' := g'); [| |exact H].
  - intros s1 i g3 s2 g4 _ Hs1 Hstep.
    exact (ea_generation_keeps _ _ _ _ _ _ _ _ Hs1 Hstep).
  - exact (ea_record_keeps stats (mkEa population hof []) s0 0 population
             Hh Hp H0).
Qed.

End GenesInvariant.

Section SolverPermutations.

Context {RS : RandomSource}.

Lemma is_permutation_nonpos (n : Z) (l : list Z) :
  n <= 0 -> is_permutation n l -> l = [].
Proof.
  intros Hn H. unfold is_permutation, range in H.
  replace (Z.to_nat n) with 0%nat in H by lia. cbn in H.
  apply Permutation_sym in H. now apply Permutation_nil in H.
Qed.

Lemma cxPartialyMatched_keeps (n : Z) (a b : list Z) (g : rng RS)
  (c : list Z * list Z) (g' : rng RS) :
  is_permutation n a -> is_permutation n b ->
  cxPartialyMatched a b g = (Ok c, g') ->
  is_permutation n (fst c) /\ is_permutation n (snd c).
Proof.
  intros Ha Hb H. destruct (Z.le_gt_cases 1 n) as [Hn|Hn].
  - destruct (cxPartialyMatched_closure n a b g Hn Ha Hb)
      as (c1 & c2 & g1 & E & H1 & H2).
    rewrite E in H. inversion H; subst. now split.
  - rewrite (is_permutation_nonpos n a) in H by (lia || assumption).
    rewrite (is_permutation_nonpos n b) in H by (lia || assumption).
    pose proof (cxPartialyMatched_empty g) as E. rewrite H in E. discriminate E.
Qed.

Lemma mutShuffleIndexes_keeps (indpb : Q) (n : Z) (a : list Z) (g : rng RS)
  (c : list Z) (g' : rng RS) :
  is_permutation n a ->
  mutShuffleIndexes indpb a g = (Ok c, g') -> is_permutation n c.
Proof.
  intros Ha H.
  destruct (mutShuffleIndexes_closure indpb a g) as [(l & g1 & E & P)|(_ & g1 & E)].
  - rewrite E in H. inversion H; subst. unfold is_permutation. now rewrite P.
  - rewrite E in H. discriminate H.
Qed.

Variable self : VRPSolver Point.

(** Initialisation never fails and yields unevaluated permutations. *)
Lemma population_valid (k : Z) (g : rng RS) :
  exists pop g',
    population self k g = (Ok pop, g') /\
    Forall (fun ind => valid_individual (num_locations self) ind
                       /\ wvalues ind = []) pop /\
    length pop = Z.to_nat k.
Proof.
  unfold population.
  destruct (comprehension_rand_total (RS := RS)
              (fun ind => valid_individual (num_locations self) ind
                          /\ wvalues ind = [])
              (fun _ : Z => individual self) (range k)) with (g := g)
    as (pop & g' & E & Hv & Hl).
  - intros _ g0 _. unfold individual, indices.
    destruct (random_sample_all_perm (range (num_locations self)) g0)
      as (res & g1 & E & P).
    exists (mkIndividual res []), g1. unfold rbind. rewrite E.
    split; [reflexivity|]. split; [exact P | reflexivity].
  - exists pop, g'. split; [exact E|]. split; [exact Hv|].
    now rewrite Hl, range_length.
Qed.

(** Every individual [solve] returns is a permutation of the location
    indices. *)
Lemma solve_returns_permutations (args : SolveArgs) (g g' : rng RS)
  (r : SolveResult) :
  solve self args g = (Ok r, g') ->
  Forall (valid_individual (num_locations self)) (final_population r) /\
  valid_individual (num_locations self) (best_individual r) /\
  Forall (valid_individual (num_locations self)) (items (hall_of_fame r)).
Proof.
  intros H. unfold solve in H.
  apply rbind_ok_inv in H. destruct H as ([] & g1 & _ & H).
  apply rbind_ok_inv in H. destruct H as (pop & g2 & Hpop & H).
  apply rbind_ok_inv in H. destruct H as (s & g3 & Hea & H).
  apply rbind_ok_inv in H. destruct H as (best & g4 & Hbest & H).
  apply ret_ok_inv in H. destruct H as [-> _]. cbn.
  apply lift_ok_inv in Hbest. destruct Hbest as [Hbest _].
  destruct (population_valid (pop_size args) g1) as (pop' & g2' & E & Hv & _).
  rewrite E in Hpop. inversion Hpop; subst pop' g2'.
  destruct (eaSimple_keeps (is_permutation (num_locations self))
              (toolbox self (tournsize args))
              (fun a b g c g' => cxPartialyMatched_keeps _ a b g c g')
              (fun a g c g' => mutShuffleIndexes_keeps _ _ a g c g')
              (fun pop k g chosen g' => selTournament_in _ pop k g g' chosen)
              pop (cxpb args) (mutpb args) (ngen args) (solve_stats)
              (mkHallOfFame 1 [] []) g2 g3 s) as [Hp Hh].
  - apply Forall_forall. intros x Hx. rewrite Forall_forall in Hv.
    now apply Hv.
  - constructor.
  - exact Hea.
  - split; [exact Hp|]. split; [|exact Hh].
    rewrite Forall_forall in Hh. apply Hh. now apply getitem_in in Hbest.
Qed.

End SolverPermutations.

(** C6.  Every individual produced at a stage of a run is a permutation of
    [0, ..., num_locations - 1]: initialisation always returns such
    individuals; partially matched crossover of two permutations of the
    same length [n >= 1] returns two permutations of that length (on an
    empty instance it returns nothing: drawing the second cut point
    raises); the shuffle mutation of a permutation returns a permutation
    unless it raises, which happens only with a single location; and all
    the individuals [solve] returns are permutations. *)
Theorem permutation_invariant :
  forall (RS : RandomSource),
    (forall (self : VRPSolver Point) (k : Z) (g : rng RS),
        exists pop g',
          population self k g = (Ok pop, g') /\
          Forall (valid_individual (num_locations self)) pop) /\
    (forall (n : Z) (ind1 ind2 : list Z) (g : rng RS),
        is_permutation n ind1 -> is_permutation n ind2 ->
        (1 <= n ->
         exists c1 c2 g',
           cxPartialyMatched ind1 ind2 g = (Ok (c1, c2), g') /\
           is_permutation n c1 /\ is_permutation n c2) /\
        (forall c g', cxPartialyMatched ind1 ind2 g = (Ok c, g') ->
                      is_permutation n (fst c) /\ is_permutation n (snd c))) /\
    (forall (n : Z) (ind : list Z) (g : rng RS),
        is_permutation n ind ->
        (n <> 1 ->
         exists c g',
           mutShuffleIndexes indpb_default ind g = (Ok c, g') /\
           is_permutation n c) /\
        (forall c g', mutShuffleIndexes indpb_default ind g = (Ok c, g') ->
                      is_permutation n c)) /\
    (forall (self : VRPSolver Point) (args : SolveArgs) (g g' : rng RS)
            (r : SolveResult),
        solve self args g = (Ok r, g') ->
        Forall (valid_individual (num_locations self)) (final_population r) /\
        valid_individual (num_locations self) (best_individual r)).
Proof.
  intros RS. split; [|split; [|split]].
  - intros self k g.
    destruct (population_valid self k g) as (pop & g' & E & Hv & _).
    exists pop, g'. split; [exact E|].
    apply Forall_forall. intros x Hx. rewrite Forall_forall in Hv.
    now apply Hv.
  - intros n ind1 ind2 g H1 H2. split.
    + intros Hn. now apply cxPartialyMatched_closure.
    + intros c g'. now apply cxPartialyMatched_keeps.
  - intros n ind g Hp. split.
    + intros Hn.
      destruct (mutShuffleIndexes_closure indpb_default ind g)
        as [(l & g1 & E & P)|(Hl & _)].
      * exists l, g1. split; [exact E|]. unfold is_permutation. now rewrite P.
      * exfalso. apply Hn.
        destruct (Z.le_gt_cases 0 n) as [H0|H0].
        -- now rewrite <- (is_permutation_len n ind H0 Hp).
        -- rewrite (is_permutation_nonpos n ind) in Hl by (lia || assumption).
           discriminate Hl.
    + intros c g'. now apply mutShuffleIndexes_keeps.
  - intros self args g g' r H.
    destruct (solve_returns_permutations self args g g' r H) as (A & B & _).
    now split.
Qed.

Lemma permutation_invariant_witness :
  exists c1 c2 g',
    cxPartialyMatched (RS := digit_source) [0; 1; 2] [2; 0; 1] 102
    = (Ok (c1, c2), g') /\
    is_permutation 3 c1 /\ is_permutation 3 c2.
Proof.
  apply (proj1 (proj1 (proj2 (permutation_invariant digit_source))
                      3 [0; 1; 2] [2; 0; 1] 102
                      (Permutation_refl _)
                      (Permutation_cons_app [0; 1] [] 2 (Permutation_refl _)))).
  lia.
Defined.

(** ** Reproducibility *)

(** C8.  [solve] begins by installing the generator state of the
    configured seed, and nothing it does afterwards depends on the state
    it found: two calls with the same instance and the same arguments
    return the same tuple (best individual, final population, statistics,
    hall of fame) and leave the same generator state, whatever the
    generator state before each call; in particular a second call made
    right after a first one repeats its result. *)
Theorem solve_reproducible :
  forall (RS : RandomSource) (self : VRPSolver Point) (args : SolveArgs),
    (forall g1 g2 : rng RS, solve self args g1 = solve self args g2) /\
    (forall g : rng RS,
        solve self args (snd (solve self args g)) = solve self args g) /\
    (forall g : rng RS,
        solve self args g
        = solve self args (seed_state RS (seed args))).
Proof.
  intros RS self args.
  assert (H : forall g1 g2 : rng RS, solve self args g1 = solve self args g2)
    by reflexivity.
  split; [exact H|]. split; intros g; apply H.
Qed.

(** ** Runs without generations *)

Lemma is_permutation_indices_in_range (self : VRPSolver Point) (l : list Z) :
  is_permutation (num_locations self) l -> indices_in_range self l.
Proof.
  intros H. apply Forall_forall. intros v Hv.
  now apply (is_permutation_in _ l v H).
Qed.

(** The evaluator returns on every permutation, whatever the number of
    vehicles; the total distance is a real, the penalty is a float. *)
Lemma evaluate_vrp_total (self : VRPSolver Point) (l : list Z) :
  is_permutation (num_locations self) l ->
  exists d p, _evaluate_vrp self l = Ok (Some d, p).
Proof.
  intros H. destruct (Z.le_gt_cases 1 (num_vehicles self)) as [Hnv|Hnv].
  - do 2 eexists. apply evaluate_vrp_by_modulo; [exact Hnv|].
    now apply is_permutation_indices_in_range.
  - unfold _evaluate_vrp, range.
    replace (Z.to_nat (num_vehicles self)) with 0%nat by lia.
    cbn. now do 2 eexists.
Qed.

Lemma hof_update_loop_total (population : list Individual) (h : Individual)
  (xs : list Individual) :
  exists h', for_each xs (hof_update_one population) (hall_of h) = Ok (hall_of h').
Proof.
  revert h. induction xs as [|x xs IH]; intros h; cbn [for_each].
  - now exists h.
  - rewrite hof_update_one_member. cbn [Py.bind].
    destruct (fitness_gt x h && negb (similar x h)); apply IH.
Qed.

(** Updating an empty hall of size 1 with a population that is not empty
    leaves a hall with one member. *)
Lemma hof_update_total (population : list Individual) :
  population <> [] ->
  exists h', hof_update (mkHallOfFame 1 [] []) population = Ok (hall_of h').
Proof.
  intros Hne. destruct population as [|first rest]; [congruence|].
  unfold hof_update. cbn [for_each]. rewrite hof_update_one_empty.
  change (getitem (first :: rest) 0) with (Ok first).
  cbn [Py.bind]. apply hof_update_loop_total.
Qed.

Lemma stats_compile_total (ev : list Individual) :
  ev <> [] -> Forall (fun ind => length (wvalues ind) = 2%nat) ev ->
  exists record, stats_compile (solve_stats) ev = Ok record.
Proof.
  intros Hne Hw. destruct ev as [|first rest]; [congruence|].
  inversion Hw as [|? ? Hf _]; subst.
  destruct (wvalues first) as [|a [|b [|c w]]] eqn:E; try discriminate Hf.
  assert (Hc : exists x r, concat (map fitness_values (first :: rest)) = x :: r).
  { cbn [map concat]. unfold fitness_values at 1. rewrite E. cbn. eauto. }
  destruct Hc as (x & r & Hc).
  unfold stats_compile, solve_stats. cbn [functions comprehension fst snd].
  unfold np_mean, np_min, np_max. rewrite Hc. cbn [Py.bind]. eauto.
Qed.

Section NoGeneration.

Context {RS : RandomSource}.
Variable self : VRPSolver Point.

Lemma evaluate_invalid_fresh (t : Z) (pop : list Individual) :
  Forall (fun ind => valid_individual (num_locations self) ind
                     /\ wvalues ind = []) pop ->
  exists ev,
    evaluate_invalid (toolbox (RS := RS) self t) pop = Ok ev /\
    length ev = length pop /\
    Forall (fun ind => length (wvalues ind) = 2%nat) ev.
Proof.
  induction pop as [|ind pop IH]; intros Hv.
  - exists []. repeat split. constructor.
  - inversion Hv as [|? ? [Hp Hw] Hv']; subst.
    destruct (IH Hv') as (ev & E & Hl & Hw2).
    destruct (evaluate_vrp_total self (genes ind) Hp) as (d & p & Ed).
    unfold evaluate_invalid in *. cbn [comprehension].
    unfold fitness_valid at 1. rewrite Hw. cbn [len length Z.of_nat Z.eqb negb].
    change (evaluate (toolbox self t) (genes ind))
      with (_evaluate_vrp self (genes ind)).
    rewrite Ed. cbn [Py.bind]. rewrite E. cbn [Py.bind].
    eexists. split; [reflexivity|]. split; [cbn; now rewrite Hl|].
    constructor; [reflexivity | exact Hw2].
Qed.

(** With [ngen <= 0] and [pop_size >= 1], [solve] returns normally:
    [tournsize], [cxpb] and [mutpb] are not even consulted, and neither
    the number of locations nor the number of vehicles is checked. *)
Lemma solve_no_generation (args : SolveArgs) (g : rng RS) :
  1 <= pop_size args -> ngen args <= 0 ->
  exists r g',
    solve self args g = (Ok r, g') /\
    len (final_population r) = pop_size args /\
    stats r = solve_stats.
Proof.
  intros Hpop Hgen. unfold solve.
  unfold rbind at 1, random_seed at 1.
  destruct (population_valid self (pop_size args) (seed_state RS (seed args)))
    as (pop & g1 & Ep & Hv & Hl).
  unfold rbind at 1. rewrite Ep.
  destruct (evaluate_invalid_fresh (tournsize args) pop Hv) as (ev & Ee & Hle & Hw).
  assert (Hne : ev <> []).
  { intros C. rewrite C in Hle. cbn in Hle. lia. }
  destruct (hof_update_total ev Hne) as (h & Eh).
  destruct (stats_compile_total ev Hne Hw) as (record & Es).
  unfold eaSimple, rbind at 1, rbind at 1, lift at 1, ea_record.
  cbn [ea_halloffame ea_logbook]. rewrite Ee. cbn [Py.bind].
  rewrite Eh. cbn [Py.bind]. rewrite Es. cbn [Py.bind].
  unfold rbind at 1, lift at 1, range3, range_len.
  cbn [Z.eqb Z.ltb Z.compare andb].
  destruct (Z.ltb_spec 1 (ngen args + 1)); [lia|]. cbn [Z.to_nat seq map].
  cbn [for_each_rand]. unfold ret at 1.
  unfold rbind at 1, lift at 1. cbn [ea_halloffame items hall_of getitem].
  cbn. eexists _, g1. split; [reflexivity|]. cbn.
  split; [unfold len; lia | reflexivity].
Qed.

End NoGeneration.

(** ** What becomes of the statistics *)

Lemma stats_compile_fields (st : Statistics) (data : list Individual)
  (record : list (string * float)) :
  stats_compile st data = Ok record ->
  map fst record = map fst (functions st).
Proof.
  unfold stats_compile. generalize (map fitness_values data) as values.
  intros values. revert record.
  induction (functions st) as [|f fs IH]; intros record H; cbn in H.
  - now inversion H.
  - destruct (snd f values); cbn in H; [|discriminate H].
    destruct (comprehension _ fs) as [ys|e]; cbn in H; [|discriminate H].
    inversion H; subst. cbn. f_equal. now apply IH.
Qed.

Section LogbookFacts.

Context {RS : RandomSource}.
Variable tb : Toolbox RS.
Variable st : Statistics.

Lemma ea_record_logged (s s' : ea_state) (g : Z) (offspring : list Individual)
  (gens : list Z) :
  well_logged st gens (ea_logbook s) ->
  ea_record tb st s g offspring = Ok s' ->
  well_logged st (gens ++ [g]) (ea_logbook s').
Proof.
  intros [Hg Hf] H. unfold ea_record in H.
  destruct (evaluate_invalid tb offspring); cbn in H; [|discriminate H].
  destruct (hof_update _ _); cbn in H; [|discriminate H].
  destruct (stats_compile st _) as [record|e] eqn:E; cbn in H; [|discriminate H].
  inversion H; subst. cbn. split.
  - now rewrite map_app.
  - apply Forall_app. split; [exact Hf|]. constructor; [|constructor].
    cbn. now apply stats_compile_fields in E.
Qed.

Lemma ea_loop_logged (cxpb mutpb : Q) (todo : list Z) :
  forall (s s' : ea_state) (g g' : rng RS) (gens : list Z),
    well_logged st gens (ea_logbook s) ->
    for_each_rand todo (ea_generation tb cxpb mutpb st) s g = (Ok s', g') ->
    well_logged st (gens ++ todo) (ea_logbook s').
Proof.
  induction todo as [|i todo IH]; intros s s' g g' gens Hl H; cbn in H.
  - apply ret_ok_inv in H. destruct H as [-> _]. now rewrite app_nil_r.
  - apply rbind_ok_inv in H. destruct H as (s1 & g1 & Hstep & H).
    unfold ea_generation in Hstep.
    apply rbind_ok_inv in Hstep. destruct Hstep as (sel & g2 & _ & Hstep).
    apply rbind_ok_inv in Hstep. destruct Hstep as (off & g3 & _ & Hstep).
    apply lift_ok_inv in Hstep. destruct Hstep as [Hstep _].
    pose proof (ea_record_logged s s1 i off gens Hl Hstep) as Hl1.
    replace (gens ++ i :: todo) with ((gens ++ [i]) ++ todo)
      by (now rewrite <- app_assoc).
    exact (IH s1 s' g1 g' (gens ++ [i]) Hl1 H).
Qed.

Lemma range3_generations (ngen : Z) :
  exists gens, range3 1 (ngen + 1) 1 = Ok gens /\
               0 :: gens = range (Z.max 0 ngen + 1).
Proof.
  unfold range3, range_len. cbn [Z.eqb Z.ltb Z.compare andb].
  eexists. split; [reflexivity|].
  destruct (Z.ltb_spec 1 (ngen + 1)) as [H|H].
  - rewrite Z.div_1_r. unfold range.
    replace (Z.to_nat (Z.max 0 ngen + 1)) with (S (Z.to_nat ngen)) by lia.
    replace (Z.to_nat (1 + (ngen + 1 - 1 - 1))) with (Z.to_nat ngen) by lia.
    cbn [seq map]. f_equal. rewrite <- seq_shift, map_map.
    apply map_ext. intros k. lia.
  - unfold range.
    replace (Z.to_nat (Z.max 0 ngen + 1)) with 1%nat by lia. reflexivity.
Qed.

(** The logbook [eaSimple] builds has one record per generation, numbered
    [0, ..., ngen], each with the registered statistics. *)
Lemma eaSimple_logbook (population : list Individual) (cxpb mutpb : Q)
  (ngen : Z) (hof : HallOfFame) (g g' : rng RS) (s : ea_state) :
  eaSimple population tb cxpb mutpb ngen st hof g = (Ok s, g') ->
  well_logged st (range (Z.max 0 ngen + 1)) (ea_logbook s).
Proof.
  intros H. unfold eaSimple in H.
  apply rbind_ok_inv in H. destruct H as (s0 & g1 & H0 & H).
  apply rbind_ok_inv in H. destruct H as (gens & g2 & Hg & H).
  apply lift_ok_inv in H0. destruct H0 as [H0 _].
  apply lift_ok_inv in Hg. destruct Hg as [Hg _].
  destruct (range3_generations ngen) as (gens' & Eg & Er).
  rewrite Eg in Hg. inversion Hg; subst gens'. rewrite <- Er.
  apply (ea_record_logged _ s0 0 population []) in H0;
    [|split; [reflexivity | constructor]].
  exact (ea_loop_logged cxpb mutpb gens s0 s g2 g' [0] H0 H).
Qed.

End LogbookFacts.

Section SolveStatistics.

Context {RS : RandomSource}.
Variable self : VRPSolver Point.

Lemma solve_stats_constant (args : SolveArgs) (g g' : rng RS) (r : SolveResult) :
  solve self args g = (Ok r, g') -> stats r = solve_stats.
Proof.
  intros H. unfold solve in H.
  apply rbind_ok_inv in H. destruct H as ([] & g1 & _ & H).
  apply rbind_ok_inv in H. destruct H as (pop & g2 & _ & H).
  apply rbind_ok_inv in H. destruct H as (s & g3 & _ & H).
  apply rbind_ok_inv in H. destruct H as (best & g4 & _ & H).
  apply ret_ok_inv in H. destruct H as [-> _]. reflexivity.
Qed.

End SolveStatistics.

(** C2.  The statistics value [solve] returns is not a history: it is the
    [Statistics] object on which [avg], [min] and [max] were registered
    before the run, the same object whatever the number of generations.
    The per-generation history (one record per generation [0, ..., ngen],
    each with [avg], [min] and [max]) is the logbook that [eaSimple]
    builds and returns, and [solve] drops that return value. *)
Theorem solve_returns_statistics_object :
  forall (RS : RandomSource) (self : VRPSolver Point),
    (forall (args : SolveArgs) (g g' : rng RS) (r : SolveResult),
        solve self args g = (Ok r, g') -> stats r = solve_stats) /\
    (forall (args : SolveArgs) (pop : list Individual) (hof : HallOfFame)
            (g g' : rng RS) (s : ea_state),
        eaSimple pop (toolbox self (tournsize args)) (cxpb args) (mutpb args)
                 (ngen args) solve_stats hof g = (Ok s, g') ->
        well_logged solve_stats (range (Z.max 0 (ngen args) + 1))
                    (ea_logbook s)).
Proof.
  intros RS self. split.
  - intros args g g' r. apply solve_stats_constant.
  - intros args pop hof g g' s. apply eaSimple_logbook.
Qed.

(** A run without generations: the statistics returned are the functions
    registered, not a record of generation 0. *)
Lemma solve_returns_statistics_object_witness :
  exists r g',
    solve (RS := digit_source) (mkSolver [(1, 0); (1, 0)]%R (0, 0)%R 2)
          (mkArgs 1 (1 # 2) 1 0 1 0) 0 = (Ok r, g') /\
    stats r = solve_stats.
Proof.
  destruct (solve_no_generation (RS := digit_source)
              (mkSolver [(1, 0); (1, 0)]%R (0, 0)%R 2)
              (mkArgs 1 (1 # 2) 1 0 1 0) 0) as (r & g' & E & _).
  - cbn. lia.
  - cbn. lia.
  - exists r, g'. split; [exact E|].
    exact (proj1 (solve_returns_statistics_object digit_source _) _ _ _ _ E).
Defined.

(** ** Validation of the arguments *)

Section TournamentTotal.

Context {RS : RandomSource}.

Lemma rbind_ok {A B} (c : Rand RS A) (k : A -> Rand RS B) (g g1 : rng RS)
  (a : A) :
  c g = (Ok a, g1) -> rbind c k g = k a g1.
Proof. intros H. unfold rbind. now rewrite H. Qed.

Lemma random_choice_total {A} (seq : list A) (g : rng RS) :
  seq <> [] -> exists x g', random_choice seq g = (Ok x, g') /\ In x seq.
Proof.
  intros Hne. unfold random_choice.
  assert (Hl : 0 < len seq).
  { destruct seq; [congruence | unfold len; cbn; lia]. }
  destruct (Z.eqb_spec (len seq) 0); [lia|].
  unfold rbind, py_randbelow, lift.
  pose proof (randbelow_range RS (len seq) g Hl) as Hr.
  destruct (randbelow RS (len seq) g) as [i g1]. cbn [fst] in Hr.
  destruct seq as [|d seq']; [congruence|].
  rewrite (getitem_nth (d :: seq') i d Hr).
  eexists _, g1. split; [reflexivity|]. apply nth_In. unfold len in Hr. lia.
Qed.

(** A tournament needs a population that is not empty and at least one
    aspirant; the population may be smaller than the tournament, since
    the aspirants are drawn with replacement. *)
Lemma selTournament_total (tournsize : Z) (individuals : list Individual)
  (k : Z) (g : rng RS) :
  individuals <> [] -> 1 <= tournsize ->
  exists chosen g',
    selTournament tournsize individuals k g = (Ok chosen, g') /\
    len chosen = Z.max 0 k /\
    Forall (fun x => In x individuals) chosen.
Proof.
  intros Hne Ht. unfold selTournament.
  assert (Hloop : forall (todo : list Z) (acc : list Individual) (g0 : rng RS),
             exists chosen g',
               for_each_rand todo
                 (fun chosen _ =>
                    aspirants <~ selRandom individuals tournsize ;;
                    winner <~ lift (max_by_fitness aspirants) ;;
                    ret (chosen ++ [winner])) acc g0 = (Ok chosen, g') /\
               length chosen = (length acc + length todo)%nat).
  { induction todo as [|i todo IH]; intros acc g0; cbn [for_each_rand].
    - exists acc, g0. split; [reflexivity | cbn; lia].
    - destruct (comprehension_rand_total (RS := RS)
                  (fun x => In x individuals)
                  (fun _ : Z => random_choice individuals) (range tournsize))
        with (g := g0) as (aspirants & g1 & Ea & _ & Hl).
      { intros _ g2 _. now apply random_choice_total. }
      rewrite range_length in Hl.
      destruct aspirants as [|first others]; [cbn in Hl; lia|].
      set (winner := fold_left
                       (fun best item =>
                          if fitness_gt item best then item else best)
                       others first).
      assert (Eb : (aspirants <~ selRandom individuals tournsize ;;
                    winner <~ lift (max_by_fitness aspirants) ;;
                    ret (acc ++ [winner])) g0 = (Ok (acc ++ [winner]), g1)).
      { rewrite (rbind_ok (selRandom individuals tournsize) _ g0 g1 _ Ea).
        reflexivity. }
      rewrite (rbind_ok _ _ g0 g1 _ Eb).
      destruct (IH (acc ++ [winner]) g1) as (chosen & g' & E & Hlen).
      exists chosen, g'. split; [exact E|].
      rewrite length_app in Hlen. cbn in Hlen. cbn. lia. }
  destruct (Hloop (range k) [] g) as (chosen & g' & E & Hlen).
  exists chosen, g'. split; [exact E|]. split.
  - unfold len. rewrite Hlen, range_length. cbn. lia.
  - exact (selTournament_in tournsize individuals k g g' chosen E).
Qed.

End TournamentTotal.

(** C1, as the code has it.  [solve] validates nothing: whenever
    [pop_size >= 1] and [ngen <= 0] it returns normally, with [pop_size]
    evaluated individuals, whatever [tournsize], [cxpb], [mutpb], the
    number of locations and the number of vehicles.  A population smaller
    than the tournament, probabilities outside [0, 1], a negative number
    of generations, an instance without locations and a fleet without
    vehicles are all accepted.  Nor does the selection step reject a
    population smaller than the tournament: the aspirants are drawn with
    replacement. *)
Theorem solve_does_not_validate :
  forall (RS : RandomSource),
    (forall (self : VRPSolver Point) (args : SolveArgs) (g : rng RS),
        1 <= pop_size args -> ngen args <= 0 ->
        exists r g',
          solve self args g = (Ok r, g') /\
          len (final_population r) = pop_size args) /\
    (forall (tournsize : Z) (individuals : list Individual) (g : rng RS),
        individuals <> [] -> 1 <= tournsize ->
        exists chosen g',
          selTournament tournsize individuals (len individuals) g
          = (Ok chosen, g') /\
          len chosen = len individuals /\
          Forall (fun x => In x individuals) chosen).
Proof.
  intros RS. split.
  - intros self args g Hp Hn.
    destruct (solve_no_generation self args g Hp Hn) as (r & g' & E & Hl & _).
    now exists r, g'.
  - intros tournsize individuals g Hne Ht.
    destruct (selTournament_total tournsize individuals (len individuals) g
                Hne Ht) as (chosen & g' & E & Hl & Hin).
    exists chosen, g'. split; [exact E|]. split; [|exact Hin].
    rewrite Hl. pose proof (len_nonneg individuals). lia.
Qed.

Lemma solve_does_not_validate_witness :
  exists r g',
    solve (RS := digit_source) (mkSolver [] (0, 0)%R 0)
          (mkArgs 2 (3 # 2) (-1 # 2) (-5) 7 42) 0 = (Ok r, g') /\
    len (final_population r) = 2.
Proof.
  apply (proj1 (solve_does_not_validate digit_source) (mkSolver [] (0, 0)%R 0)
           (mkArgs 2 (3 # 2) (-1 # 2) (-5) 7 42) 0).
  - cbn. lia.
  - cbn. lia.
Defined.

(** Inputs the specification calls invalid, one defect each, on which
    [solve] returns normally: a population of 1 for a tournament of 3; a
    crossover probability of 3/2; a mutation probability of -1/2; -1
    generations; no vehicle; no location. *)
Lemma solve_accepts_invalid_input :
  let two := mkSolver [(1, 0); (1, 0)]%R (0, 0)%R 2 in
  let runs (self : VRPSolver Point) (args : SolveArgs) :=
    is_ok (fst (solve (RS := digit_source) self args 0)) = true in
  runs two (mkArgs 1 (7 # 10) (2 # 10) 0 3 42) /\
  runs two (mkArgs 4 (3 # 2) (2 # 10) 0 3 42) /\
  runs two (mkArgs 4 (7 # 10) (-1 # 2) 0 3 42) /\
  runs two (mkArgs 4 (7 # 10) (2 # 10) (-1) 3 42) /\
  runs (mkSolver [(1, 0); (1, 0)]%R (0, 0)%R 0)
       (mkArgs 4 (7 # 10) (2 # 10) 0 3 42) /\
  runs (mkSolver [] (0, 0)%R 2) (mkArgs 4 (7 # 10) (2 # 10) 0 3 42).
Proof.
  assert (H : forall self args,
             1 <= pop_size args -> ngen args <= 0 ->
             is_ok (fst (solve (RS := digit_source) self args 0)) = true).
  { intros self args Hp Hn.
    destruct (solve_no_generation (RS := digit_source) self args 0 Hp Hn)
      as (r & g' & E & _).
    now rewrite E. }
  cbv zeta. repeat split; apply H; cbn; lia.
Qed.

(** ** The hall of fame along a run *)

Section HallFacts.

Variable ev : list Z -> result (float * float).

Lemma consistent_evaluated (ind : Individual) :
  consistent ev ind -> evaluated ind.
Proof. intros (f & _ & H). now exists f. Qed.

(** Two evaluated individuals with the same list have the same fitness:
    neither beats the other. *)
Lemma consistent_similar (a b : Individual) :
  consistent ev a -> consistent ev b -> similar a b = true ->
  fitness_gt a b = false.
Proof.
  intros (fa & Ea & Ha) (fb & Eb & Hb) Hs. unfold similar in Hs.
  destruct (list_eq_dec Z.eq_dec (genes a) (genes b)) as [E|E];
    [|discriminate Hs].
  rewrite E, Eb in Ea. inversion Ea as [[E1 E2]].
  destruct (fitness_gt a b) eqn:G; [|reflexivity].
  apply (fitness_gt_lex a b fa fb Ha Hb) in G.
  exfalso. unfold lex_lt in G. rewrite E1, E2 in G.
  destruct G as [G|[_ G]]; lra.
Qed.

(** The loop of [update] on a hall that has a member: the member it ends
    with is not beaten by any individual shown, nor by the former
    member. *)
Lemma hof_update_loop_best (population xs : list Individual) :
  forall (h : Individual) (seen : list Individual),
    consistent ev h -> Forall (consistent ev) xs ->
    Forall (consistent ev) seen ->
    (forall x, In x seen -> fitness_gt x h = false) ->
    exists h',
      for_each xs (hof_update_one population) (hall_of h) = Ok (hall_of h') /\
      consistent ev h' /\ (h' = h \/ In h' xs) /\
      fitness_gt h h' = false /\
      forall x, In x seen \/ In x xs -> fitness_gt x h' = false.
Proof.
  induction xs as [|ind xs IH]; intros h seen Hh Hxs Hseen Hbest.
  - exists h. split; [reflexivity|]. split; [exact Hh|]. split; [now left|].
    split; [apply fitness_gt_irrefl; now apply consistent_evaluated|].
    intros x [Hx|[]]. now apply Hbest.
  - inversion Hxs as [|? ? Hind Hxs']; subst.
    cbn [for_each]. rewrite hof_update_one_member. cbn [Py.bind].
    pose proof (consistent_evaluated _ Hh) as Eh.
    pose proof (consistent_evaluated _ Hind) as Ei.
    destruct (fitness_gt ind h) eqn:G; cbn [andb].
    + destruct (similar ind h) eqn:S; cbn [negb].
      * rewrite (consistent_similar ind h Hind Hh S) in G. discriminate G.
      * destruct (IH ind (h :: seen) Hind Hxs') as (h' & E & Hc & Hin & Hm & Hb).
        -- now constructor.
        -- intros x [<-|Hx].
           ++ destruct (fitness_gt h ind) eqn:G'; [|reflexivity].
              destruct Hh as (fh & _ & Hfh). destruct Hind as (fi & _ & Hfi).
              apply (fitness_gt_lex _ _ _ _ Hfi Hfh) in G.
              apply (fitness_gt_lex _ _ _ _ Hfh Hfi) in G'.
              exfalso. apply (lex_lt_irrefl fi). eapply lex_lt_trans; eassumption.
           ++ apply (fitness_gt_false_trans h ind x); auto.
              rewrite Forall_forall in Hseen.
              apply consistent_evaluated. now apply Hseen.
        -- exists h'. split; [exact E|]. split; [exact Hc|].
           split; [destruct Hin as [->|Hin]; right; [now left | now right]|].
           split; [apply Hb; left; now left|].
           intros x [Hx|[<-|Hx]].
           ++ apply Hb. left. now right.
           ++ destruct Hin as [->|Hin]; [now apply fitness_gt_irrefl|].
              exact Hm.
           ++ apply Hb. now right.
    + destruct (IH h (ind :: seen) Hh Hxs') as (h' & E & Hc & Hin & Hm & Hb).
      * now constructor.
      * intros x [<-|Hx]; [exact G | now apply Hbest].
      * exists h'. split; [exact E|]. split; [exact Hc|].
        split; [destruct Hin as [->|Hin]; [now left | right; now right]|].
        split; [exact Hm|].
        intros x [Hx|[<-|Hx]].
        -- apply Hb. left. now right.
        -- apply Hb. left. now left.
        -- apply Hb. now right.
Qed.

Lemma hof_update_member (h : Individual) (population : list Individual) :
  consistent ev h -> Forall (consistent ev) population ->
  exists h',
    hof_update (hall_of h) population = Ok (hall_of h') /\
    consistent ev h' /\ (h' = h \/ In h' population) /\
    fitness_gt h h' = false /\
    forall x, In x population -> fitness_gt x h' = false.
Proof.
  intros Hh Hp.
  destruct (hof_update_loop_best population population h [] Hh Hp
              (Forall_nil _) ltac:(intros x []))
    as (h' & E & Hc & Hin & Hm & Hb).
  exists h'. split; [exact E|]. split; [exact Hc|]. split; [exact Hin|].
  split; [exact Hm|]. intros x Hx. apply Hb. now right.
Qed.

Lemma hof_update_first (population : list Individual) :
  population <> [] -> Forall (consistent ev) population ->
  exists h',
    hof_update (mkHallOfFame 1 [] []) population = Ok (hall_of h') /\
    consistent ev h' /\ In h' population /\
    forall x, In x population -> fitness_gt x h' = false.
Proof.
  intros Hne Hp. destruct population as [|first rest]; [congruence|].
  inversion Hp as [|? ? Hf Hr]; subst.
  unfold hof_update. cbn [for_each]. rewrite hof_update_one_empty.
  change (getitem (first :: rest) 0) with (Ok first). cbn [Py.bind].
  destruct (hof_update_loop_best (first :: rest) rest first [first] Hf Hr)
    as (h' & E & Hc & Hin & Hm & Hb).
  - now constructor.
  - intros x [<-|[]]. apply fitness_gt_irrefl. now apply consistent_evaluated.
  - exists h'. split; [exact E|]. split; [exact Hc|].
    split; [destruct Hin as [->|Hin]; [now left | now right]|].
    intros x [<-|Hx]; apply Hb; [left; now left | now right].
Qed.

End HallFacts.

Section HallRun.

Context {RS : RandomSource}.
Variable tb : Toolbox RS.

Hypothesis evaluate_finite : forall l d p,
  evaluate tb l = Ok (d, p) -> exists x y, d = Some x /\ p = Some y.
Hypothesis select_members : forall pop k g chosen g',
  select tb pop k g = (Ok chosen, g') -> Forall (fun x => In x pop) chosen.

Lemma consistent_valid (ind : Individual) :
  consistent (evaluate tb) ind -> fitness_valid ind = true.
Proof.
  intros (f & _ & H). unfold has_fitness in H. cbn in H.
  unfold fitness_valid. now rewrite H.
Qed.

Lemma evaluate_invalid_consistent (offspring evaluated : list Individual) :
  Forall (fresh_or_consistent (evaluate tb)) offspring ->
  evaluate_invalid tb offspring = Ok evaluated ->
  Forall (consistent (evaluate tb)) evaluated /\
  length evaluated = length offspring.
Proof.
  unfold evaluate_invalid. revert evaluated.
  induction offspring as [|ind offspring IH]; intros evaluated Hf H; cbn in H.
  - inversion H. split; [constructor | reflexivity].
  - inversion Hf as [|? ? Hind Hf']; subst.
    destruct (fitness_valid ind) eqn:V.
    + cbn in H.
      destruct (comprehension _ offspring) as [ys|e]; cbn in H; [|discriminate H].
      inversion H; subst. destruct (IH ys Hf' eq_refl) as [A B].
      split; [|cbn; now rewrite B]. constructor; [|exact A].
      destruct Hind as [Hw|Hc]; [|exact Hc].
      unfold fitness_valid in V. rewrite Hw in V. discriminate V.
    + destruct (evaluate tb (genes ind)) as [[d p]|e] eqn:E; cbn in H;
        [|discriminate H].
      destruct (comprehension _ offspring) as [ys|e]; cbn in H; [|discriminate H].
      inversion H; subst. destruct (IH ys Hf' eq_refl) as [A B].
      split; [|cbn; now rewrite B]. constructor; [|exact A].
      destruct (evaluate_finite _ _ _ E) as (x & y & -> & ->).
      exists (x, y). split; [exact E | reflexivity].
Qed.

Lemma mate_pairs_fresh (cxpb : Q) (offspring : list Individual) :
  forall g off g',
    Forall (fresh_or_consistent (evaluate tb)) offspring ->
    mate_pairs tb cxpb offspring g = (Ok off, g') ->
    Forall (fresh_or_consistent (evaluate tb)) off.
Proof.
  remember (length offspring) as n eqn:En. revert offspring En.
  induction n as [n IH] using lt_wf_ind. intros offspring En g off g' Hv H.
  destruct offspring as [|a [|b rest]]; cbn in H.
  - apply ret_ok_inv in H. destruct H as [-> _]. constructor.
  - apply ret_ok_inv in H. destruct H as [-> _]. exact Hv.
  - inversion Hv as [|? ? Ha Hv']; subst. inversion Hv' as [|? ? Hb Hr]; subst.
    apply rbind_ok_inv in H. destruct H as (u & g1 & _ & H).
    apply rbind_ok_inv in H. destruct H as (pair & g2 & Hp & H).
    apply rbind_ok_inv in H. destruct H as (rest' & g3 & Hrest & H).
    apply ret_ok_inv in H. destruct H as [-> _].
    assert (Hpair : fresh_or_consistent (evaluate tb) (fst pair) /\
                    fresh_or_consistent (evaluate tb) (snd pair)).
    { destruct (Qlt_le_dec u cxpb).
      - apply rbind_ok_inv in Hp. destruct Hp as (c & g4 & Hc & Hp).
        apply ret_ok_inv in Hp. destruct Hp as [-> _]. cbn.
        split; now left.
      - apply ret_ok_inv in Hp. destruct Hp as [-> _]. now split. }
    constructor; [apply Hpair|]. constructor; [apply Hpair|].
    apply (IH (length rest)) with (offspring := rest) (g := g2) (g' := g3);
      [cbn; lia | reflexivity | exact Hr | exact Hrest].
Qed.

Lemma mutate_each_fresh (mutpb : Q) (offspring : list Individual) :
  forall g off g',
    Forall (fresh_or_consistent (evaluate tb)) offspring ->
    mutate_each tb mutpb offspring g = (Ok off, g') ->
    Forall (fresh_or_consistent (evaluate tb)) off.
Proof.
  intros g off g' Hv. unfold mutate_each.
  apply comprehension_rand_forall.
  intros ind g0 y g1 Hin H. rewrite Forall_forall in Hv. specialize (Hv ind Hin).
  apply rbind_ok_inv in H. destruct H as (u & g2 & _ & H).
  destruct (Qlt_le_dec u mutpb).
  - apply rbind_ok_inv in H. destruct H as (c & g3 & Hc & H).
    apply ret_ok_inv in H. destruct H as [-> _]. now left.
  - apply ret_ok_inv in H. destruct H as [-> _]. exact Hv.
Qed.

(** Generation 0: the hall gets its first member, the best of the
    initial population. *)
Lemma ea_record_first (st : Statistics) (population : list Individual)
  (s : ea_state) :
  population <> [] ->
  Forall (fresh_or_consistent (evaluate tb)) population ->
  ea_record tb st (mkEa population (mkHallOfFame 1 [] []) []) 0 population
  = Ok s ->
  exists h, hall_invariant (evaluate tb) s h /\ In h (ea_population s).
Proof.
  intros Hne Hf H. unfold ea_record in H. cbn [ea_halloffame ea_logbook] in H.
  destruct (evaluate_invalid tb population) as [evd|e] eqn:Ee; cbn in H;
    [|discriminate H].
  destruct (evaluate_invalid_consistent _ _ Hf Ee) as [Hc Hl].
  assert (Hne' : evd <> []).
  { intros C. subst evd. destruct population; [congruence | discriminate Hl]. }
  destruct (hof_update_first (evaluate tb) evd Hne' Hc) as (h & Eh & Hh & Hin & Hb).
  rewrite Eh in H. cbn in H.
  destruct (stats_compile st evd); cbn in H; [|discriminate H].
  inversion H; subst. exists h. split; [|exact Hin].
  unfold hall_invariant. cbn. auto.
Qed.

(** A later generation: the member is kept or replaced by an offspring
    that beats it; either way the former member does not beat the new
    one, and no offspring does. *)
Lemma ea_record_next (st : Statistics) (s s' : ea_state) (h : Individual)
  (i : Z) (offspring : list Individual) :
  ea_halloffame s = hall_of h -> consistent (evaluate tb) h ->
  Forall (fresh_or_consistent (evaluate tb)) offspring ->
  ea_record tb st s i offspring = Ok s' ->
  exists h', hall_invariant (evaluate tb) s' h' /\
             (h' = h \/ In h' (ea_population s')) /\
             fitness_gt h h' = false.
Proof.
  intros Hs Hh Hf H. unfold ea_record in H. rewrite Hs in H.
  destruct (evaluate_invalid tb offspring) as [evd|e] eqn:Ee; cbn in H;
    [|discriminate H].
  destruct (evaluate_invalid_consistent _ _ Hf Ee) as [Hc Hl].
  destruct (hof_update_member (evaluate tb) h evd Hh Hc)
    as (h' & Eh & Hh' & Hin & Hm & Hb).
  rewrite Eh in H. cbn in H.
  destruct (stats_compile st evd); cbn in H; [|discriminate H].
  inversion H; subst. exists h'. split; [|split; [exact Hin | exact Hm]].
  unfold hall_invariant. cbn. auto.
Qed.

Lemma ea_generation_hall (cxpb mutpb : Q) (st : Statistics) (s s' : ea_state)
  (h : Individual) (i : Z) (g g' : rng RS) :
  hall_invariant (evaluate tb) s h ->
  ea_generation tb cxpb mutpb st s i g = (Ok s', g') ->
  exists h', hall_invariant (evaluate tb) s' h' /\
             (h' = h \/ In h' (ea_population s')) /\
             fitness_gt h h' = false.
Proof.
  intros (Hs & Hh & Hp & Hb) H. unfold ea_generation in H.
  apply rbind_ok_inv in H. destruct H as (sel & g1 & Hsel & H).
  apply rbind_ok_inv in H. destruct H as (off & g2 & Hvar & H).
  apply lift_ok_inv in H. destruct H as [H _].
  apply (ea_record_next st s s' h i off Hs Hh); [|exact H].
  apply select_members in Hsel.
  assert (Hf : Forall (fresh_or_consistent (evaluate tb)) sel).
  { apply Forall_forall. intros x Hx. rewrite Forall_forall in Hsel, Hp.
    right. apply Hp. now apply Hsel. }
  unfold varAnd in Hvar.
  apply rbind_ok_inv in Hvar. destruct Hvar as (off1 & g3 & Hm & Hmu).
  apply (mutate_each_fresh mutpb off1 g3 off g2); [|exact Hmu].
  exact (mate_pairs_fresh cxpb sel g1 off1 g3 Hf Hm).
Qed.

Lemma for_each_rand_app {A S} (xs ys : list A) (body : S -> A -> Rand RS S)
  (s : S) (g : rng RS) :
  for_each_rand (xs ++ ys) body s g
  = rbind (for_each_rand xs body s) (for_each_rand ys body) g.
Proof.
  revert s g. induction xs as [|x xs IH]; intros s g; cbn [app for_each_rand].
  - reflexivity.
  - unfold rbind in *. destruct (body s x g) as [[s1|e] g1].
    + apply IH.
    + reflexivity.
Qed.

Lemma range3_generations_nat (k : nat) :
  range3 1 (Z.of_nat k + 1) 1
  = Ok (map (fun i => 1 + Z.of_nat i * 1) (seq 0 k)).
Proof.
  unfold range3, range_len. cbn [Z.eqb Z.ltb Z.compare andb].
  destruct (Z.ltb_spec 1 (Z.of_nat k + 1)) as [H|H].
  - rewrite Z.div_1_r. do 3 f_equal. lia.
  - replace k with 0%nat by lia. reflexivity.
Qed.

(** One more generation asked for is one more pass of the loop: a run of
    [k + 1] generations goes through the state in which a run of [k]
    generations ends. *)
Lemma eaSimple_succ (population : list Individual) (cxpb mutpb : Q) (k : nat)
  (st : Statistics) (hof : HallOfFame) (g : rng RS) :
  eaSimple population tb cxpb mutpb (Z.of_nat (S k)) st hof g
  = rbind (eaSimple population tb cxpb mutpb (Z.of_nat k) st hof)
          (fun s => ea_generation tb cxpb mutpb st s (Z.of_nat (S k))) g.
Proof.
  unfold eaSimple. rewrite !range3_generations_nat.
  rewrite seq_S, map_app. cbn [map Nat.add].
  replace (1 + Z.of_nat k * 1) with (Z.of_nat (S k)) by lia.
  unfold rbind, lift.
  destruct (ea_record tb st _ 0 population) as [s0|e]; [|reflexivity].
  rewrite for_each_rand_app. unfold rbind.
  destruct (for_each_rand _ _ s0 g) as [[s1|e] g1]; [|reflexivity].
  cbn [for_each_rand]. unfold rbind, ret.
  destruct (ea_generation _ _ _ _ s1 _ g1) as [[s2|e] g2]; reflexivity.
Qed.

Lemma eaSimple_zero (population : list Individual) (cxpb mutpb : Q)
  (st : Statistics) (hof : HallOfFame) (g : rng RS) :
  eaSimple population tb cxpb mutpb 0 st hof g
  = lift (ea_record tb st (mkEa population hof []) 0 population) g.
Proof.
  unfold eaSimple, rbind, lift.
  destruct (ea_record tb st _ 0 population); reflexivity.
Qed.

(** The hall of fame over the generations of a run.  The state after
    generation [j] of a run is the state a run of [j] generations ends
    in. *)
Lemma eaSimple_hall (population : list Individual) (cxpb mutpb : Q)
  (st : Statistics) (g : rng RS) (k : nat) :
  population <> [] ->
  Forall (fresh_or_consistent (evaluate tb)) population ->
  forall sk gk,
    eaSimple population tb cxpb mutpb (Z.of_nat k) st (mkHallOfFame 1 [] []) g
    = (Ok sk, gk) ->
    exists hk,
      hall_invariant (evaluate tb) sk hk /\
      (forall j, (j <= k)%nat ->
         exists sj gj hj,
           eaSimple population tb cxpb mutpb (Z.of_nat j) st
                    (mkHallOfFame 1 [] []) g = (Ok sj, gj) /\
           hall_invariant (evaluate tb) sj hj /\
           fitness_gt hj hk = false /\
           forall x, In x (ea_population sj) -> fitness_gt x hk = false) /\
      (exists j sj gj,
          (j <= k)%nat /\
          eaSimple population tb cxpb mutpb (Z.of_nat j) st
                   (mkHallOfFame 1 [] []) g = (Ok sj, gj) /\
          In hk (ea_population sj)).
Proof.
  intros Hne Hf. induction k as [|k IH]; intros sk gk H.
  - pose proof H as H0. change (Z.of_nat 0) with 0 in H0.
    rewrite eaSimple_zero in H0.
    apply lift_ok_inv in H0. destruct H0 as [H0 _].
    destruct (ea_record_first st population sk Hne Hf H0) as (h & Hinv & Hin).
    exists h. split; [exact Hinv|]. split.
    + intros j Hj. replace j with 0%nat by lia.
      exists sk, gk, h. split; [exact H|]. split; [exact Hinv|].
      destruct Hinv as (_ & Hc & _ & Hb).
      split; [apply fitness_gt_irrefl; eapply consistent_evaluated; exact Hc|].
      exact Hb.
    + exists 0%nat, sk, gk. split; [lia|]. split; [exact H | exact Hin].
  - rewrite eaSimple_succ in H.
    apply rbind_ok_inv in H. destruct H as (s & g1 & Hk & Hstep).
    destruct (IH s g1 Hk) as (h & Hinv & Hall & Horigin).
    destruct (ea_generation_hall cxpb mutpb st s sk h _ g1 gk Hinv Hstep)
      as (h' & Hinv' & Hin' & Hm).
    assert (Erun : eaSimple population tb cxpb mutpb (Z.of_nat (S k)) st
                     (mkHallOfFame 1 [] []) g = (Ok sk, gk)).
    { rewrite eaSimple_succ. unfold rbind. rewrite Hk. exact Hstep. }
    pose proof (consistent_evaluated _ _ (proj1 (proj2 Hinv))) as Eh.
    pose proof (consistent_evaluated _ _ (proj1 (proj2 Hinv'))) as Eh'.
    exists h'. split; [exact Hinv'|]. split.
    + intros j Hj. destruct (Nat.eq_dec j (S k)) as [->|Hne'].
      * exists sk, gk, h'. split; [exact Erun|]. split; [exact Hinv'|].
        split; [now apply fitness_gt_irrefl|].
        destruct Hinv' as (_ & _ & _ & Hb). exact Hb.
      * destruct (Hall j ltac:(lia)) as (sj & gj & hj & Ej & Hinvj & Hjm & Hjp).
        exists sj, gj, hj. split; [exact Ej|]. split; [exact Hinvj|].
        pose proof (consistent_evaluated _ _ (proj1 (proj2 Hinvj))) as Ehj.
        split.
        -- now apply (fitness_gt_false_chain h h' hj).
        -- intros x Hx. apply (fitness_gt_false_chain h h' x); auto.
           destruct Hinvj as (_ & _ & Hpj & _). rewrite Forall_forall in Hpj.
           eapply consistent_evaluated. now apply Hpj.
    + destruct Hin' as [->|Hin'].
      * destruct Horigin as (j & sj & gj & Hj & Ej & Hinj).
        exists j, sj, gj. split; [lia|]. now split.
      * exists (S k), sk, gk. split; [lia|]. now split.
Qed.

End HallRun.

(** ** The worked instance *)

Lemma population_std_pair (a b : R) :
  population_std [a; b] = (Rabs (a - b) / 2)%R.
Proof.
  unfold population_std. cbn [length map Rsum INR].
  replace (((a - (a + (b + 0)) / (1 + 1)) ^ 2
            + ((b - (a + (b + 0)) / (1 + 1)) ^ 2 + 0)) / (1 + 1))%R
    with (Rsqr ((a - b) / 2)) by (unfold Rsqr; field).
  rewrite sqrt_Rsqr_abs. unfold Rdiv. rewrite Rabs_mult.
  f_equal. apply Rabs_pos_eq. lra.
Qed.

Lemma line_instance_indices (l : list Z) :
  Forall (fun v => 0 <= v < 3) l -> indices_in_range line_instance l.
Proof. intros H. exact H. Qed.

Lemma evaluate_line_102 :
  _evaluate_vrp line_instance [1; 0; 2] = Ok (Some 8%R, Some 2%R).
Proof.
  rewrite evaluate_vrp_by_modulo.
  - change (map (route_by_modulo _ _) _)
      with [[(0, 0); (2, 0); (3, 0); (0, 0)]; [(0, 0); (1, 0); (0, 0)]]%R.
    cbn [map path_length Rsum]. rewrite !euclidean_horizontal. Rabs_value.
    rewrite population_std_pair. Rabs_value.
    do 3 f_equal; lra.
  - cbn. lia.
  - apply line_instance_indices. repeat constructor; lia.
Qed.

Lemma evaluate_line_012 :
  _evaluate_vrp line_instance [0; 1; 2] = Ok (Some 10%R, Some 1%R).
Proof.
  rewrite evaluate_vrp_by_modulo.
  - change (map (route_by_modulo _ _) _)
      with [[(0, 0); (1, 0); (3, 0); (0, 0)]; [(0, 0); (2, 0); (0, 0)]]%R.
    cbn [map path_length Rsum]. rewrite !euclidean_horizontal. Rabs_value.
    rewrite population_std_pair. Rabs_value.
    do 3 f_equal; lra.
  - cbn. lia.
  - apply line_instance_indices. repeat constructor; lia.
Qed.

Lemma evaluate_invalid_single {RS : RandomSource} (tb : Toolbox RS)
  (ind : Individual) (f : float * float) :
  wvalues ind = [] -> evaluate tb (genes ind) = Ok f ->
  evaluate_invalid tb [ind] = Ok [set_fitness ind f].
Proof.
  intros Hw He. unfold evaluate_invalid. cbn [comprehension].
  unfold fitness_valid. rewrite Hw. cbn [len length Z.of_nat Z.eqb negb].
  rewrite He. reflexivity.
Qed.

Lemma line_generation_0 :
  exists logbook,
    eaSimple (RS := digit_source) [mkIndividual [1; 0; 2] []]
      (toolbox line_instance 1) (1 # 2) 1 0 solve_stats
      (mkHallOfFame 1 [] []) 999900000000
    = (Ok (mkEa [set_fitness (mkIndividual [1; 0; 2] []) (Some 8%R, Some 2%R)]
             (hall_of (set_fitness (mkIndividual [1; 0; 2] [])
                         (Some 8%R, Some 2%R)))
             logbook),
       999900000000).
Proof.
  set (a := set_fitness (mkIndividual [1; 0; 2] []) (Some 8%R, Some 2%R)).
  destruct (stats_compile_total [a]) as (record & Es).
  { discriminate. }
  { repeat constructor. }
  eexists. rewrite eaSimple_zero. unfold lift, ea_record.
  rewrite (evaluate_invalid_single (toolbox line_instance 1)
             (mkIndividual [1; 0; 2] [])
             (Some 8%R, Some 2%R) eq_refl evaluate_line_102).
  fold a. cbn [Py.bind ea_halloffame ea_logbook].
  unfold hof_update. cbn [for_each]. rewrite hof_update_one_empty.
  change (getitem [a] 0) with (Ok a). cbn [Py.bind].
  rewrite Es. cbn [Py.bind]. reflexivity.
Qed.

Lemma line_generation_1 (logbook : list LogRecord) :
  exists logbook',
    ea_generation (RS := digit_source) (toolbox line_instance 1) (1 # 2) 1
      solve_stats
      (mkEa [set_fitness (mkIndividual [1; 0; 2] []) (Some 8%R, Some 2%R)]
            (hall_of (set_fitness (mkIndividual [1; 0; 2] [])
                        (Some 8%R, Some 2%R)))
            logbook)
      1 999900000000
    = (Ok (mkEa [set_fitness (mkIndividual [0; 1; 2] []) (Some 10%R, Some 1%R)]
             (hall_of (set_fitness (mkIndividual [1; 0; 2] [])
                         (Some 8%R, Some 2%R)))
             logbook'),
       0).
Proof.
  set (a := set_fitness (mkIndividual [1; 0; 2] []) (Some 8%R, Some 2%R)).
  set (b := set_fitness (mkIndividual [0; 1; 2] []) (Some 10%R, Some 1%R)).
  destruct (stats_compile_total [b]) as (record & Es).
  { discriminate. }
  { repeat constructor. }
  assert (Esel : select (toolbox (RS := digit_source) line_instance 1) [a] 1
                        999900000000 = (Ok [a], 9999000000))
    by (vm_compute; reflexivity).
  assert (Evar : varAnd (RS := digit_source) [a] (toolbox line_instance 1)
                        (1 # 2) 1 9999000000
                 = (Ok [mkIndividual [0; 1; 2] []], 0))
    by (vm_compute; reflexivity).
  assert (Hgt : fitness_gt b a = false).
  { destruct (fitness_gt b a) eqn:G; [|reflexivity].
    apply (fitness_gt_lex b a (10, 1)%R (8, 2)%R) in G; try reflexivity.
    unfold lex_lt in G. cbn [fst snd] in G. destruct G as [G|[G _]]; lra. }
  eexists. unfold ea_generation. cbn [ea_population].
  change (len [a]) with 1.
  unfold rbind at 1. rewrite Esel. unfold rbind at 1. rewrite Evar.
  unfold lift, ea_record.
  rewrite (evaluate_invalid_single (toolbox line_instance 1)
             (mkIndividual [0; 1; 2] [])
             (Some 10%R, Some 1%R) eq_refl evaluate_line_012).
  fold b. cbn [Py.bind ea_halloffame ea_logbook].
  unfold hof_update. cbn [for_each]. rewrite hof_update_one_member.
  rewrite Hgt. cbn [andb Py.bind]. rewrite Es. cbn [Py.bind]. reflexivity.
Qed.

(** ** The hall of fame of [solve] *)

(** With at least one vehicle the evaluator returns reals. *)
Lemma evaluate_vrp_finite (self : VRPSolver Point) (l : list Z) (d p : float) :
  1 <= num_vehicles self ->
  _evaluate_vrp self l = Ok (d, p) -> exists x y, d = Some x /\ p = Some y.
Proof.
  intros Hnv H. unfold _evaluate_vrp in H. rewrite evaluate_loop in H.
  destruct (comprehension _ _) as [routes|e] eqn:E; cbn in H; [|discriminate H].
  apply comprehension_length in E. rewrite range_length in E.
  inversion H; subst. destruct routes as [|r routes]; [cbn in E; lia|].
  cbn. eauto.
Qed.

Section SolveHall.

Context {RS : RandomSource}.
Variable self : VRPSolver Point.

Lemma solve_ok_inv (args : SolveArgs) (g g' : rng RS) (r : SolveResult) :
  solve self args g = (Ok r, g') ->
  exists pop g1 s,
    population self (pop_size args) (seed_state RS (seed args)) = (Ok pop, g1) /\
    eaSimple pop (toolbox self (tournsize args)) (cxpb args) (mutpb args)
             (ngen args) solve_stats (mkHallOfFame 1 [] []) g1 = (Ok s, g') /\
    getitem (items (ea_halloffame s)) 0 = Ok (best_individual r) /\
    r = mkResult (best_individual r) (ea_population s) solve_stats
                 (ea_halloffame s).
Proof.
  intros H. unfold solve in H.
  apply rbind_ok_inv in H. destruct H as ([] & g0 & Hseed & H).
  unfold random_seed in Hseed. inversion Hseed; subst g0.
  apply rbind_ok_inv in H. destruct H as (pop & g1 & Hpop & H).
  apply rbind_ok_inv in H. destruct H as (s & g2 & Hea & H).
  apply rbind_ok_inv in H. destruct H as (best & g3 & Hbest & H).
  apply ret_ok_inv in H. destruct H as [-> ->].
  apply lift_ok_inv in Hbest. destruct Hbest as [Hbest ->].
  exists pop, g1, s. cbn. auto.
Qed.

Lemma solve_ok_intro (args : SolveArgs) (g g1 g2 : rng RS)
  (pop : list Individual) (s : ea_state) (h : Individual) :
  population self (pop_size args) (seed_state RS (seed args)) = (Ok pop, g1) ->
  eaSimple pop (toolbox self (tournsize args)) (cxpb args) (mutpb args)
           (ngen args) solve_stats (mkHallOfFame 1 [] []) g1 = (Ok s, g2) ->
  ea_halloffame s = hall_of h ->
  solve self args g
  = (Ok (mkResult h (ea_population s) solve_stats (hall_of h)), g2).
Proof.
  intros Hpop Hea Hh. unfold solve, rbind, random_seed.
  rewrite Hpop, Hea, Hh. reflexivity.
Qed.

(** Without individuals the statistics of generation 0 cannot be
    computed: [np.min] has nothing to reduce. *)
Lemma eaSimple_empty_population (tb : Toolbox RS) (cxpb mutpb : Q) (ngen : Z)
  (g : rng RS) :
  eaSimple [] tb cxpb mutpb ngen solve_stats (mkHallOfFame 1 [] []) g
  = (Raise ValueError, g).
Proof. reflexivity. Qed.

Hypothesis some_vehicle : 1 <= num_vehicles self.

(** The hall of fame over the generations of [solve]. *)
Lemma solve_hall (args : SolveArgs) (g : rng RS) (k : nat)
  (rk : SolveResult) (gk : rng RS) :
  solve self (with_ngen args (Z.of_nat k)) g = (Ok rk, gk) ->
  hall_of_fame rk = hall_of (best_individual rk) /\
  evaluated (best_individual rk) /\
  (forall j, (j <= k)%nat ->
     exists rj gj,
       solve self (with_ngen args (Z.of_nat j)) g = (Ok rj, gj) /\
       evaluated (best_individual rj) /\
       Forall evaluated (final_population rj) /\
       fitness_gt (best_individual rj) (best_individual rk) = false /\
       forall x, In x (final_population rj) ->
                 fitness_gt x (best_individual rk) = false) /\
  (exists j rj gj,
      (j <= k)%nat /\
      solve self (with_ngen args (Z.of_nat j)) g = (Ok rj, gj) /\
      In (best_individual rk) (final_population rj)).
Proof.
  intros H. apply solve_ok_inv in H.
  destruct H as (pop & g1 & sk & Hpop & Hea & Hbest & Hr).
  cbn [with_ngen pop_size cxpb mutpb ngen tournsize seed] in Hpop, Hea.
  assert (Hne : pop <> []).
  { intros C. subst pop. rewrite eaSimple_empty_population in Hea.
    discriminate Hea. }
  assert (Hf : Forall (fresh_or_consistent
                         (evaluate (toolbox (RS := RS) self (tournsize args)))) pop).
  { destruct (population_valid self (pop_size args) (seed_state RS (seed args)))
      as (pop' & g1' & E & Hv & _).
    rewrite E in Hpop. inversion Hpop; subst.
    apply Forall_forall. intros x Hx. rewrite Forall_forall in Hv.
    left. now apply Hv. }
  destruct (eaSimple_hall (toolbox self (tournsize args))
              (fun l d p => evaluate_vrp_finite self l d p some_vehicle)
              (fun pop k g chosen g' => selTournament_in _ pop k g g' chosen)
              pop (cxpb args) (mutpb args) solve_stats g1 k Hne Hf sk gk Hea)
    as (hk & Hinv & Hall & Horigin).
  destruct Hinv as (Hh & Hc & Hp & Hb).
  rewrite Hh in Hbest. cbn in Hbest. inversion Hbest as [Ebest].
  rewrite Hr. cbn [hall_of_fame best_individual final_population].
  rewrite <- Ebest. split; [exact Hh|].
  split; [eapply consistent_evaluated; exact Hc|]. split.
  - intros j Hj.
    destruct (Hall j Hj) as (sj & gj & hj & Ej & (Hhj & Hcj & Hpj & Hbj) & Hm & Hx).
    exists (mkResult hj (ea_population sj) solve_stats (hall_of hj)), gj.
    split; [now apply (solve_ok_intro (with_ngen args (Z.of_nat j)) g g1 gj pop)|].
    cbn [best_individual final_population].
    split; [eapply consistent_evaluated; exact Hcj|].
    split; [|split; [exact Hm | exact Hx]].
    apply Forall_forall. intros x Hx'. rewrite Forall_forall in Hpj.
    eapply consistent_evaluated. now apply Hpj.
  - destruct Horigin as (j & sj & gj & Hj & Ej & Hin).
    destruct (Hall j Hj) as (sj' & gj' & hj & Ej' & (Hhj & _) & _).
    rewrite Ej in Ej'. inversion Ej'; subst sj' gj'.
    exists j, (mkResult hj (ea_population sj) solve_stats (hall_of hj)), gj.
    split; [exact Hj|].
    split; [now apply (solve_ok_intro (with_ngen args (Z.of_nat j)) g g1 gj pop)|].
    exact Hin.
Qed.

End SolveHall.

(** The worked run: the individual [[1, 0, 2]] (fitness (8, 2)) is drawn,
    enters the hall of fame, and is mutated into [[0, 1, 2]] (fitness
    (10, 1)), which does not beat it. *)
Lemma line_run :
  exists r g',
    solve (RS := digit_source) line_instance line_args 0 = (Ok r, g') /\
    best_individual r
    = set_fitness (mkIndividual [1; 0; 2] []) (Some 8%R, Some 2%R) /\
    final_population r
    = [set_fitness (mkIndividual [0; 1; 2] []) (Some 10%R, Some 1%R)].
Proof.
  destruct line_generation_0 as (lb0 & E0).
  destruct (line_generation_1 lb0) as (lb1 & E1).
  eexists _, _. split; [|split].
  - apply (solve_ok_intro (RS := digit_source) line_instance line_args
             0 999900000000 0
             [mkIndividual [1; 0; 2] []]
             (mkEa [set_fitness (mkIndividual [0; 1; 2] []) (Some 10%R, Some 1%R)]
                   (hall_of (set_fitness (mkIndividual [1; 0; 2] [])
                               (Some 8%R, Some 2%R)))
                   lb1)).
    + vm_compute. reflexivity.
    + change (ngen line_args) with (Z.of_nat 1).
      rewrite eaSimple_succ. unfold rbind.
      change (Z.of_nat 0) with 0.
      change (tournsize line_args) with 1.
      change (cxpb line_args) with (1 # 2).
      change (mutpb line_args) with 1%Q.
      rewrite E0. exact E1.
    + reflexivity.
  - reflexivity.
  - reflexivity.
Qed.

(** C7.  Along the generations of a run of [solve] (at least one
    vehicle), the hall of fame of size 1 holds a copy of the best
    individual seen so far.  The state after generation [j] of a run is
    the result of the run with [ngen = j] ([eaSimple_succ]); for a run of
    [k] generations that returns and every [j <= k]:
    - the run of [j] generations returns too, and the fitness of its hall
      member is not beaten by, hence not smaller than, the fitness of the
      hall member after generation [k]: the hall's fitness never
      increases in the lexicographic order;
    - no individual of the population of generation [j] has a fitness
      lexicographically smaller than the hall member after generation
      [k];
    - the hall member after generation [k] is an individual of the
      population of some generation [j <= k];
    - the best individual [solve] returns is the member of the hall it
      returns.
    It need not belong to the final population: in the worked run the
    best individual [[1, 0, 2]], of fitness (8, 2), is strictly better
    than the only individual of the final population. *)
Theorem hall_of_fame_keeps_best :
  (forall (RS : RandomSource) (self : VRPSolver Point) (args : SolveArgs)
          (g : rng RS) (k : nat) (rk : SolveResult) (gk : rng RS),
      1 <= num_vehicles self ->
      solve self (with_ngen args (Z.of_nat k)) g = (Ok rk, gk) ->
      hall_of_fame rk = hall_of (best_individual rk) /\
      (exists fk,
          has_fitness (best_individual rk) fk /\
          forall j, (j <= k)%nat ->
            exists rj gj fj,
              solve self (with_ngen args (Z.of_nat j)) g = (Ok rj, gj) /\
              has_fitness (best_individual rj) fj /\
              ~ lex_lt fj fk /\
              Forall evaluated (final_population rj) /\
              forall x fx, In x (final_population rj) -> has_fitness x fx ->
                           ~ lex_lt fx fk) /\
      (exists j rj gj,
          (j <= k)%nat /\
          solve self (with_ngen args (Z.of_nat j)) g = (Ok rj, gj) /\
          In (best_individual rk) (final_population rj))) /\
  (exists r g',
      solve (RS := digit_source) line_instance line_args 0 = (Ok r, g') /\
      ~ In (best_individual r) (final_population r) /\
      has_fitness (best_individual r) (8, 2)%R /\
      forall x, In x (final_population r) ->
                has_fitness x (10, 1)%R /\ lex_lt (8, 2)%R (10, 1)%R).
Proof.
  split.
  - intros RS self args g k rk gk Hnv H.
    destruct (solve_hall self Hnv args g k rk gk H)
      as (Hh & [fk Hfk] & Hall & Horigin).
    split; [exact Hh|]. split; [|exact Horigin].
    exists fk. split; [exact Hfk|]. intros j Hj.
    destruct (Hall j Hj) as (rj & gj & Ej & [fj Hfj] & Hev & Hm & Hx).
    exists rj, gj, fj. split; [exact Ej|]. split; [exact Hfj|].
    split; [|split; [exact Hev|]].
    + intros C. apply (fitness_gt_lex _ _ _ _ Hfj Hfk) in C. congruence.
    + intros x fx Hin Hfx C.
      apply (fitness_gt_lex _ _ _ _ Hfx Hfk) in C.
      rewrite (Hx x Hin) in C. discriminate C.
  - destruct line_run as (r & g' & E & Hb & Hp).
    exists r, g'. split; [exact E|]. rewrite Hb, Hp. split; [|split].
    + intros [C|[]]. discriminate C.
    + reflexivity.
    + intros x [<-|[]]. split; [reflexivity|].
      left. cbn. lra.
Qed.

Lemma hall_of_fame_keeps_best_witness :
  exists r g',
    solve (RS := digit_source) line_instance
          (with_ngen line_args (Z.of_nat 1)) 0 = (Ok r, g') /\
    hall_of_fame r = hall_of (best_individual r).
Proof.
  destruct line_run as (r & g' & E & _).
  exists r, g'. split; [exact E|].
  exact (proj1 (proj1 hall_of_fame_keeps_best digit_source line_instance
                  line_args 0 1%nat r g' ltac:(cbn; lia) E)).
Defined.

(** * Beyond the run: more of the program *)

(** ** The decoder as a partition *)

Lemma stops_of_bracketed {P} (d : P) (xs : list P) :
  stops_of_route ([d] ++ xs ++ [d]) = xs.
Proof.
  unfold stops_of_route. cbn [app tl]. now rewrite removelast_last.
Qed.

Lemma concat_map_app_perm {A B} (f g : A -> list B) (l : list A) :
  Permutation (concat (map (fun i => f i ++ g i) l))
              (concat (map f l) ++ concat (map g l)).
Proof.
  induction l as [|a l IH]; cbn; [constructor|].
  rewrite IH. rewrite <- !app_assoc. apply Permutation_app_head.
  rewrite !app_assoc. apply Permutation_app_tail. apply Permutation_app_comm.
Qed.

Lemma concat_singleton_at (m : Z) (x : nat) (l : list Z) :
  NoDup l ->
  concat (map (fun i => if m =? i then [x] else []) l)
  = if in_dec Z.eq_dec m l then [x] else [].
Proof.
  induction l as [|a l IH]; intros Hnd; [reflexivity|].
  inversion Hnd as [|? ? Ha Hl]; subst. cbn [map concat]. rewrite (IH Hl).
  destruct (Z.eqb_spec m a) as [->|Hne].
  - destruct (in_dec Z.eq_dec a l) as [C|_]; [contradiction|].
    destruct (in_dec Z.eq_dec a (a :: l)) as [_|C]; [reflexivity|].
    exfalso. apply C. now left.
  - destruct (in_dec Z.eq_dec m l) as [H|H];
      destruct (in_dec Z.eq_dec m (a :: l)) as [H'|H']; try reflexivity.
    + exfalso. apply H'. now right.
    + exfalso. destruct H' as [E|E]; [congruence | contradiction].
Qed.

(** Every position below [n] belongs to the slots of exactly one
    vehicle. *)
Lemma slots_partition {P} (self : VRPSolver P) (n : nat) :
  1 <= num_vehicles self ->
  Permutation (concat (map (slot_positions self n) (range (num_vehicles self))))
              (seq 0 n).
Proof.
  intros Hnv. induction n as [|n IH].
  - unfold slot_positions. cbn [seq filter].
    induction (range (num_vehicles self)); cbn; [constructor | assumption].
  - rewrite seq_S. cbn [Nat.add]. rewrite <- IH.
    rewrite (map_ext (slot_positions self (S n))
               (fun i => slot_positions self n i
                         ++ (if Z.of_nat n mod num_vehicles self =? i
                             then [n] else []))).
    + rewrite concat_map_app_perm. apply Permutation_app_head.
      rewrite concat_singleton_at by apply NoDup_range.
      destruct (in_dec Z.eq_dec _ _) as [_|C]; [reflexivity|].
      exfalso. apply C. apply in_range. apply Z.mod_pos_bound. lia.
    + intros i. unfold slot_positions. rewrite seq_S, filter_app. reflexivity.
Qed.

Lemma map_nth_seq {A} (l : list A) (d : A) :
  map (fun k => nth k l d) (seq 0 (length l)) = l.
Proof.
  induction l as [|a l IH]; [reflexivity|].
  cbn [length seq map nth]. f_equal.
  rewrite <- seq_shift, map_map. exact IH.
Qed.

Section DecoderPartition.

Context {P : Type} (self : VRPSolver P).

Lemma stops_by_modulo (individual : list Z) :
  concat (map stops_of_route
            (map (route_by_modulo self individual) (range (num_vehicles self))))
  = map (location_at self individual)
        (concat (map (slot_positions self (length individual))
                     (range (num_vehicles self)))).
Proof.
  rewrite concat_map, !map_map. f_equal. apply map_ext. intros i.
  unfold route_by_modulo. apply stops_of_bracketed.
Qed.

Lemma location_at_seq (individual : list Z) :
  map (location_at self individual) (seq 0 (length individual))
  = map (fun v => nth (Z.to_nat v) (locations self) (depot self)) individual.
Proof.
  rewrite <- (map_nth_seq individual 0) at 3. rewrite map_map. reflexivity.
Qed.

Lemma decoder_stops_perm (individual : list Z) :
  1 <= num_vehicles self -> indices_in_range self individual ->
  exists routes,
    get_vehicle_routes self individual = Ok routes /\
    Permutation (concat (map stops_of_route routes))
      (map (fun v => nth (Z.to_nat v) (locations self) (depot self)) individual).
Proof.
  intros Hnv Hin. eexists. split; [now apply get_vehicle_routes_by_modulo|].
  rewrite stops_by_modulo, <- location_at_seq.
  apply Permutation_map. now apply slots_partition.
Qed.

End DecoderPartition.

(** X1.  The decoder partitions the customers: with at least one vehicle,
    the stops of all the routes taken together are, up to order, the
    locations the individual names; for a permutation of the location
    indices they are all the locations, each visited once. *)
Theorem decoder_visits_each_location_once :
  forall (P : Type) (self : VRPSolver P) (individual : list Z),
    1 <= num_vehicles self ->
    is_permutation (num_locations self) individual ->
    exists routes,
      get_vehicle_routes self individual = Ok routes /\
      Permutation (concat (map stops_of_route routes)) (locations self).
Proof.
  intros P self individual Hnv Hp.
  destruct (decoder_stops_perm self individual Hnv) as (routes & E & Hperm).
  - apply Forall_forall. intros v Hv. now apply (is_permutation_in _ _ v Hp).
  - exists routes. split; [exact E|]. rewrite Hperm.
    rewrite (Permutation_map _ Hp). unfold range, num_locations, len.
    rewrite Nat2Z.id, map_map.
    rewrite (map_ext _ (fun k => nth k (locations self) (depot self)))
      by (intros k; now rewrite Nat2Z.id).
    now rewrite map_nth_seq.
Qed.

Lemma decoder_visits_each_location_once_witness :
  exists routes,
    get_vehicle_routes (mkSolver [10; 11; 12] 99 2) [2; 0; 1] = Ok routes /\
    Permutation (concat (map stops_of_route routes)) [10; 11; 12].
Proof.
  apply (decoder_visits_each_location_once Z (mkSolver [10; 11; 12] 99 2)
           [2; 0; 1]).
  - cbn. lia.
  - exact (Permutation_cons_app [0; 1] [] 2 (Permutation_refl _)).
Defined.

(** ** The decoder and the evaluator off the beaten track *)

(** X2.  Without vehicles ([num_vehicles <= 0]) nothing is decoded and
    nothing is read: the decoder returns no route and the evaluator
    returns a total distance of 0 with a [nan] penalty, whatever the
    individual holds. *)
Theorem no_vehicle_no_route :
  forall (self : VRPSolver Point) (individual : list Z),
    num_vehicles self <= 0 ->
    get_vehicle_routes self individual = Ok [] /\
    _evaluate_vrp self individual = Ok (Some 0%R, None).
Proof.
  intros self individual Hnv.
  unfold get_vehicle_routes, _evaluate_vrp, range.
  replace (Z.to_nat (num_vehicles self)) with 0%nat by lia.
  split; reflexivity.
Qed.

Lemma no_vehicle_no_route_witness :
  get_vehicle_routes (mkSolver [(1, 0)]%R (0, 0)%R 0) [5; -7] = Ok [] /\
  _evaluate_vrp (mkSolver [(1, 0)]%R (0, 0)%R 0) [5; -7] = Ok (Some 0%R, None).
Proof.
  apply (no_vehicle_no_route (mkSolver [(1, 0)]%R (0, 0)%R 0) [5; -7]).
  cbn. lia.
Defined.

Lemma getitem_raise_kind {A} (l : list A) (i : Z) (e : exc) :
  getitem l i = Raise e -> e = IndexError.
Proof.
  unfold getitem. destruct (_ || _); [intros H; now inversion H|].
  destruct (nth_error _ _); intros H; [discriminate H | now inversion H].
Qed.

Lemma getitem_out_of_range {A} (l : list A) (i : Z) :
  i < - len l \/ len l <= i -> getitem l i = Raise IndexError.
Proof.
  intros Hi. unfold getitem.
  destruct (Z.ltb_spec i 0).
  - destruct (Z.ltb_spec (i + len l) 0); [reflexivity|].
    pose proof (len_nonneg l). lia.
  - destruct (Z.ltb_spec i 0); [lia|].
    destruct (Z.leb_spec (len l) i); [reflexivity | lia].
Qed.

Lemma comprehension_ok_all {A B} (f : A -> result B) (xs : list A) (ys : list B) :
  comprehension f xs = Ok ys -> forall x, In x xs -> exists y, f x = Ok y.
Proof.
  revert ys. induction xs as [|a xs IH]; intros ys H x Hx; [destruct Hx|].
  cbn in H. destruct (f a) as [y|e] eqn:E; cbn in H; [|discriminate H].
  destruct (comprehension f xs) as [ys'|e]; cbn in H; [|discriminate H].
  destruct Hx as [<-|Hx]; [now exists y | now apply (IH ys')].
Qed.

Lemma comprehension_raise_kind {A B} (f : A -> result B) (xs : list A)
  (e0 e : exc) :
  (forall x e', In x xs -> f x = Raise e' -> e' = e0) ->
  comprehension f xs = Raise e -> e = e0.
Proof.
  induction xs as [|a xs IH]; intros Hf H; cbn in H; [discriminate H|].
  destruct (f a) as [y|e'] eqn:E; cbn in H.
  - destruct (comprehension f xs) as [ys'|e'] eqn:E'; cbn in H;
      [discriminate H|].
    inversion H; subst. apply IH; [|reflexivity].
    intros x e'' Hx. apply Hf. now right.
  - inversion H; subst. apply (Hf a); [now left | exact E].
Qed.

(** A comprehension whose items can only fail in one way, and one of
    whose items fails, fails in that way. *)
Lemma comprehension_fails {A B} (f : A -> result B) (xs : list A) (e0 : exc) :
  (forall x e', In x xs -> f x = Raise e' -> e' = e0) ->
  (exists x, In x xs /\ f x = Raise e0) ->
  comprehension f xs = Raise e0.
Proof.
  intros Hkind (x & Hx & Ex).
  destruct (comprehension f xs) as [ys|e] eqn:E.
  - destruct (comprehension_ok_all f xs ys E x Hx) as (y & Ey). congruence.
  - f_equal. now apply (comprehension_raise_kind f xs e0 e).
Qed.

Section DecoderErrors.

Context {P : Type} (self : VRPSolver P).

Lemma stop_lookup_raise_kind (individual : list Z) (j : Z) (e : exc) :
  (v <- getitem individual j ;; getitem (locations self) v) = Raise e ->
  e = IndexError.
Proof.
  destruct (getitem individual j) as [v|e'] eqn:E; cbn.
  - apply getitem_raise_kind.
  - intros H. inversion H; subst. now apply getitem_raise_kind in E.
Qed.

Lemma vehicle_route_raise_kind (individual : list Z) (i : Z) (e : exc) :
  num_vehicles self <> 0 ->
  vehicle_route self individual i = Raise e -> e = IndexError.
Proof.
  intros Hnv. unfold vehicle_route, range3.
  destruct (Z.eqb_spec (num_vehicles self) 0); [contradiction|]. cbn [Py.bind].
  destruct (comprehension _ _) as [stops|e'] eqn:E; cbn; [discriminate|].
  intros H. inversion H; subst.
  apply (comprehension_raise_kind _ _ IndexError e) in E; [exact E|].
  intros j e' _. apply stop_lookup_raise_kind.
Qed.

Lemma vehicle_route_bad_index (individual : list Z) (j : nat) :
  1 <= num_vehicles self -> (j < length individual)%nat ->
  nth j individual 0 < - num_locations self
  \/ num_locations self <= nth j individual 0 ->
  vehicle_route self individual (Z.of_nat j mod num_vehicles self)
  = Raise IndexError.
Proof.
  intros Hnv Hj Hbad.
  pose proof (Z.mod_pos_bound (Z.of_nat j) (num_vehicles self) ltac:(lia)) as Hi.
  unfold vehicle_route, range3.
  destruct (Z.eqb_spec (num_vehicles self) 0); [lia|]. cbn [Py.bind].
  unfold len at 1. rewrite range3_positions by exact Hi.
  rewrite (comprehension_fails _ _ IndexError); [reflexivity | |].
  - intros x e' _. apply stop_lookup_raise_kind.
  - exists (Z.of_nat j). split.
    + apply in_map. apply filter_In. split; [apply in_seq; lia|].
      apply Z.eqb_refl.
    + rewrite (getitem_nth individual (Z.of_nat j) 0) by (unfold len; lia).
      cbn [Py.bind]. rewrite Nat2Z.id. now apply getitem_out_of_range.
Qed.

Lemma get_vehicle_routes_bad_index (individual : list Z) :
  1 <= num_vehicles self ->
  Exists (fun v => v < - num_locations self \/ num_locations self <= v)
         individual ->
  get_vehicle_routes self individual = Raise IndexError.
Proof.
  intros Hnv Hex. rewrite get_vehicle_routes_comprehension.
  apply Exists_exists in Hex. destruct Hex as (v & Hv & Hbad).
  destruct (In_nth individual v 0 Hv) as (j & Hj & Ej).
  apply comprehension_fails.
  - intros i e' _. apply vehicle_route_raise_kind. lia.
  - exists (Z.of_nat j mod num_vehicles self). split.
    + apply in_range. apply Z.mod_pos_bound. lia.
    + apply vehicle_route_bad_index; [exact Hnv | exact Hj |].
      now rewrite Ej.
Qed.

End DecoderErrors.

(** X3.  An index out of bounds is an [IndexError]: with at least one
    vehicle, if some entry of the individual is below [-num_locations] or
    at least [num_locations], the decoder raises [IndexError], and so
    does the evaluator. *)
Theorem bad_index_raises :
  forall (self : VRPSolver Point) (individual : list Z),
    1 <= num_vehicles self ->
    Exists (fun v => v < - num_locations self \/ num_locations self <= v)
           individual ->
    get_vehicle_routes self individual = Raise IndexError /\
    _evaluate_vrp self individual = Raise IndexError.
Proof.
  intros self individual Hnv Hex.
  pose proof (get_vehicle_routes_bad_index self individual Hnv Hex) as H.
  split; [exact H|].
  unfold _evaluate_vrp. rewrite evaluate_loop.
  rewrite <- get_vehicle_routes_comprehension, H. reflexivity.
Qed.

Lemma bad_index_raises_witness :
  get_vehicle_routes line_instance [0; 1; 3] = Raise IndexError /\
  _evaluate_vrp line_instance [0; 1; 3] = Raise IndexError.
Proof.
  apply (bad_index_raises line_instance [0; 1; 3]).
  - cbn. lia.
  - apply Exists_cons_tl, Exists_cons_tl, Exists_cons_hd.
    right. cbn. lia.
Defined.

Lemma getitem_wrap {A} (l : list A) (v : Z) :
  - len l <= v -> getitem l (wrap_index (len l) v) = getitem l v.
Proof.
  intros Hv. unfold wrap_index.
  destruct (Z.ltb_spec v 0) as [H|H]; [|reflexivity].
  unfold getitem. cbv zeta.
  assert (E1 : (v <? 0) = true) by (apply Z.ltb_lt; lia).
  assert (E2 : (v + len l <? 0) = false) by (apply Z.ltb_ge; lia).
  rewrite E1, !E2. reflexivity.
Qed.

Lemma getitem_map {A B} (f : A -> B) (l : list A) (i : Z) :
  getitem (map f l) i = (x <- getitem l i ;; Ok (f x)).
Proof.
  unfold getitem, len. rewrite length_map.
  destruct (_ || _); [reflexivity|].
  rewrite nth_error_map. destruct (nth_error l _); reflexivity.
Qed.

Lemma comprehension_ext_in {A B} (f g : A -> result B) (xs : list A) :
  (forall x, In x xs -> f x = g x) ->
  comprehension f xs = comprehension g xs.
Proof.
  induction xs as [|a xs IH]; intros H; [reflexivity|]. cbn.
  rewrite (H a (or_introl eq_refl)).
  rewrite IH by (intros x Hx; apply H; now right). reflexivity.
Qed.

Lemma get_vehicle_routes_wrap {P} (self : VRPSolver P) (individual : list Z) :
  Forall (fun v => - num_locations self <= v) individual ->
  get_vehicle_routes self (map (wrap_index (num_locations self)) individual)
  = get_vehicle_routes self individual.
Proof.
  intros Hlow. rewrite !get_vehicle_routes_comprehension.
  apply comprehension_ext_in. intros i _. unfold vehicle_route.
  unfold len at 1. rewrite length_map. fold (len individual).
  destruct (range3 i (len individual) (num_vehicles self)) as [js|e];
    [|reflexivity].
  cbn [Py.bind].
  rewrite (comprehension_ext_in _
             (fun j => v <- getitem individual j ;; getitem (locations self) v));
    [reflexivity|].
  intros j _. rewrite getitem_map.
  destruct (getitem individual j) as [v|e] eqn:E; [|reflexivity].
  cbn [Py.bind]. apply getitem_wrap.
  rewrite Forall_forall in Hlow. apply Hlow. now apply getitem_in in E.
Qed.

(** X4.  Negative entries are read from the end of [locations], as
    Python reads them: for an individual whose entries are all at least
    [-num_locations], replacing every negative entry [v] by
    [v + num_locations] changes neither the decoded routes nor the
    fitness (nor the exception, if there is one). *)
Theorem negative_indices_wrap :
  forall (self : VRPSolver Point) (individual : list Z),
    Forall (fun v => - num_locations self <= v) individual ->
    get_vehicle_routes self (map (wrap_index (num_locations self)) individual)
    = get_vehicle_routes self individual /\
    _evaluate_vrp self (map (wrap_index (num_locations self)) individual)
    = _evaluate_vrp self individual.
Proof.
  intros self individual Hlow.
  pose proof (get_vehicle_routes_wrap self individual Hlow) as H.
  split; [exact H|].
  unfold _evaluate_vrp. rewrite !evaluate_loop.
  rewrite <- !get_vehicle_routes_comprehension, H. reflexivity.
Qed.

Lemma negative_indices_wrap_witness :
  get_vehicle_routes line_instance
    (map (wrap_index (num_locations line_instance)) [-1; 0; -2])
  = get_vehicle_routes line_instance [-1; 0; -2] /\
  _evaluate_vrp line_instance
    (map (wrap_index (num_locations line_instance)) [-1; 0; -2])
  = _evaluate_vrp line_instance [-1; 0; -2].
Proof.
  apply (negative_indices_wrap line_instance [-1; 0; -2]).
  repeat constructor; cbn; lia.
Defined.

(** ** How the stops are shared out *)

Lemma range_len_balanced (nv i i' n : Z) :
  0 <= i <= i' -> i' < nv -> 0 <= n ->
  range_len i' n nv <= range_len i n nv <= range_len i' n nv + 1.
Proof.
  intros Hi Hi' Hn. unfold range_len.
  destruct (Z.ltb_spec 0 nv); [|lia]. cbn [andb].
  destruct (Z.ltb_spec i' n) as [H1|H1].
  - destruct (Z.ltb_spec i n); [|lia].
    assert (A : (n - 1 - i') / nv <= (n - 1 - i) / nv)
      by (apply Z.div_le_mono; lia).
    assert (B : (n - 1 - i) / nv <= (n - 1 - i' + 1 * nv) / nv)
      by (apply Z.div_le_mono; lia).
    rewrite Z.div_add in B by lia. lia.
  - destruct (Z.ltb_spec nv 0); [lia|]. cbn [andb].
    destruct (Z.ltb_spec i n) as [H2|H2]; [|lia].
    rewrite Z.div_small by lia. lia.
Qed.

Lemma slot_count {P} (self : VRPSolver P) (n : nat) (i : Z) :
  0 <= i < num_vehicles self ->
  Z.of_nat (length (slot_positions self n i))
  = range_len i (Z.of_nat n) (num_vehicles self).
Proof.
  intros Hi. unfold slot_positions.
  pose proof (f_equal (@length Z) (range3_positions (num_vehicles self) i n Hi))
    as H.
  rewrite !length_map, length_seq in H. rewrite <- H.
  destruct (range_len_step (num_vehicles self) i (Z.of_nat n) Hi ltac:(lia))
    as (H0 & _). lia.
Qed.

(** X5.  The stops are dealt round-robin, so the routes are balanced in
    number of stops: vehicle [i] gets [len(range(i, n, num_vehicles))]
    stops, a later vehicle never gets more stops than an earlier one, and
    never fewer by more than one. *)
Theorem routes_balanced_in_stops :
  forall (P : Type) (self : VRPSolver P) (individual : list Z),
    1 <= num_vehicles self ->
    indices_in_range self individual ->
    exists routes,
      get_vehicle_routes self individual = Ok routes /\
      forall i i', 0 <= i <= i' -> i' < num_vehicles self ->
        exists r r',
          nth_error routes (Z.to_nat i) = Some r /\
          nth_error routes (Z.to_nat i') = Some r' /\
          len (stops_of_route r)
          = range_len i (len individual) (num_vehicles self) /\
          len (stops_of_route r') <= len (stops_of_route r)
          <= len (stops_of_route r') + 1.
Proof.
  intros P self individual Hnv Hin.
  eexists. split; [now apply get_vehicle_routes_by_modulo|].
  intros i i' Hi Hi'.
  exists (route_by_modulo self individual i), (route_by_modulo self individual i').
  rewrite !nth_error_map, !nth_range by lia. cbn [option_map].
  split; [reflexivity|]. split; [reflexivity|].
  unfold route_by_modulo. rewrite !stops_of_bracketed.
  unfold len. rewrite !length_map, !slot_count by lia.
  split; [reflexivity|]. apply range_len_balanced; lia.
Qed.

Lemma routes_balanced_in_stops_witness :
  exists routes,
    get_vehicle_routes (mkSolver [10; 11; 12; 13; 14] 99 3) [4; 0; 3; 1; 2]
    = Ok routes /\
    forall i i', 0 <= i <= i' -> i' < 3 ->
      exists r r',
        nth_error routes (Z.to_nat i) = Some r /\
        nth_error routes (Z.to_nat i') = Some r' /\
        len (stops_of_route r) = range_len i 5 3 /\
        len (stops_of_route r') <= len (stops_of_route r)
        <= len (stops_of_route r') + 1.
Proof.
  apply (routes_balanced_in_stops Z (mkSolver [10; 11; 12; 13; 14] 99 3)
           [4; 0; 3; 1; 2]).
  - cbn. lia.
  - unfold indices_in_range, num_locations, len. cbn.
    repeat constructor; lia.
Defined.

(** ** The fitness values *)

Lemma euclidean_nonneg (a b : Point) : (0 <= euclidean a b)%R.
Proof. unfold euclidean. apply sqrt_pos. Qed.

Lemma path_length_nonneg (route : list Point) : (0 <= path_length route)%R.
Proof.
  induction route as [|a [|b rest] IH]; try (cbn; lra).
  change (path_length (a :: b :: rest))
    with (euclidean a b + path_length (b :: rest))%R.
  pose proof (euclidean_nonneg a b). lra.
Qed.

Lemma Rsum_nonneg (xs : list R) :
  Forall (fun x => 0 <= x)%R xs -> (0 <= Rsum xs)%R.
Proof.
  induction 1 as [|x xs Hx _ IH]; cbn; lra.
Qed.

(** X6.  The evaluator never returns a negative component: when it
    returns, the total distance is a real number that is at least 0, and
    the balance penalty, when it is not [nan], is at least 0. *)
Theorem fitness_nonnegative :
  forall (self : VRPSolver Point) (individual : list Z) (d p : float),
    _evaluate_vrp self individual = Ok (d, p) ->
    (exists x, d = Some x /\ (0 <= x)%R) /\
    (forall y, p = Some y -> (0 <= y)%R).
Proof.
  intros self individual d p H. unfold _evaluate_vrp in H.
  rewrite evaluate_loop in H.
  destruct (comprehension _ _) as [routes|e]; cbn in H; [|discriminate H].
  inversion H; subst. split.
  - eexists. split; [reflexivity|].
    assert (0 <= Rsum (map path_length routes))%R; [|lra].
    apply Rsum_nonneg. apply Forall_forall. intros x Hx.
    apply in_map_iff in Hx. destruct Hx as (r & <- & _).
    apply path_length_nonneg.
  - intros y Hy. unfold np_std in Hy.
    destruct (map path_length routes); [discriminate Hy|].
    inversion Hy. apply sqrt_pos.
Qed.

Lemma fitness_nonnegative_witness :
  (exists x, Some 8%R = Some x /\ (0 <= x)%R) /\
  (forall y, Some 2%R = Some y -> (0 <= y)%R).
Proof.
  exact (fitness_nonnegative line_instance [1; 0; 2] (Some 8%R) (Some 2%R)
           evaluate_line_102).
Defined.

Lemma slot_positions_single {P} (self : VRPSolver P) (n : nat) :
  num_vehicles self = 1 -> slot_positions self n 0 = seq 0 n.
Proof.
  intros H. unfold slot_positions. rewrite H.
  induction (seq 0 n) as [|j l IH]; [reflexivity|]. cbn [filter].
  rewrite Z.mod_1_r. cbn. now rewrite IH.
Qed.

(** X7.  A single vehicle drives the whole individual in order: its route
    is the depot, the locations in the order of the individual, and the
    depot; the total distance is the length of that tour and the balance
    penalty is 0. *)
Theorem single_vehicle_tour :
  forall (self : VRPSolver Point) (individual : list Z),
    num_vehicles self = 1 ->
    indices_in_range self individual ->
    let tour :=
      [depot self]
        ++ map (fun v => nth (Z.to_nat v) (locations self) (depot self))
               individual
        ++ [depot self] in
    get_vehicle_routes self individual = Ok [tour] /\
    _evaluate_vrp self individual = Ok (Some (path_length tour), Some 0%R).
Proof.
  intros self individual Hnv Hin tour.
  assert (Hr : map (route_by_modulo self individual) (range (num_vehicles self))
               = [tour]).
  { rewrite Hnv. change (range 1) with [0]. cbn [map].
    unfold route_by_modulo.
    rewrite slot_positions_single by exact Hnv.
    now rewrite location_at_seq. }
  split.
  - rewrite get_vehicle_routes_by_modulo by exact Hin. now rewrite Hr.
  - rewrite evaluate_vrp_by_modulo by (lia || exact Hin). rewrite Hr.
    cbn [map Rsum]. rewrite population_std_single.
    do 3 f_equal. lra.
Qed.

Lemma single_vehicle_tour_witness :
  let self := mkSolver [(0, 0); (10, 0); (10, 10); (0, 10)]%R (0, 0)%R 1 in
  let tour := [(0, 0); (10, 10); (0, 0); (0, 10); (10, 0); (0, 0)]%R in
  get_vehicle_routes self [2; 0; 3; 1] = Ok [tour] /\
  _evaluate_vrp self [2; 0; 3; 1] = Ok (Some (path_length tour), Some 0%R).
Proof.
  apply (single_vehicle_tour
           (mkSolver [(0, 0); (10, 0); (10, 10); (0, 10)]%R (0, 0)%R 1)
           [2; 0; 3; 1]).
  - reflexivity.
  - unfold indices_in_range, num_locations, len. cbn.
    repeat constructor; lia.
Defined.

(** ** The size of the population *)

Section PopulationSize.

Context {RS : RandomSource}.

Lemma tournament_loop_length (tournsize : Z) (individuals : list Individual)
  (todo : list Z) :
  forall (g g' : rng RS) (acc chosen : list Individual),
    for_each_rand todo
      (fun chosen _ =>
         aspirants <~ selRandom individuals tournsize ;;
         winner <~ lift (max_by_fitness aspirants) ;;
         ret (chosen ++ [winner])) acc g = (Ok chosen, g') ->
    length chosen = (length acc + length todo)%nat.
Proof.
  induction todo as [|i todo IH]; intros g g' acc chosen H;
    cbn [for_each_rand] in H.
  - apply ret_ok_inv in H. destruct H as [-> _]. cbn. lia.
  - apply rbind_ok_inv in H. destruct H as (acc' & g1 & Hb & H).
    apply rbind_ok_inv in Hb. destruct Hb as (asp & g2 & _ & Hb).
    apply rbind_ok_inv in Hb. destruct Hb as (w & g3 & _ & Hb).
    apply ret_ok_inv in Hb. destruct Hb as [-> _].
    rewrite (IH g1 g' _ chosen H). rewrite length_app. cbn. lia.
Qed.

Lemma selTournament_length (tournsize : Z) (individuals : list Individual)
  (k : Z) (g g' : rng RS) (chosen : list Individual) :
  selTournament tournsize individuals k g = (Ok chosen, g') ->
  length chosen = Z.to_nat k.
Proof.
  intros H. apply tournament_loop_length in H.
  now rewrite range_length in H.
Qed.

Lemma mate_pairs_length (tb : Toolbox RS) (cxpb : Q) (offspring : list Individual) :
  forall g off g',
    mate_pairs tb cxpb offspring g = (Ok off, g') ->
    length off = length offspring.
Proof.
  remember (length offspring) as n eqn:En. revert offspring En.
  induction n as [n IH] using lt_wf_ind. intros offspring En g off g' H.
  destruct offspring as [|a [|b rest]]; cbn in H.
  - apply ret_ok_inv in H. destruct H as [-> _]. now symmetry.
  - apply ret_ok_inv in H. destruct H as [-> _]. now symmetry.
  - apply rbind_ok_inv in H. destruct H as (u & g1 & _ & H).
    apply rbind_ok_inv in H. destruct H as (pair & g2 & _ & H).
    apply rbind_ok_inv in H. destruct H as (rest' & g3 & Hrest & H).
    apply ret_ok_inv in H. destruct H as [-> _]. subst n. cbn. do 2 f_equal.
    apply (IH (length rest)) with (offspring := rest) (g := g2) (g' := g3);
      [cbn; lia | reflexivity | exact Hrest].
Qed.

Lemma ea_record_length (tb : Toolbox RS) (st : Statistics) (s s' : ea_state)
  (i : Z) (offspring : list Individual) :
  ea_record tb st s i offspring = Ok s' ->
  length (ea_population s') = length offspring.
Proof.
  unfold ea_record.
  destruct (evaluate_invalid tb offspring) as [evd|e] eqn:E; cbn;
    [|discriminate].
  destruct (hof_update _ _); cbn; [|discriminate].
  destruct (stats_compile _ _); cbn; [|discriminate].
  intros H. inversion H; subst. cbn.
  now apply comprehension_length in E.
Qed.

Lemma ea_generation_length (tb : Toolbox RS) (cxpb mutpb : Q) (st : Statistics)
  (s s' : ea_state) (i : Z) (g g' : rng RS) :
  (forall pop k g chosen g',
      select tb pop k g = (Ok chosen, g') -> length chosen = Z.to_nat k) ->
  ea_generation tb cxpb mutpb st s i g = (Ok s', g') ->
  length (ea_population s') = length (ea_population s).
Proof.
  intros Hsel H. unfold ea_generation in H.
  apply rbind_ok_inv in H. destruct H as (sel & g1 & Hs & H).
  apply rbind_ok_inv in H. destruct H as (off & g2 & Hvar & H).
  apply lift_ok_inv in H. destruct H as [H _].
  apply ea_record_length in H. rewrite H.
  unfold varAnd in Hvar.
  apply rbind_ok_inv in Hvar. destruct Hvar as (off1 & g3 & Hm & Hmu).
  apply comprehension_rand_length in Hmu. apply mate_pairs_length in Hm.
  apply Hsel in Hs. unfold len in Hs. lia.
Qed.

Lemma eaSimple_length (tb : Toolbox RS) (population : list Individual)
  (cxpb mutpb : Q) (ngen : Z) (st : Statistics) (hof : HallOfFame)
  (g g' : rng RS) (s : ea_state) :
  (forall pop k g chosen g',
      select tb pop k g = (Ok chosen, g') -> length chosen = Z.to_nat k) ->
  eaSimple population tb cxpb mutpb ngen st hof g = (Ok s, g') ->
  length (ea_population s) = length population.
Proof.
  intros Hsel H. unfold eaSimple in H.
  apply rbind_ok_inv in H. destruct H as (s0 & g1 & H0 & H).
  apply rbind_ok_inv in H. destruct H as (gens & g2 & _ & H).
  apply lift_ok_inv in H0. destruct H0 as [H0 _].
  apply ea_record_length in H0.
  apply (for_each_rand_invariant
           (fun s => length (ea_population s) = length population)
           (ea_generation tb cxpb mutpb st) gens) with (s := s0) (g := g2)
    (g' := g'); [|exact H0|exact H].
  intros s1 i g3 s2 g4 _ Hs1 Hstep.
  now rewrite (ea_generation_length _ _ _ _ _ _ _ _ _ Hsel Hstep).
Qed.

End PopulationSize.

(** X8.  Whenever [solve] returns, [pop_size] is at least 1 and the
    final population holds exactly [pop_size] individuals: selection,
    crossover, mutation and replacement keep the size of the population
    through every generation. *)
Theorem solve_keeps_population_size :
  forall (RS : RandomSource) (self : VRPSolver Point) (args : SolveArgs)
         (g g' : rng RS) (r : SolveResult),
    solve self args g = (Ok r, g') ->
    1 <= pop_size args /\ len (final_population r) = pop_size args.
Proof.
  intros RS self args g g' r H. apply solve_ok_inv in H.
  destruct H as (pop & g1 & s & Hpop & Hea & _ & Hr).
  destruct (population_valid self (pop_size args) (seed_state RS (seed args)))
    as (pop' & g1' & E & _ & Hl).
  rewrite E in Hpop. inversion Hpop; subst pop' g1'.
  assert (Hne : pop <> []).
  { intros C. subst pop. rewrite eaSimple_empty_population in Hea.
    discriminate Hea. }
  assert (Hp : 1 <= pop_size args).
  { destruct pop; [congruence | cbn in Hl; lia]. }
  split; [exact Hp|]. rewrite Hr. cbn [final_population]. unfold len.
  rewrite (eaSimple_length (toolbox self (tournsize args)) pop (cxpb args)
             (mutpb args) (ngen args) solve_stats (mkHallOfFame 1 [] []) g1 g' s
             (fun pop k g chosen g' =>
                selTournament_length (tournsize args) pop k g g' chosen)
             Hea).
  lia.
Qed.

Lemma solve_keeps_population_size_witness :
  exists r g',
    solve (RS := digit_source) line_instance line_args 0 = (Ok r, g') /\
    1 <= pop_size line_args /\
    len (final_population r) = pop_size line_args.
Proof.
  destruct line_run as (r & g' & E & _).
  exists r, g'. split; [exact E|].
  exact (solve_keeps_population_size digit_source line_instance line_args
           0 g' r E).
Defined.

Lemma range3_no_generation (ngen : Z) :
  ngen <= 0 -> range3 1 (ngen + 1) 1 = Ok [].
Proof.
  intros H. unfold range3, range_len. cbn [Z.eqb Z.ltb Z.compare andb].
  destruct (Z.ltb_spec 1 (ngen + 1)); [lia | reflexivity].
Qed.

(** The fitness an individual returned by [solve] carries is the one the
    evaluator computes on its list. *)
Lemma solve_consistent_fitness :
  forall (RS : RandomSource) (self : VRPSolver Point) (args : SolveArgs)
         (g g' : rng RS) (r : SolveResult),
    1 <= num_vehicles self ->
    solve self args g = (Ok r, g') ->
    forall x, x = best_individual r \/ In x (final_population r) ->
      exists d p,
        _evaluate_vrp self (genes x) = Ok (Some d, Some p) /\
        fitness_values x = [Some d; Some p].
Proof.
  intros RS self args g g' r Hnv H.
  assert (Hk : exists k, solve self (with_ngen args (Z.of_nat k)) g = (Ok r, g')).
  { destruct (Z.le_gt_cases 0 (ngen args)) as [Hn|Hn].
    - exists (Z.to_nat (ngen args)). rewrite Z2Nat.id by exact Hn.
      destruct args; exact H.
    - exists 0%nat. rewrite <- H. unfold solve, with_ngen. cbn [pop_size cxpb
        mutpb ngen tournsize seed]. unfold eaSimple.
      rewrite (range3_no_generation (ngen args)) by lia.
      rewrite (range3_no_generation (Z.of_nat 0)) by (cbn; lia).
      reflexivity. }
  destruct Hk as (k & Hk). clear H.
  apply solve_ok_inv in Hk.
  destruct Hk as (pop & g1 & sk & Hpop & Hea & Hbest & Hr).
  cbn [with_ngen pop_size cxpb mutpb ngen tournsize seed] in Hpop, Hea.
  assert (Hne : pop <> []).
  { intros C. subst pop. rewrite eaSimple_empty_population in Hea.
    discriminate Hea. }
  assert (Hf : Forall (fresh_or_consistent
                         (evaluate (toolbox (RS := RS) self (tournsize args)))) pop).
  { destruct (population_valid self (pop_size args) (seed_state RS (seed args)))
      as (pop' & g1' & E & Hv & _).
    rewrite E in Hpop. inversion Hpop; subst.
    apply Forall_forall. intros x Hx. rewrite Forall_forall in Hv.
    left. now apply Hv. }
  destruct (eaSimple_hall (toolbox self (tournsize args))
              (fun l d p => evaluate_vrp_finite self l d p Hnv)
              (fun pop k g chosen g' => selTournament_in _ pop k g g' chosen)
              pop (cxpb args) (mutpb args) solve_stats g1 k Hne Hf sk g' Hea)
    as (hk & (Hh & Hc & Hp & _) & _).
  rewrite Hh in Hbest. cbn in Hbest. inversion Hbest as [Ebest].
  assert (Hall : forall x, consistent (_evaluate_vrp self) x ->
                   exists d p,
                     _evaluate_vrp self (genes x) = Ok (Some d, Some p) /\
                     fitness_values x = [Some d; Some p]).
  { intros x (f & Ef & Hfx). exists (fst f), (snd f). split; [exact Ef|].
    now apply has_fitness_values. }
  intros x [->|Hx]; apply Hall.
  - rewrite <- Ebest. exact Hc.
  - rewrite Hr in Hx. cbn [final_population] in Hx.
    rewrite Forall_forall in Hp. now apply Hp.
Qed.

(** X9.  No stale fitness: with at least one vehicle, every individual
    [solve] returns (the best one and those of the final population)
    carries the fitness values that [_evaluate_vrp] computes on its own
    list, both real numbers.  So the distance the tuners read off the
    best individual is the total distance of its routes. *)
Theorem solve_returns_consistent_fitness :
  forall (RS : RandomSource) (self : VRPSolver Point) (args : SolveArgs)
         (g g' : rng RS) (r : SolveResult),
    1 <= num_vehicles self ->
    solve self args g = (Ok r, g') ->
    forall x, x = best_individual r \/ In x (final_population r) ->
      exists d p,
        _evaluate_vrp self (genes x) = Ok (Some d, Some p) /\
        fitness_values x = [Some d; Some p].
Proof.
  intros RS self args g g' r Hnv H x Hx.
  exact (solve_consistent_fitness RS self args g g' r Hnv H x Hx).
Qed.

Lemma solve_returns_consistent_fitness_witness :
  exists r g',
    solve (RS := digit_source) line_instance line_args 0 = (Ok r, g') /\
    exists d p,
      _evaluate_vrp line_instance (genes (best_individual r))
      = Ok (Some d, Some p) /\
      fitness_values (best_individual r) = [Some d; Some p].
Proof.
  destruct line_run as (r & g' & E & _).
  exists r, g'. split; [exact E|].
  apply (solve_returns_consistent_fitness digit_source line_instance line_args
           0 g' r ltac:(cbn; lia) E).
  now left.
Defined.

(** ** Moving an instance *)

Lemma comprehension_bind_map {A B C} (f : A -> result B) (h : B -> C)
  (xs : list A) :
  comprehension (fun x => y <- f x ;; Ok (h y)) xs
  = (ys <- comprehension f xs ;; Ok (map h ys)).
Proof.
  induction xs as [|x xs IH]; [reflexivity|]. cbn [comprehension].
  destruct (f x) as [y|e]; cbn [Py.bind]; [|reflexivity].
  rewrite IH. destruct (comprehension f xs); reflexivity.
Qed.

Lemma vehicle_route_translate (v : Point) (self : VRPSolver Point)
  (individual : list Z) (i : Z) :
  vehicle_route (translate_instance v self) individual i
  = (route <- vehicle_route self individual i ;; Ok (map (translate v) route)).
Proof.
  unfold vehicle_route, translate_instance.
  cbn [num_vehicles locations depot].
  destruct (range3 _ _ _) as [js|e]; cbn [Py.bind]; [|reflexivity].
  rewrite (comprehension_ext_in _
             (fun j => y <- (w <- getitem individual j ;;
                             getitem (locations self) w) ;;
                       Ok (translate v y)) js).
  2:{ intros j _. destruct (getitem individual j); cbn [Py.bind];
        [apply getitem_map | reflexivity]. }
  rewrite comprehension_bind_map.
  destruct (comprehension _ js) as [stops|e]; cbn [Py.bind]; [|reflexivity].
  now rewrite !map_app.
Qed.

Lemma euclidean_translate (v a b : Point) :
  euclidean (translate v a) (translate v b) = euclidean a b.
Proof.
  unfold euclidean, translate. cbn [fst snd]. f_equal. ring.
Qed.

Lemma path_length_translate (v : Point) (route : list Point) :
  path_length (map (translate v) route) = path_length route.
Proof.
  induction route as [|a [|b rest] IH]; [reflexivity | reflexivity |].
  change (path_length (map (translate v) (a :: b :: rest)))
    with (euclidean (translate v a) (translate v b)
          + path_length (map (translate v) (b :: rest)))%R.
  rewrite IH, euclidean_translate. reflexivity.
Qed.

(** X10.  Only relative positions count: moving the depot and every
    location by the same vector moves every point of every decoded route
    by that vector, and leaves both fitness values as they are (and the
    exception, when the individual is not decodable). *)
Theorem fitness_invariant_under_translation :
  forall (v : Point) (self : VRPSolver Point) (individual : list Z),
    get_vehicle_routes (translate_instance v self) individual
    = (routes <- get_vehicle_routes self individual ;;
       Ok (map (map (translate v)) routes)) /\
    _evaluate_vrp (translate_instance v self) individual
    = _evaluate_vrp self individual.
Proof.
  intros v self individual.
  assert (E : comprehension
                (vehicle_route (translate_instance v self) individual)
                (range (num_vehicles self))
              = (routes <- comprehension (vehicle_route self individual)
                             (range (num_vehicles self)) ;;
                 Ok (map (map (translate v)) routes))).
  { rewrite <- comprehension_bind_map. apply comprehension_ext_in.
    intros i _. apply vehicle_route_translate. }
  split.
  - rewrite !get_vehicle_routes_comprehension. exact E.
  - unfold _evaluate_vrp. rewrite !evaluate_loop.
    change (num_vehicles (translate_instance v self))
      with (num_vehicles self).
    rewrite E.
    destruct (comprehension (vehicle_route self individual)
                (range (num_vehicles self))) as [routes|e];
      cbn [Py.bind]; [|reflexivity].
    rewrite map_map.
    rewrite (map_ext (fun r => path_length (map (translate v) r)) path_length)
      by (intros r; apply path_length_translate).
    reflexivity.
Qed.

(** ** Degenerate arguments of [solve] *)

Lemma population_nonpositive {RS : RandomSource} (self : VRPSolver Point)
  (k : Z) (g : rng RS) :
  k <= 0 -> population self k g = (Ok [], g).
Proof.
  intros Hk. unfold population, range.
  replace (Z.to_nat k) with 0%nat by lia. reflexivity.
Qed.

(** X11.  An empty population is an error, but not one of validation:
    with [pop_size <= 0], [solve] seeds the generator, builds an empty
    population and raises [ValueError] when the statistics of generation
    0 are compiled ([np.min] has nothing to reduce), whatever the other
    arguments. *)
Theorem solve_empty_population_raises :
  forall (RS : RandomSource) (self : VRPSolver Point) (args : SolveArgs)
         (g : rng RS),
    pop_size args <= 0 ->
    solve self args g = (Raise ValueError, seed_state RS (seed args)).
Proof.
  intros RS self args g Hp. unfold solve.
  unfold rbind at 1, random_seed at 1.
  unfold rbind at 1. rewrite population_nonpositive by exact Hp.
  unfold rbind at 1. now rewrite eaSimple_empty_population.
Qed.

Lemma solve_empty_population_raises_witness :
  solve (RS := digit_source) line_instance (mkArgs 0 (7 # 10) (2 # 10) 5 3 42) 7
  = (Raise ValueError, 42).
Proof.
  apply (solve_empty_population_raises digit_source line_instance
           (mkArgs 0 (7 # 10) (2 # 10) 5 3 42) 7).
  cbn. lia.
Defined.

(** X12.  A negative number of generations is a run without generations:
    for [ngen <= 0], [solve] does exactly what it does for [ngen = 0]
    (same result or same exception, same generator state). *)
Theorem solve_negative_ngen_is_zero :
  forall (RS : RandomSource) (self : VRPSolver Point) (args : SolveArgs)
         (g : rng RS),
    ngen args <= 0 ->
    solve self args g = solve self (with_ngen args 0) g.
Proof.
  intros RS self args g Hn. unfold solve, with_ngen.
  cbn [pop_size cxpb mutpb ngen tournsize seed]. unfold eaSimple.
  rewrite (range3_no_generation (ngen args)) by exact Hn.
  rewrite (range3_no_generation 0) by lia. reflexivity.
Qed.

Lemma solve_negative_ngen_is_zero_witness :
  solve (RS := digit_source) line_instance (mkArgs 4 (7 # 10) (2 # 10) (-3) 3 42) 0
  = solve (RS := digit_source) line_instance
          (with_ngen (mkArgs 4 (7 # 10) (2 # 10) (-3) 3 42) 0) 0.
Proof.
  apply (solve_negative_ngen_is_zero digit_source line_instance
           (mkArgs 4 (7 # 10) (2 # 10) (-3) 3 42) 0).
  cbn. lia.
Defined.

(** ** The operators on degenerate individuals *)

(** X13.  Instances too small for the operators.  On a single location
    the shuffle mutation returns the individual unchanged when its draw
    is at least [indpb], and raises [ValueError] otherwise
    ([random.randint(0, -1)]); on no location the crossover always raises
    [ValueError] (its second cut point cannot be drawn), after having
    drawn the first. *)
Theorem operators_on_tiny_instances :
  forall (RS : RandomSource) (g : rng RS),
    (forall (indpb : Q) (v : Z),
        mutShuffleIndexes indpb [v] g
        = if Qlt_le_dec (fst (random_float RS g)) indpb
          then (Raise ValueError, snd (random_float RS g))
          else (Ok [v], snd (random_float RS g))) /\
    cxPartialyMatched [] [] g
    = (Raise ValueError, snd (randbelow RS 1 g)).
Proof.
  intros RS g. split.
  - intros indpb v. unfold mutShuffleIndexes.
    change (range (len [v])) with [0]. cbn [for_each_rand].
    unfold rbind at 1, shuffle_step. unfold rbind at 1, random_random.
    destruct (random_float RS g) as [u g1]. cbn [fst snd].
    destruct (Qlt_le_dec u indpb).
    + unfold rbind at 1. now rewrite random_randint_empty by (cbn; lia).
    + reflexivity.
  - unfold cxPartialyMatched.
    change (Z.min (len (@nil Z)) (len (@nil Z))) with 0.
    change (pmx_positions [] [] 0) with (Ok (@nil Z, @nil Z)).
    unfold rbind at 1, lift at 1. unfold rbind at 1, random_randint at 1.
    cbn [Z.ltb Z.compare Z.add Z.sub Z.opp Z.pos_sub].
    unfold rbind at 1, py_randbelow at 1.
    destruct (randbelow RS 1 g) as [r g1]. cbn [snd]. unfold ret at 1.
    unfold rbind at 1. now rewrite random_randint_empty by lia.
Qed.

(** ** Tournaments that cannot be held *)

Section TournamentErrors.

Context {RS : RandomSource}.

Lemma selTournament_no_aspirant (tournsize : Z) (individuals : list Individual)
  (k : Z) (g : rng RS) :
  tournsize <= 0 -> 1 <= k ->
  selTournament tournsize individuals k g = (Raise ValueError, g).
Proof.
  intros Ht Hk. unfold selTournament, range.
  destruct (Z.to_nat k) as [|n] eqn:E; [lia|].
  cbn [seq map for_each_rand]. unfold rbind at 1. unfold rbind at 1.
  unfold selRandom, range. replace (Z.to_nat tournsize) with 0%nat by lia.
  reflexivity.
Qed.

Lemma selTournament_no_population (tournsize : Z) (k : Z) (g : rng RS) :
  1 <= tournsize -> 1 <= k ->
  selTournament tournsize [] k g = (Raise IndexError, g).
Proof.
  intros Ht Hk. unfold selTournament, range.
  destruct (Z.to_nat k) as [|n] eqn:E; [lia|].
  cbn [seq map for_each_rand]. unfold rbind at 1. unfold rbind at 1.
  unfold selRandom, range.
  destruct (Z.to_nat tournsize) as [|m] eqn:E'; [lia|]. reflexivity.
Qed.

Lemma selTournament_nothing_asked (tournsize : Z)
  (individuals : list Individual) (k : Z) (g : rng RS) :
  k <= 0 -> selTournament tournsize individuals k g = (Ok [], g).
Proof.
  intros Hk. unfold selTournament, range.
  replace (Z.to_nat k) with 0%nat by lia. reflexivity.
Qed.

End TournamentErrors.

(** X14.  What a tournament cannot do.  Asked for at least one
    individual, [selTournament] raises [ValueError] when [tournsize <= 0]
    ([max] of no aspirant) without drawing anything, and [IndexError] on
    an empty population with [tournsize >= 1]; asked for none, it returns
    the empty list whatever the other arguments. *)
Theorem tournament_errors :
  forall (RS : RandomSource) (g : rng RS),
    (forall tournsize individuals k,
        tournsize <= 0 -> 1 <= k ->
        selTournament tournsize individuals k g = (Raise ValueError, g)) /\
    (forall tournsize k,
        1 <= tournsize -> 1 <= k ->
        selTournament tournsize [] k g = (Raise IndexError, g)) /\
    (forall tournsize individuals k,
        k <= 0 -> selTournament tournsize individuals k g = (Ok [], g)).
Proof.
  intros RS g. split; [|split].
  - intros. now apply selTournament_no_aspirant.
  - intros. now apply selTournament_no_population.
  - intros. now apply selTournament_nothing_asked.
Qed.

Lemma tournament_errors_witness :
  selTournament (RS := digit_source) 0
    [mkIndividual [0; 1] []; mkIndividual [1; 0] []] 2 1234
  = (Raise ValueError, 1234).
Proof.
  apply (proj1 (tournament_errors digit_source 1234)); lia.
Defined.

(** X15.  A tournament size that is not positive goes unnoticed until the
    first tournament: with [pop_size >= 1], [ngen >= 1] and
    [tournsize <= 0], [solve] creates and evaluates the initial
    population and then raises [ValueError] in the selection of
    generation 1. *)
Theorem solve_bad_tournsize_raises_late :
  forall (RS : RandomSource) (self : VRPSolver Point) (args : SolveArgs)
         (g : rng RS),
    1 <= pop_size args -> 1 <= ngen args -> tournsize args <= 0 ->
    exists pop,
      population self (pop_size args) (seed_state RS (seed args))
      = (Ok pop, snd (solve self args g)) /\
      fst (solve self args g) = Raise ValueError.
Proof.
  intros RS self args g Hp Hn Ht.
  destruct (population_valid self (pop_size args) (seed_state RS (seed args)))
    as (pop & g1 & Ep & Hv & Hl).
  destruct (evaluate_invalid_fresh (RS := RS) self (tournsize args) pop Hv)
    as (evd & Ee & Hle & Hw).
  assert (Hne : evd <> []).
  { intros C. rewrite C in Hle. cbn in Hle. lia. }
  destruct (hof_update_total evd Hne) as (h & Eh).
  destruct (stats_compile_total evd Hne Hw) as (record & Es).
  assert (Eea : eaSimple pop (toolbox self (tournsize args)) (cxpb args)
                  (mutpb args) (ngen args) solve_stats (mkHallOfFame 1 [] []) g1
                = (Raise ValueError, g1)).
  { unfold eaSimple, rbind at 1, lift at 1, ea_record.
    cbn [ea_halloffame ea_logbook]. rewrite Ee. cbn [Py.bind].
    rewrite Eh. cbn [Py.bind]. rewrite Es. cbn [Py.bind].
    destruct (range3_generations (ngen args)) as (gens & Eg & Er).
    unfold rbind at 1, lift at 1. rewrite Eg.
    destruct gens as [|i gens].
    { exfalso. unfold range in Er.
      replace (Z.to_nat (Z.max 0 (ngen args) + 1))
        with (S (S (Z.to_nat (ngen args - 1)))) in Er by lia.
      cbn in Er. discriminate Er. }
    cbn [for_each_rand]. unfold rbind at 1, ea_generation.
    unfold rbind at 1. cbn [select toolbox ea_population].
    rewrite selTournament_no_aspirant; [reflexivity | exact Ht |].
    unfold len. lia. }
  assert (Es' : solve self args g = (Raise ValueError, g1)).
  { unfold solve. unfold rbind at 1, random_seed at 1.
    unfold rbind at 1. rewrite Ep. unfold rbind at 1. now rewrite Eea. }
  exists pop. rewrite Es'. cbn [fst snd]. split; [exact Ep | reflexivity].
Qed.

Lemma solve_bad_tournsize_raises_late_witness :
  exists pop,
    population (RS := digit_source) line_instance 2 42
    = (Ok pop, snd (solve (RS := digit_source) line_instance
                      (mkArgs 2 (7 # 10) (2 # 10) 3 0 42) 0)) /\
    fst (solve (RS := digit_source) line_instance
           (mkArgs 2 (7 # 10) (2 # 10) 3 0 42) 0) = Raise ValueError.
Proof.
  apply (solve_bad_tournsize_raises_late digit_source line_instance
           (mkArgs 2 (7 # 10) (2 # 10) 3 0 42) 0); cbn; lia.
Defined.

(** ** The instance generator *)

Section LocationFacts.

Context {RS : RandomSource}.

Lemma random_location_ok (x_range y_range : Z * Z) (g : rng RS) :
  fst x_range <= snd x_range -> fst y_range <= snd y_range ->
  exists p g', random_location x_range y_range g = (Ok p, g') /\
               in_box x_range y_range p.
Proof.
  intros Hx Hy. unfold random_location.
  destruct (random_randint_ok (fst x_range) (snd x_range) g Hx)
    as (x & g1 & Ex & Bx).
  destruct (random_randint_ok (fst y_range) (snd y_range) g1 Hy)
    as (y & g2 & Ey & By).
  exists (x, y), g2. unfold rbind. rewrite Ex, Ey. unfold ret.
  split; [reflexivity | split; assumption].
Qed.

Lemma random_location_empty (x_range y_range : Z * Z) (g : rng RS) :
  snd x_range < fst x_range \/ snd y_range < fst y_range ->
  fst (random_location x_range y_range g) = Raise ValueError.
Proof.
  intros H. unfold random_location.
  destruct (Z.le_gt_cases (fst x_range) (snd x_range)) as [Hx|Hx].
  - destruct H as [H|H]; [lia|].
    destruct (random_randint_ok (fst x_range) (snd x_range) g Hx)
      as (x & g1 & Ex & _).
    unfold rbind at 1. rewrite Ex. unfold rbind at 1.
    now rewrite random_randint_empty by exact H.
  - unfold rbind at 1. now rewrite random_randint_empty by lia.
Qed.

(** A comprehension whose body ignores the loop variable only counts. *)
Lemma comprehension_rand_const {A B C} (c : Rand RS C) (xs : list A)
  (ys : list B) (g : rng RS) :
  length xs = length ys ->
  comprehension_rand (fun _ => c) xs g = comprehension_rand (fun _ => c) ys g.
Proof.
  revert ys g. induction xs as [|x xs IH]; intros [|y ys] g H;
    try discriminate H; [reflexivity|].
  cbn [comprehension_rand]. unfold rbind.
  destruct (c g) as [[v|e] g1]; [|reflexivity].
  fold (@rbind RS). rewrite (IH ys g1) by (cbn in H; lia). reflexivity.
Qed.

Lemma comprehension_rand_app {A B} (f : A -> Rand RS B) (xs ys : list A)
  (g : rng RS) :
  comprehension_rand f (xs ++ ys) g
  = (a <~ comprehension_rand f xs ;;
     b <~ comprehension_rand f ys ;;
     ret (a ++ b)) g.
Proof.
  revert g. induction xs as [|x xs IH]; intros g; cbn [app comprehension_rand].
  - unfold rbind at 2, ret at 1. unfold rbind.
    destruct (comprehension_rand f ys g) as [[b|e] g1]; reflexivity.
  - unfold rbind, ret in *.
    destruct (f x g) as [[v|e] g1]; [|reflexivity].
    rewrite IH.
    destruct (comprehension_rand f xs g1) as [[a|e] g2]; [|reflexivity].
    destruct (comprehension_rand f ys g2) as [[b|e] g3]; reflexivity.
Qed.

End LocationFacts.

(** X16.  With two non-empty coordinate ranges,
    [generate_random_locations] always returns, gives exactly
    [max(0, num_locations)] locations, and each location lies in the box
    of the two ranges, bounds included. *)
Theorem generated_locations_in_box :
  forall (RS : RandomSource) (num_locations : Z) (x_range y_range : Z * Z)
         (seed : option Z) (g : rng RS),
    fst x_range <= snd x_range -> fst y_range <= snd y_range ->
    exists locations g',
      generate_random_locations num_locations x_range y_range seed g
      = (Ok locations, g') /\
      len locations = Z.max 0 num_locations /\
      Forall (in_box x_range y_range) locations.
Proof.
  intros RS n xr yr seed g Hx Hy. unfold generate_random_locations.
  set (g0 := match seed with Some a => seed_state RS a | None => g end).
  destruct (comprehension_rand_total (RS := RS) (in_box xr yr)
              (fun _ : Z => random_location xr yr) (range n)
              (fun _ g _ => random_location_ok xr yr g Hx Hy) g0)
    as (locs & g' & E & Hall & Hl).
  exists locs, g'. split; [|split; [|exact Hall]].
  - unfold rbind at 1. destruct seed as [a|]; cbn; exact E.
  - unfold len. rewrite Hl, range_length. lia.
Qed.

Lemma generated_locations_in_box_witness :
  exists locations g',
    generate_random_locations (RS := digit_source) 3 (0, 9) (5, 7) (Some 102030405) 0
    = (Ok locations, g') /\
    len locations = Z.max 0 3 /\
    Forall (in_box (0, 9) (5, 7)) locations.
Proof.
  apply (generated_locations_in_box digit_source 3 (0, 9) (5, 7)
           (Some 102030405) 0); cbn; lia.
Defined.

(** X17.  An empty coordinate range is noticed only when a location is
    drawn: with [x_range] or [y_range] empty the generator raises
    [ValueError] as soon as [num_locations >= 1], and returns the empty
    list for [num_locations <= 0]. *)
Theorem generate_with_empty_range :
  forall (RS : RandomSource) (num_locations : Z) (x_range y_range : Z * Z)
         (seed : option Z) (g : rng RS),
    snd x_range < fst x_range \/ snd y_range < fst y_range ->
    fst (generate_random_locations num_locations x_range y_range seed g)
    = if 1 <=? num_locations then Raise ValueError else Ok [].
Proof.
  intros RS n xr yr seed g H. unfold generate_random_locations.
  set (g0 := match seed with Some a => seed_state RS a | None => g end).
  assert (E : forall c : Rand RS (list (Z * Z)),
             rbind match seed with
                   | Some a => random_seed a
                   | None => ret tt
                   end (fun _ => c) g = c g0).
  { intros c. unfold rbind. destruct seed; reflexivity. }
  rewrite E. unfold range.
  destruct (Z.leb_spec 1 n) as [Hn|Hn].
  - destruct (Z.to_nat n) as [|k] eqn:Ek; [lia|].
    cbn [seq map comprehension_rand]. unfold rbind at 1.
    pose proof (random_location_empty xr yr g0 H) as Hr.
    destruct (random_location xr yr g0) as [[p|e] g1]; cbn [fst] in Hr.
    + discriminate Hr.
    + cbn [fst]. now inversion Hr.
  - replace (Z.to_nat n) with 0%nat by lia. reflexivity.
Qed.

Lemma generate_with_empty_range_witness :
  fst (generate_random_locations (RS := digit_source) 2 (0, 9) (7, 5) None 1234)
  = if 1 <=? 2 then Raise ValueError else Ok [].
Proof.
  apply (generate_with_empty_range digit_source 2 (0, 9) (7, 5) None 1234).
  right. cbn. lia.
Defined.

(** X18.  Locations come one after the other from the same stream:
    generating [n + m] locations is generating [n] of them, with the
    seed if one is given, and then [m] more without reseeding. *)
Theorem generate_in_two_batches :
  forall (RS : RandomSource) (n m : Z) (x_range y_range : Z * Z)
         (seed : option Z) (g : rng RS),
    0 <= n -> 0 <= m ->
    generate_random_locations (n + m) x_range y_range seed g
    = (a <~ generate_random_locations n x_range y_range seed ;;
       b <~ generate_random_locations m x_range y_range None ;;
       ret (a ++ b)) g.
Proof.
  intros RS n m xr yr seed g Hn Hm. unfold generate_random_locations.
  set (g0 := match seed with Some a => seed_state RS a | None => g end).
  assert (E : forall (A : Type) (c : Rand RS A),
             rbind match seed with
                   | Some a => random_seed a
                   | None => ret tt
                   end (fun _ => c) g = c g0).
  { intros A c. unfold rbind. destruct seed; reflexivity. }
  rewrite E.
  rewrite (comprehension_rand_const (random_location xr yr) (range (n + m))
             (range n ++ range m) g0).
  2:{ rewrite length_app, !range_length. lia. }
  rewrite comprehension_rand_app. clear E. subst g0.
  unfold rbind, ret, random_seed.
  destruct seed as [a|];
    destruct (comprehension_rand _ (range n) _) as [[l1|e] g1]; reflexivity.
Qed.

Lemma generate_in_two_batches_witness :
  generate_random_locations (RS := digit_source) (2 + 1) (0, 9) (5, 7) (Some 605040302) 0
  = (a <~ generate_random_locations (RS := digit_source) 2 (0, 9) (5, 7)
            (Some 605040302) ;;
     b <~ generate_random_locations 1 (0, 9) (5, 7) None ;;
     ret (a ++ b)) 0.
Proof.
  apply (generate_in_two_batches digit_source 2 1 (0, 9) (5, 7)
           (Some 605040302) 0); lia.
Defined.

(** ** Runs that cannot fail *)

Lemma scored_ready (n : Z) (ind : Individual) : scored n ind -> ready n ind.
Proof. intros [H1 H2]. split; [exact H1 | now right]. Qed.

Lemma hof_update_loop_member (population : list Individual) (h : Individual)
  (xs : list Individual) :
  exists h',
    for_each xs (hof_update_one population) (hall_of h) = Ok (hall_of h') /\
    (h' = h \/ In h' xs).
Proof.
  revert h. induction xs as [|x xs IH]; intros h; cbn [for_each].
  - exists h. split; [reflexivity | now left].
  - rewrite hof_update_one_member. cbn [Py.bind].
    destruct (fitness_gt x h && negb (similar x h)).
    + destruct (IH x) as (h' & E & Hin). exists h'. split; [exact E|].
      cbn [In]. destruct Hin as [->|Hin]; auto.
    + destruct (IH h) as (h' & E & Hin). exists h'. split; [exact E|].
      cbn [In]. destruct Hin as [->|Hin]; auto.
Qed.

Section SolveTotal.

Context {RS : RandomSource}.
Variable self : VRPSolver Point.
Variable t : Z.

Hypothesis two_locations : 2 <= num_locations self.
Hypothesis some_aspirant : 1 <= t.

Lemma evaluate_invalid_ready (offspring : list Individual) :
  Forall (ready (num_locations self)) offspring ->
  exists ev,
    evaluate_invalid (toolbox (RS := RS) self t) offspring = Ok ev /\
    length ev = length offspring /\
    Forall (scored (num_locations self)) ev.
Proof.
  induction offspring as [|ind pop IH]; intros Hv.
  - exists []. repeat split. constructor.
  - inversion Hv as [|? ? [Hp Hw] Hv']; subst.
    destruct (IH Hv') as (ev & E & Hl & Hs).
    unfold evaluate_invalid in *. cbn [comprehension].
    unfold fitness_valid at 1. destruct Hw as [Hw|Hw].
    + destruct (evaluate_vrp_total self (genes ind) Hp) as (d & p & Ed).
      rewrite Hw. cbn [len length Z.of_nat Z.eqb negb].
      change (evaluate (toolbox self t) (genes ind))
        with (_evaluate_vrp self (genes ind)).
      rewrite Ed. cbn [Py.bind]. rewrite E. cbn [Py.bind].
      eexists. split; [reflexivity|]. split; [cbn; now rewrite Hl|].
      constructor; [|exact Hs]. split; [exact Hp | reflexivity].
    + unfold len. rewrite Hw. cbn [Z.of_nat Z.eqb negb Pos.of_succ_nat
        Pos.succ]. cbn [Py.bind]. rewrite E. cbn [Py.bind].
      eexists. split; [reflexivity|]. split; [cbn; now rewrite Hl|].
      constructor; [|exact Hs]. split; assumption.
Qed.

Lemma mate_pairs_total (cxpb : Q) (offspring : list Individual) :
  forall g : rng RS,
    Forall (ready (num_locations self)) offspring ->
    exists off g',
      mate_pairs (toolbox self t) cxpb offspring g = (Ok off, g') /\
      Forall (ready (num_locations self)) off /\
      length off = length offspring.
Proof.
  remember (length offspring) as n eqn:En. revert offspring En.
  induction n as [n IH] using lt_wf_ind. intros offspring En g Hv.
  destruct offspring as [|a [|b rest]]; cbn [mate_pairs].
  - exists [], g. split; [reflexivity|]. split; [constructor | now rewrite En].
  - exists [a], g. split; [reflexivity|]. split; [exact Hv | now rewrite En].
  - inversion Hv as [|? ? Ha Hv1]; subst.
    inversion Hv1 as [|? ? Hb Hrest]; subst.
    unfold rbind at 1, random_random at 1.
    destruct (random_float RS g) as [u g1].
    assert (Hpair : exists pair g2,
               (if Qlt_le_dec u cxpb
                then c <~ mate (toolbox self t) (genes a) (genes b) ;;
                     ret (mkIndividual (fst c) [], mkIndividual (snd c) [])
                else ret (a, b)) g1 = (Ok pair, g2) /\
               ready (num_locations self) (fst pair) /\
               ready (num_locations self) (snd pair)).
    { destruct (Qlt_le_dec u cxpb).
      - destruct (cxPartialyMatched_closure (num_locations self) (genes a)
                    (genes b) g1 ltac:(lia) (proj1 Ha) (proj1 Hb))
          as (c1 & c2 & g2 & E & H1 & H2).
        exists (mkIndividual c1 [], mkIndividual c2 []), g2.
        unfold rbind. cbn [mate toolbox]. rewrite E. unfold ret. cbn [fst snd].
        split; [reflexivity|]. split; (split; [assumption | now left]).
      - exists (a, b), g1. unfold ret. cbn [fst snd]. auto. }
    destruct Hpair as (pair & g2 & Ep & Hp1 & Hp2).
    unfold rbind at 1. rewrite Ep.
    destruct (IH (length rest) ltac:(cbn; lia) rest eq_refl g2 Hrest)
      as (rest' & g3 & Er & Hr & Hl).
    unfold rbind at 1. rewrite Er. unfold ret.
    exists (fst pair :: snd pair :: rest'), g3.
    split; [reflexivity|].
    split; [constructor; [exact Hp1 | constructor; [exact Hp2 | exact Hr]]|].
    cbn [length]. now rewrite Hl.
Qed.

Lemma mutate_each_total (mutpb : Q) (offspring : list Individual) (g : rng RS) :
  Forall (ready (num_locations self)) offspring ->
  exists off g',
    mutate_each (toolbox self t) mutpb offspring g = (Ok off, g') /\
    Forall (ready (num_locations self)) off /\
    length off = length offspring.
Proof.
  intros Hv. unfold mutate_each. apply comprehension_rand_total.
  intros ind g0 Hin. rewrite Forall_forall in Hv. specialize (Hv ind Hin).
  unfold rbind at 1, random_random at 1.
  destruct (random_float RS g0) as [u g1].
  destruct (Qlt_le_dec u mutpb).
  - destruct (mutShuffleIndexes_closure indpb_default (genes ind) g1)
      as [(l & g2 & E & P)|(Hone & _)].
    + exists (mkIndividual l []), g2. unfold rbind. cbn [mutate toolbox].
      rewrite E. unfold ret. split; [reflexivity|].
      split; [|now left]. unfold valid_individual, is_permutation. cbn [genes].
      rewrite P. exact (proj1 Hv).
    + exfalso. destruct Hv as [Hp _].
      rewrite (is_permutation_len (num_locations self) (genes ind)) in Hone;
        [lia | lia | exact Hp].
  - exists ind, g1. unfold ret. auto.
Qed.

Lemma ea_record_total (s : ea_state) (i : Z) (offspring : list Individual) :
  offspring <> [] ->
  Forall (ready (num_locations self)) offspring ->
  (ea_halloffame s = mkHallOfFame 1 [] [] \/
   exists h, ea_halloffame s = hall_of h /\ scored (num_locations self) h) ->
  exists s' h',
    ea_record (toolbox (RS := RS) self t) solve_stats s i offspring = Ok s' /\
    ea_halloffame s' = hall_of h' /\ scored (num_locations self) h' /\
    Forall (scored (num_locations self)) (ea_population s') /\
    length (ea_population s') = length offspring.
Proof.
  intros Hne Hv Hhall.
  destruct (evaluate_invalid_ready offspring Hv) as (ev & Ee & Hl & Hs).
  assert (Hne' : ev <> []).
  { intros C. subst ev. destruct offspring; [congruence | discriminate Hl]. }
  destruct (stats_compile_total ev Hne') as (record & Es).
  { eapply Forall_impl; [|exact Hs]. now intros x [_ Hx]. }
  assert (Hh : exists h', hof_update (ea_halloffame s) ev = Ok (hall_of h') /\
                          scored (num_locations self) h').
  { rewrite Forall_forall in Hs. destruct Hhall as [E|(h & E & Hsc)]; rewrite E.
    - destruct ev as [|first rest]; [congruence|].
      unfold hof_update. cbn [for_each]. rewrite hof_update_one_empty.
      change (getitem (first :: rest) 0) with (Ok first). cbn [Py.bind].
      destruct (hof_update_loop_member (first :: rest) first rest)
        as (h' & E' & Hin).
      exists h'. split; [exact E'|]. apply Hs.
      destruct Hin as [->|Hin]; [now left | now right].
    - destruct (hof_update_loop_member ev h ev) as (h' & E' & Hin).
      exists h'. split; [exact E'|].
      destruct Hin as [->|Hin]; [exact Hsc | now apply Hs]. }
  destruct Hh as (h' & Eh & Hsc).
  unfold ea_record. rewrite Ee. cbn [Py.bind]. rewrite Eh. cbn [Py.bind].
  rewrite Es. cbn [Py.bind]. eexists _, h'. split; [reflexivity|].
  cbn [ea_halloffame ea_population]. auto.
Qed.

Lemma ea_generation_total (cxpb mutpb : Q) (s : ea_state) (i : Z) (g : rng RS)
  (h : Individual) :
  ea_population s <> [] ->
  Forall (scored (num_locations self)) (ea_population s) ->
  ea_halloffame s = hall_of h -> scored (num_locations self) h ->
  exists s' g' h',
    ea_generation (toolbox self t) cxpb mutpb solve_stats s i g = (Ok s', g') /\
    ea_population s' <> [] /\
    Forall (scored (num_locations self)) (ea_population s') /\
    ea_halloffame s' = hall_of h' /\ scored (num_locations self) h'.
Proof.
  intros Hne Hs Hh Hsc. unfold ea_generation.
  destruct (selTournament_total t (ea_population s) (len (ea_population s)) g
              Hne some_aspirant) as (chosen & g1 & Esel & Hlen & Hin).
  unfold rbind at 1. cbn [select toolbox]. rewrite Esel.
  assert (Hc : Forall (ready (num_locations self)) chosen).
  { rewrite Forall_forall in *. intros x Hx. apply scored_ready. auto. }
  unfold varAnd.
  destruct (mate_pairs_total cxpb chosen g1 Hc) as (off1 & g2 & E1 & H1 & L1).
  destruct (mutate_each_total mutpb off1 g2 H1) as (off2 & g3 & E2 & H2 & L2).
  unfold rbind at 1. unfold rbind at 1. rewrite E1, E2.
  assert (Hne2 : off2 <> []).
  { intros C. subst off2. cbn in L2. unfold len in Hlen.
    destruct (ea_population s); [congruence|]. cbn in Hlen. lia. }
  destruct (ea_record_total s i off2 Hne2 H2) as (s' & h' & Er & Hh' & Hsc' & Hp & Hl).
  { right. now exists h. }
  exists s', g3, h'. unfold lift. rewrite Er.
  split; [reflexivity|]. split; [|auto].
  intros C. rewrite C in Hl. destruct off2; [congruence | discriminate Hl].
Qed.

Lemma ea_loop_total (cxpb mutpb : Q) (gens : list Z) :
  forall (s : ea_state) (g : rng RS) (h : Individual),
    ea_population s <> [] ->
    Forall (scored (num_locations self)) (ea_population s) ->
    ea_halloffame s = hall_of h -> scored (num_locations self) h ->
    exists s' g' h',
      for_each_rand gens (ea_generation (toolbox self t) cxpb mutpb solve_stats)
        s g = (Ok s', g') /\
      ea_halloffame s' = hall_of h' /\ scored (num_locations self) h'.
Proof.
  induction gens as [|i gens IH]; intros s g h Hne Hs Hh Hsc;
    cbn [for_each_rand].
  - exists s, g, h. unfold ret. auto.
  - destruct (ea_generation_total cxpb mutpb s i g h Hne Hs Hh Hsc)
      as (s1 & g1 & h1 & E & Hne1 & Hs1 & Hh1 & Hsc1).
    unfold rbind. rewrite E. now apply (IH s1 g1 h1).
Qed.

Lemma eaSimple_total (pop : list Individual) (cxpb mutpb : Q) (ngen : Z)
  (g : rng RS) :
  pop <> [] -> Forall (ready (num_locations self)) pop ->
  exists s g' h,
    eaSimple pop (toolbox self t) cxpb mutpb ngen solve_stats
             (mkHallOfFame 1 [] []) g = (Ok s, g') /\
    ea_halloffame s = hall_of h /\ scored (num_locations self) h.
Proof.
  intros Hne Hv.
  destruct (ea_record_total (mkEa pop (mkHallOfFame 1 [] []) []) 0 pop Hne Hv)
    as (s0 & h0 & E0 & Hh0 & Hsc0 & Hp0 & Hl0).
  { now left. }
  destruct (range3_generations ngen) as (gens & Eg & _).
  assert (Hne0 : ea_population s0 <> []).
  { intros C. rewrite C in Hl0. destruct pop; [congruence | discriminate Hl0]. }
  destruct (ea_loop_total cxpb mutpb gens s0 g h0 Hne0 Hp0 Hh0 Hsc0)
    as (s' & g' & h' & E & Hh' & Hsc').
  exists s', g', h'. unfold eaSimple.
  unfold rbind at 1, lift at 1. rewrite E0.
  unfold rbind at 1, lift at 1. rewrite Eg. auto.
Qed.

End SolveTotal.

Lemma solve_total {RS : RandomSource} (self : VRPSolver Point)
  (args : SolveArgs) (g : rng RS) :
  2 <= num_locations self -> 1 <= pop_size args -> 1 <= tournsize args ->
  exists r g',
    solve self args g = (Ok r, g') /\
    scored (num_locations self) (best_individual r).
Proof.
  intros Hn Hp Ht.
  destruct (population_valid self (pop_size args) (seed_state RS (seed args)))
    as (pop & g1 & Ep & Hv & Hl).
  assert (Hne : pop <> []).
  { intros C. subst pop. cbn in Hl. lia. }
  assert (Hr : Forall (ready (num_locations self)) pop).
  { eapply Forall_impl; [|exact Hv]. intros x [H1 H2]. split; [exact H1|].
    now left. }
  destruct (eaSimple_total self (tournsize args) Hn Ht pop (cxpb args)
              (mutpb args) (ngen args) g1 Hne Hr) as (s & g' & h & E & Hh & Hsc).
  exists (mkResult h (ea_population s) solve_stats (hall_of h)), g'.
  split; [|exact Hsc].
  now apply (solve_ok_intro self args g g1 g' pop s h).
Qed.

(** X19.  On a well-formed call [solve] returns: with at least two
    locations, [pop_size >= 1] and [tournsize >= 1], no draw of the
    generator, no crossover or mutation probability, no number of
    generations and no number of vehicles makes it raise; the best
    individual it returns is an evaluated permutation. *)
Theorem solve_returns_on_valid_input :
  forall (RS : RandomSource) (self : VRPSolver Point) (args : SolveArgs)
         (g : rng RS),
    2 <= num_locations self -> 1 <= pop_size args -> 1 <= tournsize args ->
    exists r g',
      solve self args g = (Ok r, g') /\
      is_permutation (num_locations self) (genes (best_individual r)) /\
      len (fitness_values (best_individual r)) = 2.
Proof.
  intros RS self args g Hn Hp Ht.
  destruct (solve_total self args g Hn Hp Ht) as (r & g' & E & Hv & Hw).
  exists r, g'. split; [exact E|]. split; [exact Hv|].
  unfold fitness_values, weights.
  destruct (wvalues (best_individual r)) as [|a [|b [|c w]]];
    try discriminate Hw. reflexivity.
Qed.

Lemma solve_returns_on_valid_input_witness :
  exists r g',
    solve (RS := digit_source) line_instance
          (mkArgs 30 (7 # 10) (2 # 10) 40 3 42) 0 = (Ok r, g') /\
    is_permutation (num_locations line_instance) (genes (best_individual r)) /\
    len (fitness_values (best_individual r)) = 2.
Proof.
  apply (solve_returns_on_valid_input digit_source line_instance
           (mkArgs 30 (7 # 10) (2 # 10) 40 3 42) 0); cbn; lia.
Defined.

Lemma digit_source_unit (g : rng digit_source) :
  (0 <= fst (random_float digit_source g))%Q /\
  (fst (random_float digit_source g) < 1)%Q.
Proof.
  pose proof (Z.mod_pos_bound g 100 ltac:(lia)) as H.
  unfold Qle, Qlt. cbn [random_float digit_source fst Qnum Qden].
  lia.
Qed.

(** ** Runs that only select *)

Lemma evaluate_invalid_valid {RS : RandomSource} (tb : Toolbox RS)
  (offspring : list Individual) :
  Forall (fun x => fitness_valid x = true) offspring ->
  evaluate_invalid tb offspring = Ok offspring.
Proof.
  intros H. unfold evaluate_invalid.
  rewrite (comprehension_map _ (fun x => x)); [now rewrite map_id|].
  intros x Hx. rewrite Forall_forall in H. now rewrite (H x Hx).
Qed.

Lemma scored_valid (n : Z) (x : Individual) :
  scored n x -> fitness_valid x = true.
Proof.
  intros [_ H]. unfold fitness_valid, len. rewrite H. reflexivity.
Qed.

Section SelectionOnly.

Context {RS : RandomSource}.
Variable self : VRPSolver Point.
Variable t : Z.
Variables cxpb mutpb : Q.

Hypothesis unit_draws : forall g : rng RS, (0 <= fst (random_float RS g))%Q.
Hypothesis no_crossover : (cxpb <= 0)%Q.
Hypothesis no_mutation : (mutpb <= 0)%Q.
Hypothesis some_aspirant : 1 <= t.

Lemma mate_pairs_idle (offspring : list Individual) :
  forall g : rng RS,
  exists g', mate_pairs (toolbox self t) cxpb offspring g = (Ok offspring, g').
Proof.
  remember (length offspring) as n eqn:En. revert offspring En.
  induction n as [n IH] using lt_wf_ind. intros offspring En g.
  destruct offspring as [|a [|b rest]]; cbn [mate_pairs].
  - now exists g.
  - now exists g.
  - unfold rbind at 1, random_random at 1.
    pose proof (unit_draws g) as Hu.
    destruct (random_float RS g) as [u g1]. cbn [fst] in Hu.
    destruct (Qlt_le_dec u cxpb) as [Hlt|_].
    { exfalso. apply (Qlt_not_le _ _ Hlt).
      now apply (Qle_trans _ 0). }
    unfold rbind at 1, ret at 1.
    destruct (IH (length rest) ltac:(subst n; cbn; lia) rest eq_refl g1)
      as (g2 & E).
    unfold rbind at 1. rewrite E. unfold ret. cbn [fst snd]. now exists g2.
Qed.

Lemma mutate_each_idle (offspring : list Individual) :
  forall g : rng RS,
  exists g', mutate_each (toolbox self t) mutpb offspring g = (Ok offspring, g').
Proof.
  unfold mutate_each.
  induction offspring as [|a rest IH]; intros g; cbn [comprehension_rand].
  - now exists g.
  - unfold rbind at 1. unfold rbind at 1, random_random at 1.
    pose proof (unit_draws g) as Hu.
    destruct (random_float RS g) as [u g1]. cbn [fst] in Hu.
    destruct (Qlt_le_dec u mutpb) as [Hlt|_].
    { exfalso. apply (Qlt_not_le _ _ Hlt).
      now apply (Qle_trans _ 0). }
    unfold ret at 1. destruct (IH g1) as (g2 & E).
    unfold rbind at 1. rewrite E. unfold ret. now exists g2.
Qed.

Lemma ea_generation_idle (pop0 : list Individual) (s : ea_state) (i : Z)
  (g : rng RS) (h : Individual) :
  Forall (scored (num_locations self)) pop0 ->
  ea_population s <> [] ->
  Forall (fun x => In x pop0) (ea_population s) ->
  ea_halloffame s = hall_of h -> In h pop0 ->
  exists s' g' h',
    ea_generation (toolbox self t) cxpb mutpb solve_stats s i g = (Ok s', g') /\
    ea_population s' <> [] /\
    Forall (fun x => In x pop0) (ea_population s') /\
    ea_halloffame s' = hall_of h' /\ In h' pop0.
Proof.
  intros H0 Hne Hin Hh Hmem. unfold ea_generation.
  destruct (selTournament_total t (ea_population s) (len (ea_population s)) g
              Hne some_aspirant) as (chosen & g1 & Esel & Hlen & Hc).
  unfold rbind at 1. cbn [select toolbox]. rewrite Esel.
  unfold varAnd. destruct (mate_pairs_idle chosen g1) as (g2 & E1).
  destruct (mutate_each_idle chosen g2) as (g3 & E2).
  unfold rbind at 1. unfold rbind at 1. rewrite E1, E2.
  assert (Hc0 : Forall (fun x => In x pop0) chosen).
  { rewrite Forall_forall in *. auto. }
  assert (Hsc : Forall (scored (num_locations self)) chosen).
  { rewrite Forall_forall in *. auto. }
  assert (Hne2 : chosen <> []).
  { intros C. subst chosen. unfold len in Hlen.
    destruct (ea_population s); [congruence|]. cbn in Hlen. lia. }
  destruct (stats_compile_total chosen Hne2) as (record & Es).
  { eapply Forall_impl; [|exact Hsc]. now intros x [_ Hx]. }
  destruct (hof_update_loop_member chosen h chosen) as (h' & Eh & Hh').
  unfold lift, ea_record.
  rewrite evaluate_invalid_valid.
  2:{ eapply Forall_impl; [|exact Hsc]. intros x. apply scored_valid. }
  cbn [Py.bind]. rewrite Hh. unfold hof_update. rewrite Eh. cbn [Py.bind].
  rewrite Es. cbn [Py.bind]. eexists _, g3, h'. split; [reflexivity|].
  cbn [ea_population ea_halloffame].
  split; [exact Hne2|]. split; [exact Hc0|]. split; [reflexivity|].
  destruct Hh' as [->|Hh']; [exact Hmem|].
  rewrite Forall_forall in Hc0. now apply Hc0.
Qed.

Lemma ea_loop_idle (pop0 : list Individual) (gens : list Z) :
  Forall (scored (num_locations self)) pop0 ->
  forall (s : ea_state) (g : rng RS) (h : Individual),
    ea_population s <> [] ->
    Forall (fun x => In x pop0) (ea_population s) ->
    ea_halloffame s = hall_of h -> In h pop0 ->
    exists s' g' h',
      for_each_rand gens (ea_generation (toolbox self t) cxpb mutpb solve_stats)
        s g = (Ok s', g') /\
      Forall (fun x => In x pop0) (ea_population s') /\
      ea_halloffame s' = hall_of h' /\ In h' pop0.
Proof.
  intros H0. induction gens as [|i gens IH]; intros s g h Hne Hin Hh Hmem;
    cbn [for_each_rand].
  - exists s, g, h. unfold ret. auto.
  - destruct (ea_generation_idle pop0 s i g h H0 Hne Hin Hh Hmem)
      as (s1 & g1 & h1 & E & Hne1 & Hin1 & Hh1 & Hmem1).
    unfold rbind. rewrite E. now apply (IH s1 g1 h1).
Qed.

End SelectionOnly.

(** X20.  A run without crossover and mutation only selects.  When
    [random()] is never negative and [cxpb <= 0] and [mutpb <= 0], a call
    of [solve] with [pop_size >= 1] and [tournsize >= 1] returns on every
    instance, even on fewer than two locations; every individual of its
    final population, and the best individual it returns, is one of the
    evaluated initial population, which is the final population of the
    same call with [ngen = 0]. *)
Theorem solve_without_variation_only_selects :
  forall (RS : RandomSource) (self : VRPSolver Point) (args : SolveArgs)
         (g : rng RS),
    (forall g0 : rng RS, (0 <= fst (random_float RS g0))%Q) ->
    (cxpb args <= 0)%Q -> (mutpb args <= 0)%Q ->
    1 <= pop_size args -> 1 <= tournsize args ->
    exists r0 g0 r g',
      solve self (with_ngen args 0) g = (Ok r0, g0) /\
      solve self args g = (Ok r, g') /\
      Forall (fun x => In x (final_population r0)) (final_population r) /\
      In (best_individual r) (final_population r0).
Proof.
  intros RS self args g Hunit Hcx Hmu Hp Ht.
  destruct (population_valid self (pop_size args) (seed_state RS (seed args)))
    as (pop & g1 & Ep & Hv & Hl).
  assert (Hne : pop <> []).
  { intros C. subst pop. cbn in Hl. lia. }
  assert (Hr : Forall (ready (num_locations self)) pop).
  { eapply Forall_impl; [|exact Hv]. intros x [H1 H2]. split; [exact H1|].
    now left. }
  destruct (evaluate_invalid_ready (RS := RS) self (tournsize args) pop Hr)
    as (pop0 & Ee & Hl0 & Hs0).
  assert (Hne0 : pop0 <> []).
  { intros C. subst pop0. destruct pop; [congruence | discriminate Hl0]. }
  destruct (stats_compile_total pop0 Hne0) as (record & Es).
  { eapply Forall_impl; [|exact Hs0]. now intros x [_ Hx]. }
  assert (Hh : exists h0, hof_update (mkHallOfFame 1 [] []) pop0
                          = Ok (hall_of h0) /\ In h0 pop0).
  { destruct pop0 as [|first rest]; [congruence|].
    unfold hof_update. cbn [for_each]. rewrite hof_update_one_empty.
    change (getitem (first :: rest) 0) with (Ok first). cbn [Py.bind].
    destruct (hof_update_loop_member (first :: rest) first rest)
      as (h' & E' & Hin).
    exists h'. split; [exact E'|].
    destruct Hin as [->|Hin]; [now left | now right]. }
  destruct Hh as (h0 & Eh & Hmem).
  set (s0 := mkEa pop0 (hall_of h0) [mkLogRecord 0 (count_invalid pop) record]).
  assert (E0 : ea_record (toolbox (RS := RS) self (tournsize args)) solve_stats
                 (mkEa pop (mkHallOfFame 1 [] []) []) 0 pop = Ok s0).
  { unfold ea_record. rewrite Ee. cbn [Py.bind ea_halloffame].
    rewrite Eh. cbn [Py.bind]. rewrite Es. reflexivity. }
  destruct (range3_generations (ngen args)) as (gens & Eg & _).
  destruct (ea_loop_idle self (tournsize args) (cxpb args) (mutpb args)
              Hunit Hcx Hmu Ht pop0 gens Hs0 s0 g1 h0 Hne0)
    as (s' & g' & h' & E & Hin' & Hh' & Hmem');
    [apply Forall_forall; auto | reflexivity | exact Hmem |].
  exists (mkResult h0 pop0 solve_stats (hall_of h0)), g1,
         (mkResult h' (ea_population s') solve_stats (hall_of h')), g'.
  split; [|split; [|split; [exact Hin' | exact Hmem']]].
  - apply (solve_ok_intro self (with_ngen args 0) g g1 g1 pop s0 h0);
      [exact Ep | | reflexivity].
    cbn [with_ngen pop_size cxpb mutpb ngen tournsize seed].
    rewrite eaSimple_zero. unfold lift. now rewrite E0.
  - apply (solve_ok_intro self args g g1 g' pop s' h'); [exact Ep | | exact Hh'].
    unfold eaSimple. unfold rbind at 1, lift at 1. rewrite E0.
    unfold rbind at 1, lift at 1. rewrite Eg. exact E.
Qed.

Lemma solve_without_variation_only_selects_witness :
  exists r0 g0 r g',
    solve (RS := digit_source) (mkSolver [(1, 0)]%R (0, 0)%R 2)
          (with_ngen (mkArgs 4 0 0 6 3 42) 0) 0 = (Ok r0, g0) /\
    solve (RS := digit_source) (mkSolver [(1, 0)]%R (0, 0)%R 2)
          (mkArgs 4 0 0 6 3 42) 0 = (Ok r, g') /\
    Forall (fun x => In x (final_population r0)) (final_population r) /\
    In (best_individual r) (final_population r0).
Proof.
  apply (solve_without_variation_only_selects digit_source
           (mkSolver [(1, 0)]%R (0, 0)%R 2) (mkArgs 4 0 0 6 3 42) 0).
  - intros g0. exact (proj1 (digit_source_unit g0)).
  - unfold Qle. cbn. lia.
  - unfold Qle. cbn. lia.
  - cbn. lia.
  - cbn. lia.
Defined.

(** ** Loops over the generator *)

Section LoopFacts.

Context {RS : RandomSource}.

(** An invariant that follows the items already consumed. *)
Lemma for_each_rand_prefix {A S} (I : list A -> S -> Prop)
  (body : S -> A -> Rand RS S) (xs : list A) :
  (forall pre x post s g s' g',
      xs = pre ++ x :: post -> I pre s -> body s x g = (Ok s', g') ->
      I (pre ++ [x]) s') ->
  forall s g s' g',
    I [] s -> for_each_rand xs body s g = (Ok s', g') -> I xs s'.
Proof.
  intros Hbody.
  assert (G : forall todo pre s g s' g',
             xs = pre ++ todo -> I pre s ->
             for_each_rand todo body s g = (Ok s', g') -> I xs s').
  { induction todo as [|x todo IH]; intros pre s g s' g' E Hs H;
      cbn [for_each_rand] in H.
    - apply ret_ok_inv in H. destruct H as [-> _].
      rewrite E, app_nil_r. exact Hs.
    - apply rbind_ok_inv in H. destruct H as (s1 & g1 & H1 & H2).
      apply (IH (pre ++ [x]) s1 g1 s' g');
        [now rewrite <- app_assoc | | exact H2].
      now apply (Hbody pre x todo s g s1 g1). }
  intros s g s' g' Hs H. now apply (G xs [] s g s' g').
Qed.

Lemma for_each_rand_total {A S} (I : S -> Prop) (body : S -> A -> Rand RS S)
  (xs : list A) :
  (forall s x g, In x xs -> I s ->
                 exists s' g', body s x g = (Ok s', g') /\ I s') ->
  forall s g, I s ->
    exists s' g', for_each_rand xs body s g = (Ok s', g') /\ I s'.
Proof.
  induction xs as [|x xs IH]; intros Hb s g Hs; cbn [for_each_rand].
  - exists s, g. split; [reflexivity | exact Hs].
  - destruct (Hb s x g (or_introl eq_refl) Hs) as (s1 & g1 & E & H1).
    destruct (IH (fun s x g Hx => Hb s x g (or_intror Hx)) s1 g1 H1)
      as (s' & g' & E' & H').
    exists s', g'. unfold rbind. rewrite E. auto.
Qed.

(** A loop whose body reseeds the generator forgets the state it starts
    from. *)
Lemma for_each_rand_seeded {A S} (body : S -> A -> Rand RS S) (xs : list A) :
  (forall s x g g', body s x g = body s x g') ->
  forall s g g',
    fst (for_each_rand xs body s g) = fst (for_each_rand xs body s g') /\
    (xs <> [] -> for_each_rand xs body s g = for_each_rand xs body s g').
Proof.
  intros Hb s g g'. destruct xs as [|x xs].
  - split; [reflexivity | congruence].
  - assert (E : for_each_rand (x :: xs) body s g
                = for_each_rand (x :: xs) body s g').
    { cbn [for_each_rand]. unfold rbind. now rewrite (Hb s x g g'). }
    rewrite E. split; auto.
Qed.

Lemma random_randint_ok_inv (a b r : Z) (g g' : rng RS) :
  random_randint a b g = (Ok r, g') -> a <= r <= b.
Proof.
  intros H. destruct (Z.le_gt_cases a b) as [Hab|Hab].
  - destruct (random_randint_ok a b g Hab) as (r' & g1 & E & Hr).
    rewrite E in H. inversion H; subst. exact Hr.
  - rewrite random_randint_empty in H by lia. discriminate H.
Qed.

End LoopFacts.

(** ** The tuners *)

Section TunerFacts.

Context {RS : RandomSource}.
Variable solver : VRPSolver Point.

Lemma solve_seeded (args : SolveArgs) (g g' : rng RS) :
  solve solver args g = solve solver args g'.
Proof. reflexivity. Qed.

Lemma run_trial_seeded (ngen seed_base : Z) (o : VRPTuner.Outcome) (i : Z)
  (p : VRPTuner.Params) (g g' : rng RS) :
  VRPTuner.run_trial solver ngen seed_base o i p g
  = VRPTuner.run_trial solver ngen seed_base o i p g'.
Proof.
  destruct o as [[[bp bi] bd] all]. unfold VRPTuner.run_trial, rbind.
  now rewrite (solve_seeded _ g g').
Qed.

Lemma run_trial_ok_inv (ngen seed_base : Z)
  (bp : option VRPTuner.Params) (bi : option Individual) (bd : Bound)
  (all : list VRPTuner.TrialResult) (i : Z) (p : VRPTuner.Params)
  (g g' : rng RS) (o : VRPTuner.Outcome) :
  VRPTuner.run_trial solver ngen seed_base (bp, bi, bd, all) i p g
  = (Ok o, g') ->
  exists r d,
    solve solver (VRPTuner.solve_args p ngen seed_base i) g = (Ok r, g') /\
    getitem (fitness_values (best_individual r)) 0 = Ok d /\
    o = (if below d bd
         then (Some p, Some (best_individual r), Dist d)
         else (bp, bi, bd),
         all ++ [VRPTuner.mkTrial (i + 1) p d (best_individual r)]).
Proof.
  intros H. unfold VRPTuner.run_trial in H.
  apply rbind_ok_inv in H. destruct H as (r & g1 & Hs & H).
  destruct r as [ind pop st hof].
  apply rbind_ok_inv in H. destruct H as (d & g2 & Hd & H).
  apply lift_ok_inv in Hd. destruct Hd as [Hd ->].
  exists (mkResult ind pop st hof), d. cbn [best_individual].
  destruct (below d bd); apply ret_ok_inv in H; destruct H as [-> ->];
    auto.
Qed.

Lemma run_trial_ok (ngen seed_base : Z)
  (bp : option VRPTuner.Params) (bi : option Individual) (bd : Bound)
  (all : list VRPTuner.TrialResult) (i : Z) (p : VRPTuner.Params)
  (g g' : rng RS) (r : SolveResult) (d : float) :
  solve solver (VRPTuner.solve_args p ngen seed_base i) g = (Ok r, g') ->
  getitem (fitness_values (best_individual r)) 0 = Ok d ->
  exists o, VRPTuner.run_trial solver ngen seed_base (bp, bi, bd, all) i p g
            = (Ok o, g').
Proof.
  intros Hs Hd. unfold VRPTuner.run_trial. unfold rbind at 1. rewrite Hs.
  destruct r as [ind pop st hof]. cbn [best_individual] in Hd.
  unfold rbind at 1, lift at 1. rewrite Hd.
  destruct (below d bd); eexists; reflexivity.
Qed.

(** A trial appends one result, which can be replayed. *)
Lemma run_trial_appends (ngen seed_base : Z) (o o' : VRPTuner.Outcome) (i : Z)
  (p : VRPTuner.Params) (g g' : rng RS) :
  VRPTuner.run_trial solver ngen seed_base o i p g = (Ok o', g') ->
  exists r,
    VRPTuner.all_results o' = VRPTuner.all_results o ++ [r] /\
    VRPTuner.trial r = i + 1 /\ VRPTuner.params r = p /\
    VRPTuner.replays RS solver ngen seed_base r.
Proof.
  destruct o as [[[bp bi] bd] all]. intros H.
  apply run_trial_ok_inv in H. destruct H as (r & d & Hs & Hd & ->).
  exists (VRPTuner.mkTrial (i + 1) p d (best_individual r)).
  split; [reflexivity|]. split; [reflexivity|]. split; [reflexivity|].
  intros g0. exists r, g'. cbn [VRPTuner.params VRPTuner.trial
    VRPTuner.individual VRPTuner.distance].
  replace (i + 1 - 1) with i by lia.
  rewrite (solve_seeded _ g0 g). auto.
Qed.

Hypothesis some_vehicle : 1 <= num_vehicles solver.

Lemma run_trial_first_minimum (ngen seed_base : Z) (o o' : VRPTuner.Outcome)
  (i : Z) (p : VRPTuner.Params) (g g' : rng RS) :
  VRPTuner.first_minimum o ->
  VRPTuner.run_trial solver ngen seed_base o i p g = (Ok o', g') ->
  VRPTuner.first_minimum o'.
Proof.
  destruct o as [[[bp bi] bd] all]. intros Hm H.
  apply run_trial_ok_inv in H. destruct H as (r & d & Hs & Hd & ->).
  destruct (solve_consistent_fitness RS solver _ g g' r some_vehicle Hs
              (best_individual r) (or_introl eq_refl))
    as (y & pen & _ & Hfv).
  rewrite Hfv in Hd. change (getitem [Some y; Some pen] 0)
    with (Ok (Some y)) in Hd.
  inversion Hd; subst d. clear Hd.
  unfold VRPTuner.first_minimum in *.
  cbn [VRPTuner.best_distance VRPTuner.all_results VRPTuner.best_params
       VRPTuner.best_individual fst snd] in Hm.
  destruct bd as [|b].
  - destruct Hm as (-> & -> & ->). cbn [below fst snd VRPTuner.best_distance
      VRPTuner.all_results VRPTuner.best_params VRPTuner.best_individual app].
    exists [], (VRPTuner.mkTrial (i + 1) p (Some y) (best_individual r)), [], y.
    repeat split; constructor.
  - destruct Hm as (before & r0 & after & x & -> & -> & Hx & -> & -> & Hb & Ha).
    unfold below, float_lt, Rltb. destruct (Rlt_dec y x) as [Hlt|Hge];
      cbn [fst snd VRPTuner.best_distance VRPTuner.all_results
           VRPTuner.best_params VRPTuner.best_individual].
    + exists (before ++ r0 :: after),
        (VRPTuner.mkTrial (i + 1) p (Some y) (best_individual r)), [], y.
      repeat split; [|constructor].
      apply Forall_app. split.
      * eapply Forall_impl; [|exact Hb]. intros r' (z & Ez & Hz).
        exists z. split; [exact Ez | lra].
      * constructor; [exists x; split; [exact Hx | lra]|].
        eapply Forall_impl; [|exact Ha]. intros r' (z & Ez & Hz).
        exists z. split; [exact Ez | lra].
    + exists before, r0,
        (after ++ [VRPTuner.mkTrial (i + 1) p (Some y) (best_individual r)]), x.
      split; [now rewrite <- app_assoc|]. repeat split; try assumption.
      apply Forall_app. split; [exact Ha|]. constructor; [|constructor].
      exists y. split; [reflexivity | lra].
Qed.

End TunerFacts.

Section RandomSearchFacts.

Context {RS : RandomSource}.
Variable solver : VRPSolver Point.

Lemma random_uniform_value (a b : Q) (g : rng RS) :
  random_uniform a b g
  = (Ok (a + (b - a) * fst (random_float RS g))%Q, snd (random_float RS g)).
Proof.
  unfold random_uniform, rbind, random_random, ret.
  now destruct (random_float RS g).
Qed.

Lemma uniform_between (a b u : Q) :
  (a <= b -> 0 <= u -> u < 1 ->
   a <= a + (b - a) * u /\ a + (b - a) * u <= b)%Q.
Proof. intros Hab Hu0 Hu1. split; Lqa.nra. Qed.

Lemma sample_params_ok_inv (ranges : VRPTuner.ParamRanges) (g g' : rng RS)
  (p : VRPTuner.Params) :
  VRPTuner.sample_params ranges g = (Ok p, g') ->
  exists g1 g2 g3,
    random_randint (fst (VRPTuner.pop_size_range ranges))
                   (snd (VRPTuner.pop_size_range ranges)) g
    = (Ok (VRPTuner.pop_size p), g1) /\
    random_uniform (fst (VRPTuner.cxpb_range ranges))
                   (snd (VRPTuner.cxpb_range ranges)) g1
    = (Ok (VRPTuner.cxpb p), g2) /\
    random_uniform (fst (VRPTuner.mutpb_range ranges))
                   (snd (VRPTuner.mutpb_range ranges)) g2
    = (Ok (VRPTuner.mutpb p), g3) /\
    random_randint (fst (VRPTuner.tournsize_range ranges))
                   (snd (VRPTuner.tournsize_range ranges)) g3
    = (Ok (VRPTuner.tournsize p), g').
Proof.
  intros H. unfold VRPTuner.sample_params in H.
  apply rbind_ok_inv in H. destruct H as (a & g1 & H1 & H).
  apply rbind_ok_inv in H. destruct H as (b & g2 & H2 & H).
  apply rbind_ok_inv in H. destruct H as (c & g3 & H3 & H).
  apply rbind_ok_inv in H. destruct H as (d & g4 & H4 & H).
  apply ret_ok_inv in H. destruct H as [-> ->].
  exists g1, g2, g3. cbn. auto.
Qed.

Lemma sample_params_total (ranges : VRPTuner.ParamRanges) (g : rng RS) :
  fst (VRPTuner.pop_size_range ranges) <= snd (VRPTuner.pop_size_range ranges) ->
  fst (VRPTuner.tournsize_range ranges)
    <= snd (VRPTuner.tournsize_range ranges) ->
  exists p g',
    VRPTuner.sample_params ranges g = (Ok p, g') /\
    fst (VRPTuner.pop_size_range ranges) <= VRPTuner.pop_size p /\
    fst (VRPTuner.tournsize_range ranges) <= VRPTuner.tournsize p.
Proof.
  intros Hp Ht. unfold VRPTuner.sample_params.
  destruct (random_randint_ok _ _ g Hp) as (a & g1 & E1 & Ha).
  unfold rbind at 1. rewrite E1.
  unfold rbind at 1. rewrite random_uniform_value.
  unfold rbind at 1. rewrite random_uniform_value.
  destruct (random_randint_ok _ _
              (snd (random_float RS (snd (random_float RS g1)))) Ht)
    as (d & g4 & E4 & Hd).
  unfold rbind at 1. rewrite E4. unfold ret.
  eexists _, g4. split; [reflexivity|]. cbn. lia.
Qed.

(** The results of a search that returns are numbered from 1 and can be
    replayed. *)
Lemma random_search_numbered (n_trials : Z)
  (param_ranges : option VRPTuner.ParamRanges) (ngen seed_base : Z)
  (g g' : rng RS) (o : VRPTuner.Outcome) :
  VRPTuner.random_search_tuning solver n_trials param_ranges ngen seed_base g
  = (Ok o, g') ->
  map VRPTuner.trial (VRPTuner.all_results o) = map Z.succ (range n_trials) /\
  Forall (VRPTuner.replays RS solver ngen seed_base) (VRPTuner.all_results o).
Proof.
  unfold VRPTuner.random_search_tuning.
  apply (for_each_rand_prefix
           (fun pre o =>
              map VRPTuner.trial (VRPTuner.all_results o) = map Z.succ pre /\
              Forall (VRPTuner.replays RS solver ngen seed_base)
                     (VRPTuner.all_results o))).
  - intros pre x post s g0 s' g1 _ [Hn Hr] H.
    apply rbind_ok_inv in H. destruct H as (p & g2 & _ & H).
    apply run_trial_appends in H. destruct H as (r & -> & Ht & _ & Hrep).
    rewrite !map_app, Hn. cbn [map]. rewrite Ht.
    split; [f_equal; f_equal; lia|].
    apply Forall_app. split; [exact Hr | now constructor].
  - split; [reflexivity | constructor].
Qed.

Lemma random_search_total (n_trials : Z) (ranges : VRPTuner.ParamRanges)
  (ngen seed_base : Z) (g : rng RS) :
  2 <= num_locations solver ->
  1 <= fst (VRPTuner.pop_size_range ranges)
    <= snd (VRPTuner.pop_size_range ranges) ->
  1 <= fst (VRPTuner.tournsize_range ranges)
    <= snd (VRPTuner.tournsize_range ranges) ->
  exists o g',
    VRPTuner.random_search_tuning solver n_trials (Some ranges) ngen seed_base g
    = (Ok o, g').
Proof.
  intros Hn Hp Ht. unfold VRPTuner.random_search_tuning.
  cbn [VRPTuner.ranges_or_default].
  destruct (for_each_rand_total (RS := RS) (fun _ : VRPTuner.Outcome => True)
              (fun state trial =>
                 p <~ VRPTuner.sample_params ranges ;;
                 VRPTuner.run_trial solver ngen seed_base state trial p)
              (range n_trials)) with (s := (@None VRPTuner.Params,
                                            @None Individual, Inf,
                                            @nil VRPTuner.TrialResult))
                                     (g := g)
    as (o & g' & E & _); [| exact I | now exists o, g'].
  intros s x g0 _ _.
  destruct (sample_params_total ranges g0) as (p & g1 & Es & Hp1 & Ht1);
    [lia | lia |].
  destruct (solve_total solver (VRPTuner.solve_args p ngen seed_base x) g1 Hn)
    as (r & g2 & Er & _ & Hw); [cbn; lia | cbn; lia |].
  assert (Hd : exists d, getitem (fitness_values (best_individual r)) 0 = Ok d).
  { unfold fitness_values, weights.
    destruct (wvalues (best_individual r)) as [|a [|b [|c w]]];
      try discriminate Hw. eexists. reflexivity. }
  destruct Hd as (d & Hd). destruct s as [[[bp bi] bd] all].
  destruct (run_trial_ok solver ngen seed_base bp bi bd all x p g1 g2 r d Er Hd)
    as (o & Eo).
  exists o, g2. unfold rbind. rewrite Es. auto.
Qed.

End RandomSearchFacts.

(** X21.  The random search returns on a well-formed call: with at least
    two locations and ranges of [pop_size] and [tournsize] that are not
    empty and start at 1 or above, it returns whatever the generator
    draws; it then holds [max(0, n_trials)] results, numbered from 1 in
    the order of the trials. *)
Theorem random_search_returns :
  forall (RS : RandomSource) (solver : VRPSolver Point) (n_trials : Z)
         (ranges : VRPTuner.ParamRanges) (ngen seed_base : Z) (g : rng RS),
    2 <= num_locations solver ->
    1 <= fst (VRPTuner.pop_size_range ranges)
      <= snd (VRPTuner.pop_size_range ranges) ->
    1 <= fst (VRPTuner.tournsize_range ranges)
      <= snd (VRPTuner.tournsize_range ranges) ->
    exists o g',
      VRPTuner.random_search_tuning solver n_trials (Some ranges) ngen
        seed_base g = (Ok o, g') /\
      len (VRPTuner.all_results o) = Z.max 0 n_trials /\
      map VRPTuner.trial (VRPTuner.all_results o)
      = map Z.succ (range n_trials).
Proof.
  intros RS solver n ranges ngen sb g Hn Hp Ht.
  destruct (random_search_total solver n ranges ngen sb g Hn Hp Ht)
    as (o & g' & E).
  exists o, g'. split; [exact E|].
  destruct (random_search_numbered solver n (Some ranges) ngen sb g g' o E)
    as [Hnum _].
  split; [|exact Hnum].
  apply (f_equal (@length Z)) in Hnum.
  rewrite !length_map, range_length in Hnum. unfold len. lia.
Qed.

Lemma random_search_returns_witness :
  exists o g',
    VRPTuner.random_search_tuning (RS := digit_source) line_instance 3
      (Some (VRPTuner.mkRanges (2, 5) (1 # 2, 9 # 10) (1 # 20, 1 # 4) (2, 4)))
      5 0 123456 = (Ok o, g') /\
    len (VRPTuner.all_results o) = Z.max 0 3 /\
    map VRPTuner.trial (VRPTuner.all_results o) = map Z.succ (range 3).
Proof.
  apply (random_search_returns digit_source line_instance 3
           (VRPTuner.mkRanges (2, 5) (1 # 2, 9 # 10) (1 # 20, 1 # 4) (2, 4))
           5 0 123456); cbn; lia.
Defined.

(** X22.  Every result the random search records can be replayed on its
    own: [solve], called with the recorded parameters, the same [ngen]
    and the seed [seed_base + trial - 1], returns the recorded individual
    whatever the state of the generator, and the recorded distance is the
    first fitness value of that individual. *)
Theorem random_search_results_replay :
  forall (RS : RandomSource) (solver : VRPSolver Point) (n_trials : Z)
         (param_ranges : option VRPTuner.ParamRanges) (ngen seed_base : Z)
         (g g' : rng RS) (o : VRPTuner.Outcome),
    VRPTuner.random_search_tuning solver n_trials param_ranges ngen
      seed_base g = (Ok o, g') ->
    forall r, In r (VRPTuner.all_results o) ->
    forall g0 : rng RS,
    exists sr g1,
      solve solver
        (mkArgs (VRPTuner.pop_size (VRPTuner.params r))
                (VRPTuner.cxpb (VRPTuner.params r))
                (VRPTuner.mutpb (VRPTuner.params r))
                ngen
                (VRPTuner.tournsize (VRPTuner.params r))
                (seed_base + (VRPTuner.trial r - 1))) g0 = (Ok sr, g1) /\
      best_individual sr = VRPTuner.individual r /\
      getitem (fitness_values (VRPTuner.individual r)) 0
      = Ok (VRPTuner.distance r).
Proof.
  intros RS solver n pr ngen sb g g' o E r Hr g0.
  destruct (random_search_numbered solver n pr ngen sb g g' o E) as [_ Hrep].
  rewrite Forall_forall in Hrep. exact (Hrep r Hr g0).
Qed.

Lemma random_search_results_replay_witness :
  exists o g',
    VRPTuner.random_search_tuning (RS := digit_source) line_instance 3
      (Some (VRPTuner.mkRanges (2, 5) (1 # 2, 9 # 10) (1 # 20, 1 # 4) (2, 4)))
      5 0 123456 = (Ok o, g') /\
    forall r, In r (VRPTuner.all_results o) ->
    exists sr g1,
      solve (RS := digit_source) line_instance
        (mkArgs (VRPTuner.pop_size (VRPTuner.params r))
                (VRPTuner.cxpb (VRPTuner.params r))
                (VRPTuner.mutpb (VRPTuner.params r))
                5
                (VRPTuner.tournsize (VRPTuner.params r))
                (0 + (VRPTuner.trial r - 1))) 77 = (Ok sr, g1) /\
      best_individual sr = VRPTuner.individual r /\
      getitem (fitness_values (VRPTuner.individual r)) 0
      = Ok (VRPTuner.distance r).
Proof.
  destruct (random_search_total (RS := digit_source) line_instance 3
              (VRPTuner.mkRanges (2, 5) (1 # 2, 9 # 10) (1 # 20, 1 # 4) (2, 4))
              5 0 123456) as (o & g' & E); [cbn; lia | cbn; lia | cbn; lia |].
  exists o, g'. split; [exact E|]. intros r Hr.
  exact (random_search_results_replay digit_source line_instance 3 _ 5 0
           123456 g' o E r Hr 77).
Defined.

(** X23.  The parameters a random search records lie in their ranges,
    bounds included, when [random()] answers in [0, 1) and the ranges of
    [cxpb] and [mutpb] are given in increasing order. *)
Theorem random_search_samples_in_ranges :
  forall (RS : RandomSource) (solver : VRPSolver Point) (n_trials : Z)
         (param_ranges : option VRPTuner.ParamRanges) (ngen seed_base : Z)
         (g g' : rng RS) (o : VRPTuner.Outcome),
    (forall g0 : rng RS,
        (0 <= fst (random_float RS g0))%Q /\ (fst (random_float RS g0) < 1)%Q) ->
    (fst (VRPTuner.cxpb_range (VRPTuner.ranges_or_default param_ranges))
     <= snd (VRPTuner.cxpb_range (VRPTuner.ranges_or_default param_ranges)))%Q ->
    (fst (VRPTuner.mutpb_range (VRPTuner.ranges_or_default param_ranges))
     <= snd (VRPTuner.mutpb_range (VRPTuner.ranges_or_default param_ranges)))%Q ->
    VRPTuner.random_search_tuning solver n_trials param_ranges ngen
      seed_base g = (Ok o, g') ->
    Forall (fun r => VRPTuner.in_ranges
                       (VRPTuner.ranges_or_default param_ranges)
                       (VRPTuner.params r))
           (VRPTuner.all_results o).
Proof.
  intros RS solver n pr ngen sb g g' o Hunit Hcx Hmu.
  unfold VRPTuner.random_search_tuning.
  apply (for_each_rand_invariant
           (fun o => Forall (fun r => VRPTuner.in_ranges
                                        (VRPTuner.ranges_or_default pr)
                                        (VRPTuner.params r))
                            (VRPTuner.all_results o))); [|constructor].
  intros s x g0 s' g1 _ Hs H.
  apply rbind_ok_inv in H. destruct H as (p & g2 & Hp & H).
  apply run_trial_appends in H. destruct H as (r & -> & _ & Er & _).
  apply Forall_app. split; [exact Hs|]. constructor; [|constructor].
  rewrite Er. apply sample_params_ok_inv in Hp.
  destruct Hp as (h1 & h2 & h3 & H1 & H2 & H3 & H4).
  apply random_randint_ok_inv in H1. apply random_randint_ok_inv in H4.
  rewrite random_uniform_value in H2, H3.
  injection H2 as E2 _. injection H3 as E3 _.
  unfold VRPTuner.in_ranges. rewrite <- E2, <- E3.
  split; [exact H1|]. split; [|split; [|exact H4]].
  - apply uniform_between; [exact Hcx | apply Hunit | apply Hunit].
  - apply uniform_between; [exact Hmu | apply Hunit | apply Hunit].
Qed.

Lemma random_search_samples_in_ranges_witness :
  exists o g',
    VRPTuner.random_search_tuning (RS := digit_source) line_instance 3
      (Some (VRPTuner.mkRanges (2, 5) (1 # 2, 9 # 10) (1 # 20, 1 # 4) (2, 4)))
      5 0 123456 = (Ok o, g') /\
    Forall (fun r => VRPTuner.in_ranges
                       (VRPTuner.mkRanges (2, 5) (1 # 2, 9 # 10)
                                          (1 # 20, 1 # 4) (2, 4))
                       (VRPTuner.params r))
           (VRPTuner.all_results o).
Proof.
  destruct (random_search_total (RS := digit_source) line_instance 3
              (VRPTuner.mkRanges (2, 5) (1 # 2, 9 # 10) (1 # 20, 1 # 4) (2, 4))
              5 0 123456) as (o & g' & E); [cbn; lia | cbn; lia | cbn; lia |].
  exists o, g'. split; [exact E|].
  apply (random_search_samples_in_ranges digit_source line_instance 3
           (Some (VRPTuner.mkRanges (2, 5) (1 # 2, 9 # 10) (1 # 20, 1 # 4)
                                    (2, 4)))
           5 0 123456 g' o digit_source_unit);
    [unfold Qle; cbn; lia | unfold Qle; cbn; lia | exact E].
Defined.

(** X24.  After its first draws the random search is no longer random:
    every call of [solve] reseeds the generator the parameters are drawn
    from.  Two searches whose first sampled parameters agree (or fail
    alike) have the same outcome, whatever the states of the generator
    they start from. *)
Theorem random_search_follows_first_sample :
  forall (RS : RandomSource) (solver : VRPSolver Point) (n_trials : Z)
         (param_ranges : option VRPTuner.ParamRanges) (ngen seed_base : Z)
         (g g' : rng RS),
    fst (VRPTuner.sample_params (VRPTuner.ranges_or_default param_ranges) g)
    = fst (VRPTuner.sample_params (VRPTuner.ranges_or_default param_ranges) g') ->
    fst (VRPTuner.random_search_tuning solver n_trials param_ranges ngen
           seed_base g)
    = fst (VRPTuner.random_search_tuning solver n_trials param_ranges ngen
             seed_base g').
Proof.
  intros RS solver n pr ngen sb g g' H.
  unfold VRPTuner.random_search_tuning.
  destruct (range n) as [|x xs]; [reflexivity|].
  cbn [for_each_rand]. unfold rbind.
  destruct (VRPTuner.sample_params (VRPTuner.ranges_or_default pr) g)
    as [[p|e] g1];
    destruct (VRPTuner.sample_params (VRPTuner.ranges_or_default pr) g')
      as [[p'|e'] g1']; cbn [fst] in H; try discriminate H.
  - inversion H; subst p'.
    now rewrite (run_trial_seeded solver ngen sb _ x p g1 g1').
  - inversion H; subst e'. reflexivity.
Qed.

Lemma random_search_follows_first_sample_witness :
  fst (VRPTuner.random_search_tuning (RS := digit_source) line_instance 3
         (Some (VRPTuner.mkRanges (2, 5) (1 # 2, 9 # 10) (1 # 20, 1 # 4) (2, 4)))
         5 0 1020304)
  = fst (VRPTuner.random_search_tuning (RS := digit_source) line_instance 3
           (Some (VRPTuner.mkRanges (2, 5) (1 # 2, 9 # 10) (1 # 20, 1 # 4)
                                    (2, 4)))
           5 0 9901020304).
Proof.
  apply (random_search_follows_first_sample digit_source line_instance 3
           (Some (VRPTuner.mkRanges (2, 5) (1 # 2, 9 # 10) (1 # 20, 1 # 4)
                                    (2, 4)))
           5 0 1020304 9901020304).
  vm_compute. reflexivity.
Defined.

Section GridSearchFacts.

Context {RS : RandomSource}.
Variable solver : VRPSolver Point.

Lemma combine_same_length {A B} (l1 : list A) (l2 : list B) :
  length l1 = length l2 ->
  map fst (combine l1 l2) = l1 /\ map snd (combine l1 l2) = l2.
Proof.
  revert l2. induction l1 as [|a l1 IH]; intros [|b l2] H;
    try discriminate H; [now split|].
  cbn [combine map fst snd]. destruct (IH l2) as [E1 E2]; [cbn in H; lia|].
  now rewrite E1, E2.
Qed.

Lemma enumerate_split {A} (l : list A) :
  map fst (VRPTuner.enumerate l) = range (len l) /\
  map snd (VRPTuner.enumerate l) = l.
Proof.
  apply combine_same_length. rewrite range_length. unfold len. lia.
Qed.

Lemma flat_map_length_const {A B} (f : A -> list B) (l : list A) (k : nat) :
  (forall a, length (f a) = k) ->
  length (flat_map f l) = (length l * k)%nat.
Proof.
  intros H. induction l as [|a l IH]; [reflexivity|].
  cbn [flat_map length]. rewrite length_app, H, IH. lia.
Qed.

Lemma combinations_length (grid : VRPTuner.ParamGrid) :
  len (VRPTuner.combinations grid)
  = len (VRPTuner.pop_size_values grid) * len (VRPTuner.cxpb_values grid)
    * len (VRPTuner.mutpb_values grid) * len (VRPTuner.tournsize_values grid).
Proof.
  unfold VRPTuner.combinations, len.
  rewrite (flat_map_length_const _ _
             (length (VRPTuner.cxpb_values grid)
              * (length (VRPTuner.mutpb_values grid)
                 * length (VRPTuner.tournsize_values grid)))).
  - lia.
  - intros a. apply flat_map_length_const. intros b.
    apply flat_map_length_const. intros c. apply length_map.
Qed.

Lemma in_combinations (grid : VRPTuner.ParamGrid) (p : VRPTuner.Params) :
  In p (VRPTuner.combinations grid) <->
  In (VRPTuner.pop_size p) (VRPTuner.pop_size_values grid) /\
  In (VRPTuner.cxpb p) (VRPTuner.cxpb_values grid) /\
  In (VRPTuner.mutpb p) (VRPTuner.mutpb_values grid) /\
  In (VRPTuner.tournsize p) (VRPTuner.tournsize_values grid).
Proof.
  unfold VRPTuner.combinations. split.
  - intros H. apply in_flat_map in H. destruct H as (a & Ha & H).
    apply in_flat_map in H. destruct H as (b & Hb & H).
    apply in_flat_map in H. destruct H as (c & Hc & H).
    apply in_map_iff in H. destruct H as (d & <- & Hd). cbn. auto.
  - intros (Ha & Hb & Hc & Hd). destruct p as [a b c d]. cbn in *.
    apply in_flat_map. exists a. split; [exact Ha|].
    apply in_flat_map. exists b. split; [exact Hb|].
    apply in_flat_map. exists c. split; [exact Hc|].
    apply in_map_iff. now exists d.
Qed.

Lemma grid_search_numbered (grid : VRPTuner.ParamGrid) (ngen seed_base : Z)
  (g g' : rng RS) (o : VRPTuner.Outcome) :
  VRPTuner.grid_search_tuning solver grid ngen seed_base g = (Ok o, g') ->
  map (fun r => (VRPTuner.trial r - 1, VRPTuner.params r))
      (VRPTuner.all_results o)
  = VRPTuner.enumerate (VRPTuner.combinations grid) /\
  Forall (VRPTuner.replays RS solver ngen seed_base) (VRPTuner.all_results o).
Proof.
  unfold VRPTuner.grid_search_tuning.
  apply (for_each_rand_prefix
           (fun pre o =>
              map (fun r => (VRPTuner.trial r - 1, VRPTuner.params r))
                  (VRPTuner.all_results o) = pre /\
              Forall (VRPTuner.replays RS solver ngen seed_base)
                     (VRPTuner.all_results o))).
  - intros pre [i combo] post s g0 s' g1 _ [Hn Hr] H.
    apply run_trial_appends in H. destruct H as (r & -> & Ht & Ep & Hrep).
    rewrite map_app, Hn. cbn [map]. rewrite Ht, Ep.
    split; [do 3 f_equal; lia|].
    apply Forall_app. split; [exact Hr | now constructor].
  - split; [reflexivity | constructor].
Qed.

Lemma grid_search_seeded (grid : VRPTuner.ParamGrid) (ngen seed_base : Z)
  (g g' : rng RS) :
  fst (VRPTuner.grid_search_tuning solver grid ngen seed_base g)
  = fst (VRPTuner.grid_search_tuning solver grid ngen seed_base g').
Proof.
  unfold VRPTuner.grid_search_tuning.
  apply for_each_rand_seeded. intros s [i combo] g0 g1.
  apply run_trial_seeded.
Qed.

Lemma grid_search_total (grid : VRPTuner.ParamGrid) (ngen seed_base : Z)
  (g : rng RS) :
  2 <= num_locations solver ->
  Forall (fun v => 1 <= v) (VRPTuner.pop_size_values grid) ->
  Forall (fun v => 1 <= v) (VRPTuner.tournsize_values grid) ->
  exists o g',
    VRPTuner.grid_search_tuning solver grid ngen seed_base g = (Ok o, g').
Proof.
  intros Hn Hp Ht. unfold VRPTuner.grid_search_tuning.
  destruct (for_each_rand_total (RS := RS) (fun _ : VRPTuner.Outcome => True)
              (fun state '(i, combo) =>
                 VRPTuner.run_trial solver ngen seed_base state i combo)
              (VRPTuner.enumerate (VRPTuner.combinations grid)))
    with (s := (@None VRPTuner.Params, @None Individual, Inf,
                @nil VRPTuner.TrialResult)) (g := g)
    as (o & g' & E & _); [| exact I | now exists o, g'].
  intros s [i p] g0 Hin _.
  apply in_combine_r in Hin. apply in_combinations in Hin.
  destruct Hin as (Hp1 & _ & _ & Ht1).
  rewrite Forall_forall in Hp, Ht.
  destruct (solve_total solver (VRPTuner.solve_args p ngen seed_base i) g0 Hn)
    as (r & g2 & Er & _ & Hw); [cbn; auto | cbn; auto |].
  assert (Hd : exists d, getitem (fitness_values (best_individual r)) 0 = Ok d).
  { unfold fitness_values, weights.
    destruct (wvalues (best_individual r)) as [|a [|b [|c w]]];
      try discriminate Hw. eexists. reflexivity. }
  destruct Hd as (d & Hd). destruct s as [[[bp bi] bd] all].
  destruct (run_trial_ok solver ngen seed_base bp bi bd all i p g0 g2 r d Er Hd)
    as (o & Eo).
  exists o, g2. auto.
Qed.

End GridSearchFacts.

(** X25.  A grid search that returns has tried every combination of the
    grid exactly once, in the order of [itertools.product] (the last
    parameter runs fastest), numbered from 1; there are as many results
    as the lengths of the four lists multiply to, and each result can be
    replayed by [solve] with its parameters and the seed
    [seed_base + trial - 1]. *)
Theorem grid_search_tries_every_combination :
  forall (RS : RandomSource) (solver : VRPSolver Point)
         (param_grid : VRPTuner.ParamGrid) (ngen seed_base : Z)
         (g g' : rng RS) (o : VRPTuner.Outcome),
    VRPTuner.grid_search_tuning solver param_grid ngen seed_base g
    = (Ok o, g') ->
    map VRPTuner.params (VRPTuner.all_results o)
    = VRPTuner.combinations param_grid /\
    map VRPTuner.trial (VRPTuner.all_results o)
    = map Z.succ (range (len (VRPTuner.combinations param_grid))) /\
    len (VRPTuner.all_results o)
    = len (VRPTuner.pop_size_values param_grid)
      * len (VRPTuner.cxpb_values param_grid)
      * len (VRPTuner.mutpb_values param_grid)
      * len (VRPTuner.tournsize_values param_grid) /\
    Forall (VRPTuner.replays RS solver ngen seed_base) (VRPTuner.all_results o).
Proof.
  intros RS solver grid ngen sb g g' o E.
  destruct (grid_search_numbered solver grid ngen sb g g' o E) as [Hn Hrep].
  destruct (enumerate_split (VRPTuner.combinations grid)) as [E1 E2].
  assert (Hp : map VRPTuner.params (VRPTuner.all_results o)
               = VRPTuner.combinations grid).
  { rewrite <- E2, <- Hn, map_map. reflexivity. }
  assert (Ht : map VRPTuner.trial (VRPTuner.all_results o)
               = map Z.succ (range (len (VRPTuner.combinations grid)))).
  { rewrite <- E1, <- Hn, !map_map. apply map_ext. intros r. cbn [fst]. lia. }
  split; [exact Hp|]. split; [exact Ht|]. split; [|exact Hrep].
  rewrite <- combinations_length, <- Hp. unfold len. now rewrite length_map.
Qed.

Lemma grid_search_tries_every_combination_witness :
  exists o g',
    VRPTuner.grid_search_tuning (RS := digit_source) line_instance
      (VRPTuner.mkGrid [2; 4] [1 # 2] [1 # 10; 1 # 5] [2; 3]) 5 0 123456
    = (Ok o, g') /\
    map VRPTuner.params (VRPTuner.all_results o)
    = VRPTuner.combinations
        (VRPTuner.mkGrid [2; 4] [1 # 2] [1 # 10; 1 # 5] [2; 3]) /\
    len (VRPTuner.all_results o) = 8.
Proof.
  destruct (grid_search_total (RS := digit_source) line_instance
              (VRPTuner.mkGrid [2; 4] [1 # 2] [1 # 10; 1 # 5] [2; 3]) 5 0
              123456) as (o & g' & E);
    [cbn; lia | repeat constructor; lia | repeat constructor; lia |].
  exists o, g'. split; [exact E|].
  destruct (grid_search_tries_every_combination digit_source line_instance
              _ 5 0 123456 g' o E) as (Hp & _ & Hl & _).
  split; [exact Hp | exact Hl].
Defined.

(** X26.  The grid search draws nothing of its own and every trial
    reseeds the generator, so its outcome does not depend on the state of
    the generator; and on a well-formed call (at least two locations,
    values of [pop_size] and [tournsize] at least 1) it returns. *)
Theorem grid_search_returns :
  forall (RS : RandomSource) (solver : VRPSolver Point)
         (param_grid : VRPTuner.ParamGrid) (ngen seed_base : Z),
    2 <= num_locations solver ->
    Forall (fun v => 1 <= v) (VRPTuner.pop_size_values param_grid) ->
    Forall (fun v => 1 <= v) (VRPTuner.tournsize_values param_grid) ->
    exists o,
      forall g : rng RS,
        fst (VRPTuner.grid_search_tuning solver param_grid ngen seed_base g)
        = Ok o.
Proof.
  intros RS solver grid ngen sb Hn Hp Ht.
  destruct (grid_search_total solver grid ngen sb (seed_state RS 0) Hn Hp Ht)
    as (o & g' & E).
  exists o. intros g.
  rewrite (grid_search_seeded solver grid ngen sb g (seed_state RS 0)).
  now rewrite E.
Qed.

Lemma grid_search_returns_witness :
  exists o,
    forall g : rng digit_source,
      fst (VRPTuner.grid_search_tuning line_instance
             (VRPTuner.mkGrid [2; 4] [1 # 2] [1 # 10; 1 # 5] [2; 3]) 5 0 g)
      = Ok o.
Proof.
  apply (grid_search_returns digit_source line_instance
           (VRPTuner.mkGrid [2; 4] [1 # 2] [1 # 10; 1 # 5] [2; 3]) 5 0);
    [cbn; lia | repeat constructor; lia | repeat constructor; lia].
Defined.

(** X27.  What the tuners call best: with at least one vehicle, the
    distances recorded are real numbers, and the best parameters, the
    best individual and the best distance a tuner returns are those of
    the first result with the least distance (later ties do not replace
    it); without any result they are [None], [None] and infinity. *)
Theorem tuners_return_first_minimum :
  forall (RS : RandomSource) (solver : VRPSolver Point) (ngen seed_base : Z)
         (g g' : rng RS) (o : VRPTuner.Outcome),
    1 <= num_vehicles solver ->
    (forall n_trials param_ranges,
        VRPTuner.random_search_tuning solver n_trials param_ranges ngen
          seed_base g = (Ok o, g') ->
        VRPTuner.first_minimum o) /\
    (forall param_grid,
        VRPTuner.grid_search_tuning solver param_grid ngen seed_base g
        = (Ok o, g') ->
        VRPTuner.first_minimum o).
Proof.
  intros RS solver ngen sb g g' o Hnv. split.
  - intros n pr. unfold VRPTuner.random_search_tuning.
    apply (for_each_rand_invariant VRPTuner.first_minimum).
    + intros s x g0 s' g1 _ Hs H.
      apply rbind_ok_inv in H. destruct H as (p & g2 & _ & H).
      exact (run_trial_first_minimum solver Hnv ngen sb s s' x p g2 g1 Hs H).
    + cbn. auto.
  - intros grid. unfold VRPTuner.grid_search_tuning.
    apply (for_each_rand_invariant VRPTuner.first_minimum).
    + intros s [i p] g0 s' g1 _ Hs H.
      exact (run_trial_first_minimum solver Hnv ngen sb s s' i p g0 g1 Hs H).
    + cbn. auto.
Qed.

Lemma tuners_return_first_minimum_witness :
  exists o g',
    VRPTuner.random_search_tuning (RS := digit_source) line_instance 3
      (Some (VRPTuner.mkRanges (2, 5) (1 # 2, 9 # 10) (1 # 20, 1 # 4) (2, 4)))
      5 0 123456 = (Ok o, g') /\
    VRPTuner.first_minimum o.
Proof.
  destruct (random_search_total (RS := digit_source) line_instance 3
              (VRPTuner.mkRanges (2, 5) (1 # 2, 9 # 10) (1 # 20, 1 # 4) (2, 4))
              5 0 123456) as (o & g' & E); [cbn; lia | cbn; lia | cbn; lia |].
  exists o, g'. split; [exact E|].
  exact (proj1 (tuners_return_first_minimum digit_source line_instance 5 0
                  123456 g' o ltac:(cbn; lia)) 3 _ E).
Defined.

(** X28.  [compare_tuning_methods] returns on every instance with at
    least two locations, whatever the depot, the number of vehicles and
    the state of the generator: the random search brings
    [max(0, n_trials)] results, the grid search 36, and the grid half of
    the comparison is the outcome the grid search has from any state of
    the generator: it does not depend on the random search run before
    it. *)
Theorem compare_tuning_methods_returns :
  forall (RS : RandomSource) (locations : list Point) (depot : Point)
         (num_vehicles n_trials : Z) (g : rng RS),
    2 <= len locations ->
    exists random_search grid_search g',
      VRPTuner.compare_tuning_methods locations depot num_vehicles n_trials g
      = (Ok (random_search, grid_search), g') /\
      len (VRPTuner.all_results random_search) = Z.max 0 n_trials /\
      len (VRPTuner.all_results grid_search) = 36 /\
      forall g0 : rng RS,
        fst (VRPTuner.grid_search_tuning
               (mkSolver locations depot num_vehicles)
               VRPTuner.comparison_grid 20 0 g0) = Ok grid_search.
Proof.
  intros RS locations depot nv n g Hn.
  set (tuner := mkSolver locations depot nv).
  destruct (random_search_total tuner n VRPTuner.default_ranges 20 0 g)
    as (rs & g1 & Er); [exact Hn | cbn; lia | cbn; lia |].
  destruct (grid_search_total tuner VRPTuner.comparison_grid 20 0 g1)
    as (gs & g2 & Eg);
    [exact Hn | repeat constructor; lia | repeat constructor; lia |].
  exists rs, gs, g2. split; [|split; [|split]].
  - unfold VRPTuner.compare_tuning_methods. fold tuner.
    unfold rbind at 1.
    change (VRPTuner.random_search_tuning tuner n None 20 0 g)
      with (VRPTuner.random_search_tuning tuner n
              (Some VRPTuner.default_ranges) 20 0 g).
    rewrite Er. unfold rbind at 1. now rewrite Eg.
  - destruct (random_search_numbered tuner n _ 20 0 g g1 rs Er) as [Hnum _].
    apply (f_equal (@length Z)) in Hnum.
    rewrite !length_map, range_length in Hnum. unfold len. lia.
  - destruct (grid_search_numbered tuner _ 20 0 g1 g2 gs Eg) as [Hnum _].
    apply (f_equal (@length (Z * VRPTuner.Params))) in Hnum.
    rewrite length_map in Hnum. unfold len. rewrite Hnum. reflexivity.
  - intros g0.
    rewrite (grid_search_seeded tuner VRPTuner.comparison_grid 20 0 g0 g1).
    now rewrite Eg.
Qed.

Lemma compare_tuning_methods_returns_witness :
  exists random_search grid_search g',
    VRPTuner.compare_tuning_methods (RS := digit_source)
      [(1, 0); (2, 0); (3, 0)]%R (0, 0)%R 2 4 123456
    = (Ok (random_search, grid_search), g') /\
    len (VRPTuner.all_results random_search) = Z.max 0 4 /\
    len (VRPTuner.all_results grid_search) = 36.
Proof.
  destruct (compare_tuning_methods_returns digit_source
              [(1, 0); (2, 0); (3, 0)]%R (0, 0)%R 2 4 123456 ltac:(cbn; lia))
    as (rs & gs & g' & E & H1 & H2 & _).
  exists rs, gs, g'. auto.
Defined.

(** ** The route figure *)

Lemma vehicle_route_bracketed {P} (self : VRPSolver P) (ind : list Z) (i : Z)
  (route : list P) :
  vehicle_route self ind i = Ok route ->
  exists stops, route = depot self :: stops ++ [depot self].
Proof.
  unfold vehicle_route.
  destruct (range3 _ _ _) as [js|e]; cbn [Py.bind]; [|discriminate].
  destruct (comprehension _ js) as [stops|e]; cbn [Py.bind]; [|discriminate].
  intros H. inversion H. now exists stops.
Qed.

Lemma combine_fst_snd {A B} (l : list (A * B)) :
  combine (map fst l) (map snd l) = l.
Proof.
  induction l as [|[a b] l IH]; [reflexivity|]. cbn. now rewrite IH.
Qed.

(** The trace of vehicle [i] on the route [route]. *)
Lemma route_traces (locations : list Point) (depot : Point)
  (individual : list Z) (num_vehicles : Z) (colors : list string)
  (vehicles : list Z) (fig : list Scatter) :
  colors <> [] ->
  for_each vehicles
    (fun fig i =>
       vehicle_route <-
         vehicle_route (mkSolver locations depot num_vehicles) individual i ;;
       route <- zip_star vehicle_route ;;
       color <- getitem colors (i mod len colors) ;;
       Ok (fig ++ [mkScatter (fst route) (snd route) "lines+markers" color
                             ("Vehicle " ++ str (i + 1))]))
    fig
  = (routes <- comprehension
                 (vehicle_route (mkSolver locations depot num_vehicles)
                                individual) vehicles ;;
     Ok (fig ++ map (fun ir =>
                       mkScatter (map fst (snd ir)) (map snd (snd ir))
                         "lines+markers"
                         (nth (Z.to_nat (fst ir mod len colors)) colors
                              ""%string)
                         ("Vehicle " ++ str (fst ir + 1)))
                    (combine vehicles routes))).
Proof.
  intros Hc. revert fig.
  induction vehicles as [|i vehicles IH]; intros fig;
    cbn [for_each comprehension].
  - cbn [Py.bind combine map]. now rewrite app_nil_r.
  - destruct (vehicle_route _ individual i) as [route|e] eqn:Er;
      cbn [Py.bind]; [|reflexivity].
    destruct (vehicle_route_bracketed _ _ _ _ Er) as (stops & ->).
    cbn [zip_star Py.bind fst snd].
    rewrite (getitem_nth colors (i mod len colors) ""%string).
    2:{ apply Z.mod_pos_bound. destruct colors; [congruence|].
        unfold len. cbn [length]. lia. }
    cbn [Py.bind]. rewrite IH.
    destruct (comprehension _ vehicles) as [routes|e]; cbn [Py.bind];
      [|reflexivity].
    cbn [combine map fst snd]. now rewrite <- app_assoc.
Qed.

(** X29.  The figure shows the decoder's routes.  On at least one
    location, [plot_vrp_routes] fails exactly when [get_vehicle_routes]
    does, with the same exception; otherwise its figure holds the depot,
    the customers and then one trace per vehicle, in order, that joins
    the very points of the decoded route, is named [Vehicle i+1] and
    takes the colour of rank [i mod 10]: the lookup of the colour never
    fails, and vehicles ten apart share a colour. *)
Theorem plot_vrp_routes_draws_decoded_routes :
  forall (locations : list Point) (depot : Point) (individual : list Z)
         (num_vehicles : Z),
    locations <> [] ->
    match get_vehicle_routes (mkSolver locations depot num_vehicles)
                             individual with
    | Ok routes =>
        exists depot_trace customers traces,
          plot_vrp_routes locations depot individual num_vehicles
          = Ok (depot_trace :: customers :: traces) /\
          trace_points depot_trace = [depot] /\
          trace_points customers = locations /\
          map trace_points traces = routes /\
          map trace_name traces
          = map (fun i => ("Vehicle " ++ str (i + 1))%string)
                (range num_vehicles) /\
          map trace_color traces
          = map (fun i =>
                   nth (Z.to_nat (i mod 10))
                       ["red"; "green"; "blue"; "orange"; "purple"; "brown";
                        "pink"; "gray"; "cyan"; "magenta"]%string ""%string)
                (range num_vehicles)
    | Raise e =>
        plot_vrp_routes locations depot individual num_vehicles = Raise e
    end.
Proof.
  intros locations depot individual nv Hne.
  rewrite get_vehicle_routes_comprehension. unfold plot_vrp_routes.
  destruct locations as [|l0 ls]; [congruence|].
  cbn [zip_star Py.bind fst snd app]. rewrite route_traces by discriminate.
  change (num_vehicles (mkSolver (l0 :: ls) depot nv)) with nv.
  destruct (comprehension _ (range nv)) as [routes|e] eqn:Ec; cbn [Py.bind];
    [|reflexivity].
  apply comprehension_length in Ec.
  assert (Hs : forall A (f : Z * list Point -> A) (g : Z -> A),
             (forall ir, f ir = g (fst ir)) ->
             map f (combine (range nv) routes) = map g (range nv)).
  { intros A f g Hfg.
    rewrite (map_ext f (fun ir => g (fst ir)) Hfg), <- map_map.
    now rewrite (proj1 (combine_same_length (range nv) routes (eq_sym Ec))). }
  eexists _, _, _. split; [reflexivity|]. cbn [app].
  split; [destruct depot; reflexivity|].
  split; [unfold trace_points; cbn [trace_x trace_y]; apply combine_fst_snd|].
  rewrite !map_map. split; [|split].
  - rewrite (map_ext _ (fun ir : Z * list Point => snd ir)).
    + rewrite <- (map_map snd (fun r : list Point => r)), map_id.
      exact (proj2 (combine_same_length (range nv) routes (eq_sym Ec))).
    + intros [i r]. unfold trace_points. cbn [trace_x trace_y snd].
      apply combine_fst_snd.
  - apply Hs. intros ir. reflexivity.
  - apply Hs. intros ir. reflexivity.
Qed.

Lemma plot_vrp_routes_draws_decoded_routes_witness :
  exists depot_trace customers traces,
    plot_vrp_routes [(1, 0); (2, 0); (3, 0)]%R (0, 0)%R [1; 0; 2] 2
    = Ok (depot_trace :: customers :: traces) /\
    map trace_points traces
    = [[(0, 0); (2, 0); (3, 0); (0, 0)]; [(0, 0); (1, 0); (0, 0)]]%R /\
    map trace_color traces = ["red"; "green"]%string.
Proof.
  pose proof (plot_vrp_routes_draws_decoded_routes
                [(1, 0); (2, 0); (3, 0)]%R (0, 0)%R [1; 0; 2] 2
                ltac:(discriminate)) as H.
  change (get_vehicle_routes (mkSolver [(1, 0); (2, 0); (3, 0)]%R (0, 0)%R 2)
                             [1; 0; 2])
    with (Ok [[(0, 0); (2, 0); (3, 0); (0, 0)]; [(0, 0); (1, 0); (0, 0)]]%R)
    in H.
  destruct H as (d & c & traces & E & _ & _ & Hp & _ & Hc).
  exists d, c, traces. split; [exact E|]. split; [exact Hp | exact Hc].
Defined.

(** X30.  Without locations no figure: on the empty list of locations
    [plot_vrp_routes] raises [ValueError] whatever the individual and the
    number of vehicles (the customers' coordinates cannot be unpacked),
    although the decoder handles that instance and sends every vehicle
    from the depot to the depot. *)
Theorem plot_vrp_routes_needs_a_location :
  forall (depot : Point) (individual : list Z) (num_vehicles : Z),
    plot_vrp_routes [] depot individual num_vehicles = Raise ValueError /\
    get_vehicle_routes (mkSolver [] depot num_vehicles) []
    = Ok (map (fun _ => [depot; depot]) (range num_vehicles)).
Proof.
  intros dep individual nv. split; [reflexivity|].
  rewrite get_vehicle_routes_comprehension.
  apply comprehension_map. intros i Hi. apply in_range in Hi.
  change (num_vehicles (mkSolver [] dep nv)) with nv in *.
  unfold vehicle_route, range3, range_len.
  cbn [num_vehicles len length Z.of_nat depot locations].
  destruct (Z.eqb_spec nv 0); [lia|].
  destruct (Z.ltb_spec 0 nv); [|lia].
  destruct (Z.ltb_spec i 0); [lia|].
  destruct (Z.ltb_spec nv 0); [lia|]. reflexivity.
Qed.
